(** * Minesweeper knowledge engine: a shallow embedding of [minesweeper.py]

    The Python classes [Minesweeper], [Sentence] and [MinesweeperAI] are
    embedded as Rocq modules of the same names.  Python [int]s are [Z],
    a cell is a pair of [Z], Python [set]s of cells are [gset]s and the
    knowledge list is a [list].  Exceptions and the unbounded [while] loop
    are made explicit by the [result] type. *)

From Stdlib Require Import ssreflect.
From stdpp Require Import gmap list.

#[local] Set Warnings "-clear-no-such-hyp".

Abbreviation Cell := (Z * Z)%type.

(** ** Python runtime: exceptions, loops *)

Inductive exn := KeyError | IndexError.

(** [OutOfFuel] is only produced by the fuel-indexed [while] loop; it is
    not an exception of the program. *)
Inductive result (A : Type) :=
  | Ok (a : A)
  | Raise (e : exn)
  | OutOfFuel.
Arguments Ok {A} a.
Arguments Raise {A} e.
Arguments OutOfFuel {A}.

#[global] Instance result_ret : MRet result := @Ok.
#[global] Instance result_bind : MBind result := λ A B f m,
  match m with
  | Ok a => f a
  | Raise e => Raise e
  | OutOfFuel => OutOfFuel
  end.

(** [for x in l: s = body x s] *)
Fixpoint for_each {A St : Type} (body : A → St → result St) (l : list A)
    (s : St) : result St :=
  match l with
  | [] => Ok s
  | x :: l' => s' ← body x s; for_each body l' s'
  end.

(** [for x in l: x.f()] for a method [f] that updates [x] in place; the loop
    stops at the first exception. *)
Fixpoint map_result {A B : Type} (f : A → result B) (l : list A)
  : result (list B) :=
  match l with
  | [] => Ok []
  | x :: l' => y ← f x; ys ← map_result f l'; Ok (y :: ys)
  end.

(** [s.remove(c)]: raises [KeyError] when [c] is not a member. *)
Definition set_remove (c : Cell) (s : gset Cell) : result (gset Cell) :=
  if bool_decide (c ∈ s) then Ok (s ∖ {[c]}) else Raise KeyError.

(** Truth value of a set: non-empty. *)
Definition truthy (s : gset Cell) : bool := negb (bool_decide (s = ∅)).

(** [random.choice(l)] with the random source made explicit: [rnd] selects
    the position; an empty sequence raises [IndexError]. *)
Definition random_choice (rnd : nat) (l : list Cell) : result Cell :=
  match l !! (rnd `mod` length l)%nat with
  | Some c => Ok c
  | None => Raise IndexError
  end.

(** [range(a, b)] and [i in range(n)] *)
Definition range (a b : Z) : list Z := seqZ a (b - a).
Definition in_range (i n : Z) : bool := (0 <=? i)%Z && (i <? n)%Z.

(** The double loop
    [for i in range(cell[0]-1, cell[0]+2): for j in range(cell[1]-1, cell[1]+2)]
    in iteration order. *)
Definition window (cell : Cell) : list Cell :=
  i ← range (cell.1 - 1) (cell.1 + 2);
  j ← range (cell.2 - 1) (cell.2 + 2);
  [(i, j)].

(** ** class Minesweeper (the board; only what observations are read from) *)

Module Minesweeper.

(** [board[i][j]] is abstracted as a predicate on cells; [nearby_mines]
    only reads it inside the bounds. *)
Record t := mk {
  height : Z;
  width : Z;
  board : Cell → bool;
}.

Definition is_mine (g : t) (cell : Cell) : bool := board g cell.

(** Body of the double loop of [nearby_mines]; the accumulator is
    [count]. *)
Definition tally (g : t) (cell : Cell) (count : Z) (ij : Cell) : Z :=
  if bool_decide (ij = cell) then count
  else if in_range ij.1 (height g) && in_range ij.2 (width g) then
    if board g ij then (count + 1)%Z else count
  else count.

Definition nearby_mines (g : t) (cell : Cell) : Z :=
  foldl (tally g cell) 0%Z (window cell).

End Minesweeper.

(** ** class Minesweeper, as a game: the board is the list of rows that
    [__init__] builds, and [random.randrange] reads its values from an
    explicit list of draws, one pair per iteration of the placement loop. *)

Module Game.

Inductive exn := ValueError | IndexError.

(** [OutOfDraws]: the placement loop has used all the draws and has not
    finished; it is not an exception of the program. *)
Inductive outcome (A : Type) :=
  | Returns (a : A)
  | Raises (e : exn)
  | OutOfDraws.
Arguments Returns {A} a.
Arguments Raises {A} e.
Arguments OutOfDraws {A}.

#[global] Instance outcome_ret : MRet outcome := @Returns.
#[global] Instance outcome_bind : MBind outcome := λ A B f m,
  match m with
  | Returns a => f a
  | Raises e => Raises e
  | OutOfDraws => OutOfDraws
  end.

(** Position of the index [i] in a list of length [n]: a negative index
    counts from the end. *)
Definition position (n : nat) (i : Z) : option nat :=
  let k := if (i <? 0)%Z then (i + Z.of_nat n)%Z else i in
  if (0 <=? k)%Z && (k <? Z.of_nat n)%Z then Some (Z.to_nat k) else None.

(** [l[i]] *)
Definition getitem {A} (l : list A) (i : Z) : outcome A :=
  match position (length l) i ≫= (l !!.) with
  | Some x => Returns x
  | None => Raises IndexError
  end.

(** [l[i] = x] *)
Definition setitem {A} (l : list A) (i : Z) (x : A) : outcome (list A) :=
  match position (length l) i with
  | Some k => Returns (<[k := x]> l)
  | None => Raises IndexError
  end.

(** [random.randrange(n)], the drawn value being [rnd] reduced to the
    range; an empty range raises [ValueError]. *)
Definition randrange (rnd : nat) (n : Z) : outcome Z :=
  if (n <=? 0)%Z then Raises ValueError else Returns (Z.of_nat rnd `mod` n)%Z.

Record t := mk {
  height : Z;
  width : Z;
  mines : gset Cell;
  board : list (list bool);
  mines_found : gset Cell;
}.

(** The loop [while len(self.mines) != mines]. *)
Fixpoint place (wanted : Z) (draws : list (nat * nat)) (g : t) : outcome t :=
  if bool_decide (Z.of_nat (size (mines g)) = wanted) then Returns g
  else
    match draws with
    | [] => OutOfDraws
    | d :: draws' =>
      i ← randrange d.1 (height g);
      j ← randrange d.2 (width g);
      row ← getitem (board g) i;
      b ← getitem row j;
      if b then place wanted draws' g
      else
        row' ← setitem row j true;
        board' ← setitem (board g) i row';
        place wanted draws'
          (mk (height g) (width g) ({[(i, j)]} ∪ mines g) board'
              (mines_found g))
    end.

(** [__init__]; [mines_found] is assigned after the loop, which does not
    read it. *)
Definition init (height width mines : Z) (draws : list (nat * nat))
  : outcome t :=
  let board := replicate (Z.to_nat height) (replicate (Z.to_nat width) false) in
  place mines draws (mk height width ∅ board ∅).

Definition is_mine (g : t) (cell : Cell) : outcome bool :=
  row ← getitem (board g) cell.1;
  getitem row cell.2.

(** Body of the double loop of [nearby_mines]; the accumulator is
    [count]. *)
Definition tally (g : t) (cell : Cell) (ij : Cell) (count : Z) : outcome Z :=
  if bool_decide (ij = cell) then Returns count
  else if in_range ij.1 (height g) && in_range ij.2 (width g) then
    row ← getitem (board g) ij.1;
    b ← getitem row ij.2;
    Returns (if b then (count + 1)%Z else count)
  else Returns count.

Fixpoint for_each {A St : Type} (body : A → St → outcome St) (l : list A)
    (s : St) : outcome St :=
  match l with
  | [] => Returns s
  | x :: l' => s' ← body x s; for_each body l' s'
  end.

Definition nearby_mines (g : t) (cell : Cell) : outcome Z :=
  for_each (tally g cell) (window cell) 0%Z.

Definition won (g : t) : bool := bool_decide (mines_found g = mines g).

End Game.

(** ** class Sentence *)

Module Sentence.

Record t := mk {
  cells : gset Cell;
  count : Z;
  mines : gset Cell;
  safe : gset Cell;
}.

(** [__init__] *)
Definition init (cs : gset Cell) (n : Z) : t := mk cs n ∅ ∅.

(** [__eq__]; [!=] is its negation. *)
Definition eqb (a b : t) : bool :=
  bool_decide (cells a = cells b) && bool_decide (count a = count b).

Definition known_mines (s : t) : gset Cell :=
  if bool_decide (count s = Z.of_nat (size (cells s)))
     && negb (bool_decide (count s = 0%Z))
  then cells s else ∅.

Definition known_safes (s : t) : gset Cell :=
  if bool_decide (count s = 0%Z) then cells s else ∅.

Definition mark_mine (cell : Cell) (s : t) : result t :=
  if bool_decide (cell ∈ cells s) then
    cs ← set_remove cell (cells s);
    Ok (mk cs (count s - 1)%Z ({[cell]} ∪ mines s) (safe s))
  else Ok s.

Definition mark_safe (cell : Cell) (s : t) : result t :=
  if bool_decide (cell ∈ cells s) then
    cs ← set_remove cell (cells s);
    Ok (mk cs (count s) (mines s) ({[cell]} ∪ safe s))
  else Ok s.

End Sentence.

(** ** class MinesweeperAI *)

Module MinesweeperAI.

Record t := mk {
  height : Z;
  width : Z;
  moves_made : gset Cell;
  mines : gset Cell;
  safes : gset Cell;
  knowledge : list Sentence.t;
}.

(** [__init__] *)
Definition init (h w : Z) : t := mk h w ∅ ∅ ∅ [].

Definition with_knowledge (kb : list Sentence.t) (ai : t) : t :=
  mk (height ai) (width ai) (moves_made ai) (mines ai) (safes ai) kb.

Definition mark_mine (cell : Cell) (ai : t) : result t :=
  kb ← map_result (Sentence.mark_mine cell) (knowledge ai);
  Ok (mk (height ai) (width ai) (moves_made ai)
         ({[cell]} ∪ mines ai) (safes ai) kb).

Definition mark_safe (cell : Cell) (ai : t) : result t :=
  kb ← map_result (Sentence.mark_safe cell) (knowledge ai);
  Ok (mk (height ai) (width ai) (moves_made ai)
         (mines ai) ({[cell]} ∪ safes ai) kb).

(** Body of the neighbour scan of [add_knowledge]; the accumulator is the
    pair of the local variables [neighbors] and [count]. *)
Definition scan (ai : t) (cell : Cell) (acc : gset Cell * Z) (ij : Cell)
  : gset Cell * Z :=
  if bool_decide (ij = cell) then acc
  else if in_range ij.1 (height ai) && in_range ij.2 (width ai) then
    if bool_decide (ij ∉ safes ai) && bool_decide (ij ∉ mines ai)
    then ({[ij]} ∪ acc.1, acc.2)
    else if bool_decide (ij ∈ mines ai) then (acc.1, (acc.2 - 1)%Z)
    else acc
  else acc.

(** Step (a) of a closure pass, for the sentence at position [i]:
    the sentence object is read again after the mine broadcast because
    the broadcast mutates it in place; the iterated set is the snapshot
    [.copy()]. *)
Definition extract (i : nat) (ai : t) : result t :=
  match knowledge ai !! i with
  | None => Raise IndexError
  | Some sentence =>
    ai1 ← (if truthy (Sentence.known_mines sentence)
           then for_each mark_mine (elements (Sentence.known_mines sentence)) ai
           else Ok ai);
    match knowledge ai1 !! i with
    | None => Raise IndexError
    | Some sentence' =>
      if truthy (Sentence.known_safes sentence')
      then for_each mark_safe (elements (Sentence.known_safes sentence')) ai1
      else Ok ai1
    end
  end.

(** [for sentence in self.knowledge: ...] of step (a); the list keeps
    its length while its members are mutated. *)
Definition sweep (ai : t) : result t :=
  for_each extract (seq 0 (length (knowledge ai))) ai.

(** [x in l] for a list of sentences, by [__eq__]. *)
Definition contains (s : Sentence.t) (l : list Sentence.t) : bool :=
  existsb (Sentence.eqb s) l.

(** Body of the double loop of step (b); the accumulator is [newSentences]. *)
Definition infer (kb : list Sentence.t) (news : list Sentence.t)
    (p : Sentence.t * Sentence.t) : list Sentence.t :=
  let sentence1 := p.1 in
  let sentence2 := p.2 in
  if negb (Sentence.eqb sentence1 sentence2)
     && bool_decide (Sentence.cells sentence1 ⊆ Sentence.cells sentence2)
  then
    let inferred_sentence :=
      Sentence.init (Sentence.cells sentence2 ∖ Sentence.cells sentence1)
                    (Sentence.count sentence2 - Sentence.count sentence1)%Z in
    if negb (contains inferred_sentence kb)
       && negb (contains inferred_sentence news)
    then news ++ [inferred_sentence]
    else news
  else news.

Definition subset_resolution (kb : list Sentence.t) : list Sentence.t :=
  foldl (infer kb) [] (s1 ← kb; s2 ← kb; [(s1, s2)]).

(** One iteration of the [while made_inference] loop.  The flag is set
    exactly when a sentence is appended to [newSentences], that is when
    the list is non-empty at the end of the pass. *)
Definition pass (ai : t) : result (t * bool) :=
  ai1 ← sweep ai;
  let newSentences := subset_resolution (knowledge ai1) in
  Ok (with_knowledge (knowledge ai1 ++ newSentences) ai1,
      match newSentences with [] => false | _ => true end).

(** The [while made_inference] loop, with [fuel] bounding the number of
    passes. *)
Fixpoint closure (fuel : nat) (ai : t) : result t :=
  match fuel with
  | O => OutOfFuel
  | S fuel' =>
    match pass ai with
    | Ok (ai', made_inference) =>
      if made_inference then closure fuel' ai' else Ok ai'
    | Raise e => Raise e
    | OutOfFuel => OutOfFuel
    end
  end.

(** [add_knowledge] up to the point where the loop starts. *)
Definition observe (cell : Cell) (count : Z) (ai : t) : result t :=
  let ai := mk (height ai) (width ai) ({[cell]} ∪ moves_made ai)
               (mines ai) (safes ai) (knowledge ai) in
  ai ← mark_safe cell ai;
  let scanned := foldl (scan ai cell) ((∅ : gset Cell), count) (window cell) in
  let neighbors := scanned.1 in
  let count := scanned.2 in
  ai ← (if bool_decide (count = 0%Z)
        then for_each mark_safe (elements neighbors) ai else Ok ai);
  ai ← (if bool_decide (count = Z.of_nat (size neighbors))
           && bool_decide (0 < count)%Z
        then for_each mark_mine (elements neighbors) ai else Ok ai);
  let new_sentence := Sentence.init neighbors count in
  Ok (with_knowledge (knowledge ai ++ [new_sentence]) ai).

Definition add_knowledge (fuel : nat) (cell : Cell) (count : Z) (ai : t)
  : result t :=
  ai ← observe cell count ai;
  closure fuel ai.

(** [for cell in self.safes: if cell not in self.moves_made: return cell] *)
Definition make_safe_move (ai : t) : option Cell :=
  head (filter (λ cell, cell ∉ moves_made ai) (elements (safes ai))).

Definition all_cells (ai : t) : gset Cell :=
  list_to_set (i ← range 0 (height ai); j ← range 0 (width ai); [(i, j)]).

Definition available_moves (ai : t) : gset Cell :=
  all_cells ai ∖ moves_made ai ∖ mines ai.

Definition make_random_move (rnd : nat) (ai : t) : result (option Cell) :=
  if truthy (available_moves ai)
  then c ← random_choice rnd (elements (available_moves ai)); Ok (Some c)
  else Ok None.

End MinesweeperAI.

(** * Specification vocabulary *)

Import MinesweeperAI.

(** ** Exception-free readings of the two mutators

    [resolve m c s] is what [Sentence.mark_mine] ([m = true]) and
    [Sentence.mark_safe] ([m = false]) compute when no exception is raised;
    [broadcast] is the same for the engine-level [mark_mine]/[mark_safe]. *)

Definition resolve (m : bool) (c : Cell) (s : Sentence.t) : Sentence.t :=
  if bool_decide (c ∈ Sentence.cells s) then
    Sentence.mk (Sentence.cells s ∖ {[c]})
                (if m then Sentence.count s - 1 else Sentence.count s)%Z
                (if m then {[c]} ∪ Sentence.mines s else Sentence.mines s)
                (if m then Sentence.safe s else {[c]} ∪ Sentence.safe s)
  else s.

Definition broadcast (m : bool) (c : Cell) (ai : t) : t :=
  mk (height ai) (width ai) (moves_made ai)
     (if m then {[c]} ∪ mines ai else mines ai)
     (if m then safes ai else {[c]} ∪ safes ai)
     (resolve m c <$> knowledge ai).

Definition resolve_all (m : bool) (l : list Cell) (s : Sentence.t) : Sentence.t :=
  foldl (λ s c, resolve m c s) s l.

Definition broadcast_all (m : bool) (l : list Cell) (ai : t) : t :=
  foldl (λ ai c, broadcast m c ai) ai l.

(** What step (a) does with one sentence [s] of the knowledge base. *)
Definition fire (s : Sentence.t) (ai : t) : t :=
  if truthy (Sentence.known_mines s)
  then broadcast_all true (elements (Sentence.cells s)) ai
  else if truthy (Sentence.known_safes s)
  then broadcast_all false (elements (Sentence.cells s)) ai
  else ai.

(** ** Truth of the knowledge in a board *)

(** Number of mines of the board [b] among the cells [cs]. *)
Definition mines_in (b : Cell → bool) (cs : gset Cell) : Z :=
  Z.of_nat (size (filter (λ c, b c = true) cs)).

(** "exactly [count] of [cells] are mines" *)
Definition sentence_true (b : Cell → bool) (s : Sentence.t) : Prop :=
  Sentence.count s = mines_in b (Sentence.cells s).

Definition kb_true (b : Cell → bool) (ai : t) : Prop :=
  Forall (sentence_true b) (knowledge ai).

(** The whole state is true in [b]. *)
Definition sound (b : Cell → bool) (ai : t) : Prop :=
  kb_true b ai
  ∧ (∀ c, c ∈ mines ai → b c = true)
  ∧ (∀ c, c ∈ safes ai → b c = false).

(** The engine has the dimensions of the game [g] and its state is true in
    the board of [g]. *)
Definition models (g : Minesweeper.t) (ai : t) : Prop :=
  height ai = Minesweeper.height g ∧ width ai = Minesweeper.width g
  ∧ sound (Minesweeper.board g) ai.

(** An observation [(cell, count)] read from the board [g]. *)
Definition truthful (g : Minesweeper.t) (o : Cell * Z) : Prop :=
  Minesweeper.is_mine g o.1 = false ∧ o.2 = Minesweeper.nearby_mines g o.1.

(** ** Runs of the engine *)

(** [runs ai obs ai']: the calls [add_knowledge] for the observations [obs],
    in order, all return, and lead from [ai] to [ai']. *)
Inductive runs : t → list (Cell * Z) → t → Prop :=
  | runs_nil ai : runs ai [] ai
  | runs_cons ai o obs fuel ai1 ai2 :
      add_knowledge fuel o.1 o.2 ai = Ok ai1 →
      runs ai1 obs ai2 →
      runs ai (o :: obs) ai2.

(** ** State predicates *)

Definition confirmed (ai : t) : gset Cell := mines ai ∪ safes ai.

(** No cell of [s] is confirmed. *)
Definition settled (ai : t) (s : Sentence.t) : Prop :=
  Sentence.cells s ## confirmed ai.

(** The sentence appended by [add_knowledge] right after its cells were
    broadcast: it still lists them, and step (a) will clear it. *)
Definition pending (ai : t) (s : Sentence.t) : Prop :=
  (Sentence.cells s ⊆ safes ai ∧ Sentence.count s = 0%Z)
  ∨ (Sentence.cells s ⊆ mines ai
     ∧ Sentence.count s = Z.of_nat (size (Sentence.cells s))).

Definition all_settled (ai : t) : Prop := Forall (settled ai) (knowledge ai).

(** The state in which the loop of [add_knowledge] starts: only the last
    sentence may list confirmed cells, and then it is pending. *)
Definition nearly_settled (ai : t) : Prop :=
  ∀ j s, knowledge ai !! j = Some s →
    settled ai s ∨ (S j = length (knowledge ai) ∧ pending ai s).

(** No sentence yields a known mine or a known safe cell. *)
Definition quiescent (ai : t) : Prop :=
  Forall (λ s, Sentence.known_mines s = ∅ ∧ Sentence.known_safes s = ∅)
         (knowledge ai).

(** Cells occurring in some sentence, and the cell sets of the sentences. *)
Definition live (ai : t) : gset Cell := ⋃ (Sentence.cells <$> knowledge ai).
Definition shapes (ai : t) : gset (gset Cell) :=
  list_to_set (Sentence.cells <$> knowledge ai).

(** The sentence the subset rule derives from [a] and [b]. *)
Definition difference (a b : Sentence.t) : Sentence.t :=
  Sentence.init (Sentence.cells b ∖ Sentence.cells a)
                (Sentence.count b - Sentence.count a)%Z.

(** The knowledge base is closed under the subset rule, up to sentences all
    of whose cells are resolved. *)
Definition subset_closed (ai : t) : Prop :=
  ∀ a b, a ∈ knowledge ai → b ∈ knowledge ai →
    Sentence.cells a ⊆ Sentence.cells b →
    (∃ s, s ∈ knowledge ai ∧ Sentence.eqb (difference a b) s = true)
    ∨ Sentence.cells (difference a b) ⊆ confirmed ai.

(** Every sentence of [ai] is still at its position in [ai'] (it is the
    same object), with the cells of [R] removed. *)
Definition shrunk (R : gset Cell) (ai ai' : t) : Prop :=
  ∀ i s, knowledge ai !! i = Some s →
    ∃ s', knowledge ai' !! i = Some s'
          ∧ Sentence.cells s' = Sentence.cells s ∖ R.

(** Termination measure of the closure loop. *)
Definition measure (ai : t) : nat := 2 * 2 ^ size (live ai) - size (shapes ai).

(** ** Resolution requests

    [(true, c)] asks to resolve [c] as a mine, [(false, c)] as safe; the
    request is [proven] in a board when the cell has that status there. *)

Definition resolve_call (op : bool * Cell) (s : Sentence.t) : result Sentence.t :=
  if op.1 then Sentence.mark_mine op.2 s else Sentence.mark_safe op.2 s.

Definition broadcast_call (op : bool * Cell) (ai : t) : result t :=
  if op.1 then mark_mine op.2 ai else mark_safe op.2 ai.

Definition proven (b : Cell → bool) (op : bool * Cell) : Prop := b op.2 = op.1.

(** ** Sample games *)

(** A 1 x 5 board with one mine, at (0, 2), and three cells opened on it. *)
Definition line_game : Minesweeper.t :=
  Minesweeper.mk 1 5 (λ c, bool_decide (c = (0, 2)%Z)).

Definition line_observations : list (Cell * Z) :=
  [((0, 1), 1); ((0, 3), 1); ((0, 4), 0)]%Z.

(** Scenario 3 of the specification on a 2 x 2 board with mines at (0, 0)
    and (1, 0): A = (0, 0), B = (0, 1), C = (1, 0). *)
Definition corner_game : Minesweeper.t :=
  Minesweeper.mk 2 2 (λ c, bool_decide (c = (0, 0)%Z) || bool_decide (c = (1, 0)%Z)).

(** A 2 x 3 board with mines at (0, 0) and (0, 2); the bottom row is opened
    from right to left. *)
Definition gap_game : Minesweeper.t :=
  Minesweeper.mk 2 3
    (λ c, bool_decide (c = (0, 0)%Z) || bool_decide (c = (0, 2)%Z)).

Definition gap_observations : list (Cell * Z) :=
  [((1, 2), 1); ((1, 1), 2)]%Z.

Definition scenario3 : t :=
  mk 2 2 ∅ ∅ ∅
     [Sentence.init {[(0, 0); (0, 1)]}%Z 1;
      Sentence.init {[(0, 0); (0, 1); (1, 0)]}%Z 2].

(** A 3 x 3 board with mines at (0, 0) and (2, 2); the centre and the middle
    of the top row are opened. *)
Definition cross_game : Minesweeper.t :=
  Minesweeper.mk 3 3
    (λ c, bool_decide (c = (0, 0)%Z) || bool_decide (c = (2, 2)%Z)).

Definition cross_observations : list (Cell * Z) :=
  [((1, 1), 2); ((0, 1), 1)]%Z.

(** ** The grid *)

Definition in_grid (h w : Z) (c : Cell) : Prop :=
  in_range c.1 h && in_range c.2 w = true.

#[global] Instance in_grid_dec h w c : Decision (in_grid h w c) :=
  decide (in_range c.1 h && in_range c.2 w = true).

(** The in-grid neighbours of [cell]: the cells the double loop visits,
    without [cell] itself, inside the bounds. *)
Definition neighbours (h w : Z) (cell : Cell) : gset Cell :=
  list_to_set (filter (λ ij, ij ≠ cell ∧ in_grid h w ij) (window cell)).

(** Sentences and [mines] only hold grid cells; a cell of [safes] outside
    the grid is a cell that was observed. *)
Definition within_grid (ai : t) : Prop :=
  (∀ s c, s ∈ knowledge ai → c ∈ Sentence.cells s →
          in_grid (height ai) (width ai) c)
  ∧ (∀ c, c ∈ mines ai → in_grid (height ai) (width ai) c)
  ∧ (∀ c, c ∈ safes ai →
          in_grid (height ai) (width ai) c ∨ c ∈ moves_made ai).

(** The sentences of [ai] are still held in [ai'], at their positions; the
    cells they lost are confirmed in [ai'], and nothing was un-confirmed. *)
Definition purged (ai ai' : t) : Prop :=
  ∃ R, shrunk R ai ai' ∧ R ⊆ confirmed ai' ∧ confirmed ai ⊆ confirmed ai'.

(** No two sentences of the list are equal by [__eq__]. *)
Definition pairwise_unequal (l : list Sentence.t) : Prop :=
  ∀ i j a b, i ≠ j → l !! i = Some a → l !! j = Some b →
             Sentence.eqb a b = false.

(** ** Games *)

(** The cells of an [h] x [w] board, row by row. *)
Definition grid (h w : Z) : list Cell :=
  i ← range 0 h; j ← range 0 w; [(i, j)].

(** The board of a game as the engine's development reads it: the
    dimensions and the mine predicate. *)
Definition abstraction (g : Game.t) : Minesweeper.t :=
  Minesweeper.mk (Game.height g) (Game.width g)
                 (λ c, bool_decide (c ∈ Game.mines g)).

(** The board has [height] rows of [width] entries, the entry of a cell is
    [True] exactly for the cells of [mines], and these lie in the grid. *)
Definition well_formed (g : Game.t) : Prop :=
  length (Game.board g) = Z.to_nat (Game.height g)
  ∧ (∀ i row, Game.board g !! i = Some row →
       length row = Z.to_nat (Game.width g)
       ∧ ∀ j b, row !! j = Some b →
           b = bool_decide ((Z.of_nat i, Z.of_nat j) ∈ Game.mines g))
  ∧ (∀ c, c ∈ Game.mines g → in_grid (Game.height g) (Game.width g) c).

(** The draws that make the placement loop pick the cells of [l] in
    order. *)
Definition draws_for (l : list Cell) : list (nat * nat) :=
  (λ c, (Z.to_nat c.1, Z.to_nat c.2)) <$> l.

(** The game after the placement loop has put a mine on the cell [c]. *)
Definition lay (c : Cell) (g : Game.t) : Game.t :=
  Game.mk (Game.height g) (Game.width g) ({[c]} ∪ Game.mines g)
          (alter (<[Z.to_nat c.2 := true]>) (Z.to_nat c.1) (Game.board g))
          (Game.mines_found g).

(** The cell a pair of draws selects. *)
Definition drawn (g : Game.t) (d : nat * nat) : Cell :=
  (Z.of_nat d.1 `mod` Game.height g, Z.of_nat d.2 `mod` Game.width g)%Z.

(** A negative index counts from the end. *)
Definition wrap (i n : Z) : Z := if (i <? 0)%Z then (i + n)%Z else i.

(** * Proofs *)

(** ** The result monad *)

Lemma bind_Ok {A B} (f : A → result B) (m : result A) (b : B) :
  m ≫= f = Ok b → ∃ a, m = Ok a ∧ f a = Ok b.
Proof. destruct m; simpl; [eauto | done | done]. Qed.

Lemma map_result_ok {A B} (f : A → result B) (g : A → B) (l : list A) :
  (∀ x, f x = Ok (g x)) → map_result f l = Ok (g <$> l).
Proof.
  intros Hf. induction l as [|x l IH]; [done|].
  by rw /= Hf /= IH.
Qed.

Lemma for_each_ok {A St} (body : A → St → result St) (g : St → A → St) l s :
  (∀ x s, body x s = Ok (g s x)) → for_each body l s = Ok (foldl g s l).
Proof.
  intros Hb. revert s. induction l as [|x l IH]; intros s; [done|].
  rw /= Hb /=. apply IH.
Qed.

(** Loop rule with a position-indexed invariant. *)
Lemma for_each_inv {A St} (P : nat → St → Prop) (body : A → St → result St)
    l s :
  P 0%nat s →
  (∀ k x s, l !! k = Some x → P k s → ∃ s', body x s = Ok s' ∧ P (S k) s') →
  ∃ s', for_each body l s = Ok s' ∧ P (length l) s'.
Proof.
  revert P s. induction l as [|x l IH]; intros P s H0 Hstep.
  - exists s. done.
  - destruct (Hstep 0%nat x s eq_refl H0) as (s1 & Hb & H1).
    destruct (IH (λ k, P (S k)) s1 H1) as (s' & Hf & Hl).
    + intros k y s2 Hk Hp. apply (Hstep (S k) y s2 Hk Hp).
    + exists s'. by rw /= Hb.
Qed.

(** ** Sentence mutators never raise *)

Lemma Sentence_mark_mine_ok c s : Sentence.mark_mine c s = Ok (resolve true c s).
Proof.
  unfold Sentence.mark_mine, resolve, set_remove.
  case_bool_decide; done.
Qed.

Lemma Sentence_mark_safe_ok c s : Sentence.mark_safe c s = Ok (resolve false c s).
Proof.
  unfold Sentence.mark_safe, resolve, set_remove.
  case_bool_decide; done.
Qed.

Lemma mark_mine_ok c ai : mark_mine c ai = Ok (broadcast true c ai).
Proof.
  rw /mark_mine (map_result_ok _ (resolve true c)) //.
  apply Sentence_mark_mine_ok.
Qed.

Lemma mark_safe_ok c ai : mark_safe c ai = Ok (broadcast false c ai).
Proof.
  rw /mark_safe (map_result_ok _ (resolve false c)) //.
  apply Sentence_mark_safe_ok.
Qed.

Lemma mark_mines_ok l ai : for_each mark_mine l ai = Ok (broadcast_all true l ai).
Proof. apply for_each_ok. intros. apply mark_mine_ok. Qed.

Lemma mark_safes_ok l ai : for_each mark_safe l ai = Ok (broadcast_all false l ai).
Proof. apply for_each_ok. intros. apply mark_safe_ok. Qed.

(** ** Resolving cells in one sentence *)

Lemma resolve_cells m c s :
  Sentence.cells (resolve m c s) = Sentence.cells s ∖ {[c]}.
Proof. rw /resolve. case_bool_decide; [done|set_solver]. Qed.

Lemma resolve_notin m c s : c ∉ Sentence.cells s → resolve m c s = s.
Proof. intros H. by rw /resolve bool_decide_false. Qed.

Lemma mines_in_remove b c cs :
  c ∈ cs →
  mines_in b cs = ((if b c then 1 else 0) + mines_in b (cs ∖ {[c]}))%Z.
Proof.
  intros Hc. rw /mines_in {1}(union_difference_singleton_L c cs Hc).
  rw filter_union_L size_union; [set_solver|].
  rw filter_singleton_L. case_decide as Hb.
  - rw Hb size_singleton. lia.
  - destruct (b c); [done|]. rw size_empty. lia.
Qed.

Lemma resolve_true b m c s :
  b c = m → sentence_true b s → sentence_true b (resolve m c s).
Proof.
  intros Hb Hs. rw /resolve. case_bool_decide as Hc; [|done].
  unfold sentence_true in *. simpl.
  rw (mines_in_remove b c _ Hc) Hb in Hs.
  destruct m; lia.
Qed.

Lemma resolve_all_cells m l s :
  Sentence.cells (resolve_all m l s) = Sentence.cells s ∖ list_to_set l.
Proof.
  rw /resolve_all. revert s. induction l as [|c l IH]; intros s; simpl.
  - set_solver.
  - rw IH resolve_cells. set_solver.
Qed.

Lemma resolve_all_disjoint m l s :
  (∀ c, c ∈ l → c ∉ Sentence.cells s) → resolve_all m l s = s.
Proof.
  rw /resolve_all. induction l as [|c l IH]; intros H; simpl; [done|].
  rw resolve_notin; [apply H; left|]. apply IH.
  intros c' Hc'. apply H. by right.
Qed.

Lemma resolve_all_true b m l s :
  (∀ c, c ∈ l → b c = m) →
  sentence_true b s → sentence_true b (resolve_all m l s).
Proof.
  rw /resolve_all. revert s. induction l as [|c l IH]; intros s H Hs; simpl.
  - done.
  - apply IH; [intros c' Hc'; apply H; by right|].
    apply resolve_true; [apply H; left|done].
Qed.

(** ** Broadcasting cells to the whole engine *)

Lemma broadcast_all_knowledge m l ai :
  knowledge (broadcast_all m l ai) = resolve_all m l <$> knowledge ai.
Proof.
  rw /broadcast_all /resolve_all. revert ai.
  induction l as [|c l IH]; intros ai; simpl.
  - by rw list_fmap_id.
  - by rw IH /= -list_fmap_compose.
Qed.

Lemma broadcast_all_frame m l ai :
  height (broadcast_all m l ai) = height ai
  ∧ width (broadcast_all m l ai) = width ai
  ∧ moves_made (broadcast_all m l ai) = moves_made ai.
Proof.
  rw /broadcast_all. revert ai. induction l as [|c l IH]; intros ai; simpl.
  - done.
  - destruct (IH (broadcast m c ai)) as (-> & -> & ->). done.
Qed.

Lemma broadcast_all_mines m l ai :
  mines (broadcast_all m l ai)
  = if m then list_to_set l ∪ mines ai else mines ai.
Proof.
  rw /broadcast_all. revert ai. induction l as [|c l IH]; intros ai; simpl.
  - destruct m; set_solver.
  - rw IH. destruct m; simpl; set_solver.
Qed.

Lemma broadcast_all_safes m l ai :
  safes (broadcast_all m l ai)
  = if m then safes ai else list_to_set l ∪ safes ai.
Proof.
  rw /broadcast_all. revert ai. induction l as [|c l IH]; intros ai; simpl.
  - destruct m; set_solver.
  - rw IH. destruct m; simpl; set_solver.
Qed.

Lemma broadcast_all_confirmed m l ai :
  confirmed (broadcast_all m l ai) = list_to_set l ∪ confirmed ai.
Proof.
  rw /confirmed broadcast_all_mines broadcast_all_safes.
  destruct m; set_solver.
Qed.

(** ** Step (a) on one sentence *)

Lemma known_mines_cases s :
  (Sentence.known_mines s = ∅ ∧ truthy (Sentence.known_mines s) = false)
  ∨ (Sentence.known_mines s = Sentence.cells s
     ∧ truthy (Sentence.known_mines s) = true
     ∧ Sentence.cells s ≠ ∅
     ∧ Sentence.count s = Z.of_nat (size (Sentence.cells s))).
Proof.
  rw /Sentence.known_mines /truthy.
  case_bool_decide as E1; simpl.
  2: { left. by rw bool_decide_true. }
  case_bool_decide as E2; simpl.
  { left. by rw bool_decide_true. }
  right. assert (Sentence.cells s ≠ ∅) as Hne.
  { intros He. rw He size_empty in E1. done. }
  by rw bool_decide_false.
Qed.

Lemma known_safes_cases s :
  (Sentence.known_safes s = ∅ ∧ truthy (Sentence.known_safes s) = false)
  ∨ (Sentence.known_safes s = Sentence.cells s
     ∧ truthy (Sentence.known_safes s) = true
     ∧ Sentence.cells s ≠ ∅
     ∧ Sentence.count s = 0%Z).
Proof.
  rw /Sentence.known_safes /truthy.
  case_bool_decide as E1.
  2: { left. by rw bool_decide_true. }
  destruct (decide (Sentence.cells s = ∅)) as [He|Hne].
  - left. by rw He bool_decide_true.
  - right. by rw bool_decide_false.
Qed.

Lemma extract_ok i ai s :
  knowledge ai !! i = Some s → extract i ai = Ok (fire s ai).
Proof.
  intros Hi. rw /extract /fire Hi.
  destruct (known_mines_cases s) as [[_ ->]|(Hk & -> & Hne & _)].
  - rw /= Hi.
    destruct (known_safes_cases s) as [[_ ->]|(Hk & -> & _)]; [done|].
    by rw mark_safes_ok Hk.
  - rw mark_mines_ok Hk /= broadcast_all_knowledge list_lookup_fmap Hi /=.
    set (s' := resolve_all _ _ _).
    assert (Sentence.cells s' = ∅) as He.
    { rw /s' resolve_all_cells list_to_set_elements_L. set_solver. }
    destruct (known_safes_cases s') as [[_ ->]|(_ & _ & Hne' & _)]; done.
Qed.

Lemma fire_cases s ai :
  (fire s ai = ai
   ∧ Sentence.known_mines s = ∅ ∧ Sentence.known_safes s = ∅)
  ∨ (∃ m, fire s ai = broadcast_all m (elements (Sentence.cells s)) ai
          ∧ Sentence.cells s ≠ ∅
          ∧ Sentence.count s
            = if m then Z.of_nat (size (Sentence.cells s)) else 0%Z).
Proof.
  rw /fire.
  destruct (known_mines_cases s) as [[Hm ->]|(_ & -> & Hne & Hc)].
  - destruct (known_safes_cases s) as [[Hs ->]|(_ & -> & Hne & Hc)].
    + by left.
    + right. by exists false.
  - right. by exists true.
Qed.

Lemma fire_idle s ai :
  Sentence.known_mines s = ∅ → Sentence.known_safes s = ∅ → fire s ai = ai.
Proof. intros Hm Hs. by rw /fire Hm Hs /truthy bool_decide_true. Qed.

(** ** Counting mines *)

Lemma mines_in_bounds b cs : (0 ≤ mines_in b cs ≤ Z.of_nat (size cs))%Z.
Proof.
  rw /mines_in. split; [lia|].
  apply inj_le, subseteq_size. set_solver.
Qed.

Lemma all_mines b cs c :
  mines_in b cs = Z.of_nat (size cs) → c ∈ cs → b c = true.
Proof.
  rw /mines_in. intros Hsz Hc.
  assert (filter (λ c, b c = true) cs ≡ cs) as He.
  { apply set_subseteq_size_equiv; [set_solver|lia]. }
  apply He in Hc. by apply elem_of_filter in Hc as [? _].
Qed.

Lemma no_mines b cs c : mines_in b cs = 0%Z → c ∈ cs → b c = false.
Proof.
  rw /mines_in. intros Hsz Hc.
  assert (filter (λ c, b c = true) cs ≡ ∅) as He.
  { apply size_empty_inv. lia. }
  destruct (b c) eqn:Hb; [|done].
  assert (c ∈ filter (λ c, b c = true) cs) as Hin by by apply elem_of_filter.
  set_solver.
Qed.

Lemma mines_in_difference (b : Cell → bool) (X Y : gset Cell) :
  X ⊆ Y → mines_in b (Y ∖ X) = (mines_in b Y - mines_in b X)%Z.
Proof.
  intros Hsub. rw /mines_in {2}(union_difference_L X Y Hsub).
  rw filter_union_L size_union; [set_solver|]. lia.
Qed.

(** The cells a firing sentence broadcasts have the status it claims. *)
Lemma firing_status b s m c :
  sentence_true b s →
  Sentence.count s = (if m then Z.of_nat (size (Sentence.cells s)) else 0%Z) →
  c ∈ Sentence.cells s → b c = m.
Proof.
  rw /sentence_true. intros Ht Hc Hin. destruct m.
  - apply (all_mines b (Sentence.cells s)); [congruence|done].
  - apply (no_mines b (Sentence.cells s)); [congruence|done].
Qed.

(** ** Broadcasts keep the knowledge true *)

Lemma broadcast_all_kb_true b m l ai :
  (∀ c, c ∈ l → b c = m) → kb_true b ai → kb_true b (broadcast_all m l ai).
Proof.
  rw /kb_true broadcast_all_knowledge. intros Hl Hkb.
  apply Forall_fmap. eapply Forall_impl; [done|].
  intros s Hs. by apply resolve_all_true.
Qed.

Lemma broadcast_all_sound b m l ai :
  (∀ c, c ∈ l → b c = m) → sound b ai → sound b (broadcast_all m l ai).
Proof.
  intros Hl (Hkb & Hm & Hs). split; [by apply broadcast_all_kb_true|].
  rw broadcast_all_mines broadcast_all_safes.
  split; intros c; destruct m; set_solver.
Qed.

Lemma fire_kb_true b s ai :
  s ∈ knowledge ai → kb_true b ai → kb_true b (fire s ai).
Proof.
  intros Hin Hkb.
  destruct (fire_cases s ai) as [(-> & _)|(m & -> & Hne & Hc)]; [done|].
  apply broadcast_all_kb_true; [|done].
  intros c Hc'%elem_of_elements. eapply firing_status; [|done..].
  by eapply Forall_forall in Hkb.
Qed.

Lemma fire_sound b s ai :
  s ∈ knowledge ai → sound b ai → sound b (fire s ai).
Proof.
  intros Hin Hsd.
  destruct (fire_cases s ai) as [(-> & _)|(m & -> & Hne & Hc)]; [done|].
  apply broadcast_all_sound; [|done].
  intros c Hc'%elem_of_elements. eapply firing_status; [|done..].
  destruct Hsd as [Hkb _]. by eapply Forall_forall in Hkb.
Qed.

Lemma fire_frame s ai :
  height (fire s ai) = height ai ∧ width (fire s ai) = width ai
  ∧ moves_made (fire s ai) = moves_made ai
  ∧ length (knowledge (fire s ai)) = length (knowledge ai)
  ∧ mines ai ⊆ mines (fire s ai) ∧ safes ai ⊆ safes (fire s ai).
Proof.
  destruct (fire_cases s ai) as [(-> & _)|(m & -> & _)]; [done|].
  destruct (broadcast_all_frame m (elements (Sentence.cells s)) ai)
    as (-> & -> & ->).
  rw broadcast_all_knowledge length_fmap broadcast_all_mines
     broadcast_all_safes.
  repeat split; destruct m; set_solver.
Qed.

(** ** Step (a) over the whole list *)

Lemma sweep_inv (P : nat → t → Prop) ai :
  P 0%nat ai →
  (∀ k a s, knowledge a !! k = Some s →
            length (knowledge a) = length (knowledge ai) →
            P k a → P (S k) (fire s a)) →
  ∃ ai', sweep ai = Ok ai' ∧ P (length (knowledge ai)) ai'
         ∧ length (knowledge ai') = length (knowledge ai).
Proof.
  intros H0 Hstep. rw /sweep.
  destruct (for_each_inv
    (λ k a, P k a ∧ length (knowledge a) = length (knowledge ai))
    extract (seq 0 (length (knowledge ai))) ai) as (ai' & Hr & Hp & Hl).
  - done.
  - intros k x a Hk [Hp Hl].
    apply lookup_seq in Hk as [-> Hlt]. simpl in *.
    destruct (lookup_lt_is_Some_2 (knowledge a) k) as [s Hs]; [lia|].
    exists (fire s a). split; [by apply extract_ok|].
    split; [by apply Hstep|].
    destruct (fire_frame s a) as (_ & _ & _ & -> & _). done.
  - rw length_seq in Hp. eauto.
Qed.

Lemma sweep_ok ai : ∃ ai', sweep ai = Ok ai'.
Proof.
  destruct (sweep_inv (λ _ _, True) ai) as (ai' & H & _); [done..|].
  by exists ai'.
Qed.

Lemma sweep_frame ai ai' :
  sweep ai = Ok ai' →
  height ai' = height ai ∧ width ai' = width ai
  ∧ moves_made ai' = moves_made ai
  ∧ length (knowledge ai') = length (knowledge ai)
  ∧ mines ai ⊆ mines ai' ∧ safes ai ⊆ safes ai'.
Proof.
  intros Hs.
  destruct (sweep_inv (λ _ a,
    height a = height ai ∧ width a = width ai
    ∧ moves_made a = moves_made ai
    ∧ mines ai ⊆ mines a ∧ safes ai ⊆ safes a) ai)
    as (ai2 & H & (? & ? & ? & ? & ?) & ?); [done| |].
  - intros k a s _ _ (Hh & Hw & Hm & Hmi & Hsa).
    destruct (fire_frame s a) as (-> & -> & -> & _ & ? & ?).
    repeat split; [done..|set_solver|set_solver].
  - rw Hs in H. by injection H as <-.
Qed.

Lemma sweep_kb_true b ai ai' :
  sweep ai = Ok ai' → kb_true b ai → kb_true b ai'.
Proof.
  intros Hs Hkb.
  destruct (sweep_inv (λ _ a, kb_true b a) ai) as (ai2 & H & Hp & _); [done| |].
  - intros k a s Hk _ Ha. apply fire_kb_true; [|done].
    by eapply list_elem_of_lookup_2.
  - rw Hs in H. by injection H as <-.
Qed.

Lemma sweep_sound b ai ai' :
  sweep ai = Ok ai' → sound b ai → sound b ai'.
Proof.
  intros Hs Hsd.
  destruct (sweep_inv (λ _ a, sound b a) ai) as (ai2 & H & Hp & _); [done| |].
  - intros k a s Hk _ Ha. apply fire_sound; [|done].
    by eapply list_elem_of_lookup_2.
  - rw Hs in H. by injection H as <-.
Qed.

Lemma sweep_quiescent ai : quiescent ai → sweep ai = Ok ai.
Proof.
  intros Hq.
  destruct (sweep_inv (λ _ a, a = ai) ai) as (ai2 & H & -> & _); [done| |done].
  intros k a s Hk _ ->.
  eapply Forall_lookup_1 in Hq as [Hm Hs]; [|done]. by apply fire_idle.
Qed.

(** ** Step (b): the subset rule *)

Lemma contains_true s l :
  contains s l = true ↔ ∃ x, x ∈ l ∧ Sentence.eqb s x = true.
Proof.
  rw /contains existsb_exists. by setoid_rewrite list_elem_of_In.
Qed.

Lemma contains_app s l1 l2 :
  contains s (l1 ++ l2) = contains s l1 || contains s l2.
Proof. apply existsb_app. Qed.

Lemma pairs_elem (kb : list Sentence.t) (p : Sentence.t * Sentence.t) :
  p ∈ (s1 ← kb; s2 ← kb; [(s1, s2)]) ↔ p.1 ∈ kb ∧ p.2 ∈ kb.
Proof.
  destruct p as [a b]. rw list_elem_of_bind. setoid_rewrite list_elem_of_bind.
  setoid_rewrite list_elem_of_singleton. naive_solver.
Qed.

Lemma infer_fold kb pairs acc :
  ∃ ext, foldl (infer kb) acc pairs = acc ++ ext
    ∧ (∀ n, n ∈ ext → ∃ p, p ∈ pairs
         ∧ Sentence.eqb p.1 p.2 = false
         ∧ Sentence.cells p.1 ⊆ Sentence.cells p.2
         ∧ n = difference p.1 p.2 ∧ contains n kb = false)
    ∧ (∀ p, p ∈ pairs →
         Sentence.eqb p.1 p.2 = false →
         Sentence.cells p.1 ⊆ Sentence.cells p.2 →
         contains (difference p.1 p.2) kb = true
         ∨ contains (difference p.1 p.2) (acc ++ ext) = true).
Proof.
  revert acc. induction pairs as [|p pairs IH]; intros acc.
  - exists []. rw app_nil_r. split; [done|]. split; intros ? H; inversion H.
  - assert (∃ e0, infer kb acc p = acc ++ e0
      ∧ (∀ n, n ∈ e0 → Sentence.eqb p.1 p.2 = false
           ∧ Sentence.cells p.1 ⊆ Sentence.cells p.2
           ∧ n = difference p.1 p.2 ∧ contains n kb = false)
      ∧ (Sentence.eqb p.1 p.2 = false →
         Sentence.cells p.1 ⊆ Sentence.cells p.2 →
         contains (difference p.1 p.2) kb = true
         ∨ contains (difference p.1 p.2) (acc ++ e0) = true))
      as (e0 & He0 & Hnew & Hdone).
    { rw /infer -/(difference p.1 p.2).
      destruct (Sentence.eqb p.1 p.2) eqn:E1; simpl.
      { exists []. rw app_nil_r. split; [done|]. split; [|done].
        intros ? H; inversion H. }
      case_bool_decide as E2; simpl.
      2: { exists []. rw app_nil_r. split; [done|]. split; [|done].
           intros ? H; inversion H. }
      destruct (contains (difference p.1 p.2) kb) eqn:E3; simpl.
      { exists []. rw app_nil_r. split; [done|]. split; [|by left].
        intros ? H; inversion H. }
      destruct (contains (difference p.1 p.2) acc) eqn:E4; simpl.
      { exists []. rw app_nil_r. split; [done|]. split; [|by right].
        intros ? H; inversion H. }
      exists [difference p.1 p.2]. split; [done|]. split.
      - intros n ->%list_elem_of_singleton. done.
      - intros _ _. right. rw contains_app /= /Sentence.eqb.
        rw !bool_decide_true //. by rw orb_true_r. }
    destruct (IH (acc ++ e0)) as (ext & Hext & Hnew' & Hdone').
    exists (e0 ++ ext). rw /= He0 Hext app_assoc. split; [done|]. split.
    + intros n [Hn|Hn]%elem_of_app.
      * exists p. split; [left|]. by apply Hnew.
      * destruct (Hnew' n Hn) as (q & Hq & ?). exists q. split; [by right|done].
    + intros q Hq Hne Hsub. apply elem_of_cons in Hq as [->|Hq].
      * destruct (Hdone Hne Hsub) as [?|Hc]; [by left|right].
        by rw contains_app Hc.
      * by apply Hdone'.
Qed.

Lemma subset_resolution_new kb n :
  n ∈ subset_resolution kb →
  ∃ a b, a ∈ kb ∧ b ∈ kb ∧ Sentence.eqb a b = false
         ∧ Sentence.cells a ⊆ Sentence.cells b
         ∧ n = difference a b ∧ contains n kb = false.
Proof.
  rw /subset_resolution.
  destruct (infer_fold kb (s1 ← kb; s2 ← kb; [(s1, s2)]) [])
    as (ext & -> & Hnew & _).
  intros Hn. destruct (Hnew n Hn) as (p & [Ha Hb]%pairs_elem & ?).
  by exists p.1, p.2.
Qed.

Lemma subset_resolution_complete kb a b :
  a ∈ kb → b ∈ kb → Sentence.eqb a b = false →
  Sentence.cells a ⊆ Sentence.cells b →
  contains (difference a b) (kb ++ subset_resolution kb) = true.
Proof.
  rw /subset_resolution.
  destruct (infer_fold kb (s1 ← kb; s2 ← kb; [(s1, s2)]) [])
    as (ext & -> & _ & Hdone).
  intros Ha Hb Hne Hsub. rw contains_app.
  destruct (Hdone (a, b)) as [Hc|Hc]; [by apply pairs_elem|done..| |];
    simpl in Hc; rw Hc //. by rw orb_true_r.
Qed.

Lemma difference_true b s1 s2 :
  sentence_true b s1 → sentence_true b s2 →
  Sentence.cells s1 ⊆ Sentence.cells s2 →
  sentence_true b (difference s1 s2).
Proof.
  rw /sentence_true /difference /=. intros -> -> Hsub.
  by rw mines_in_difference.
Qed.

Lemma subset_resolution_true b kb :
  Forall (sentence_true b) kb →
  Forall (sentence_true b) (subset_resolution kb).
Proof.
  rw !Forall_forall. intros Hkb n Hn.
  destruct (subset_resolution_new kb n Hn)
    as (s1 & s2 & H1 & H2 & _ & ? & -> & _).
  apply difference_true; auto.
Qed.

(** ** Termination of the closure loop on true knowledge *)

Lemma live_elem ai c :
  c ∈ live ai ↔ ∃ s, s ∈ knowledge ai ∧ c ∈ Sentence.cells s.
Proof.
  rw /live elem_of_union_list. setoid_rewrite list_elem_of_fmap.
  naive_solver.
Qed.

Lemma shapes_elem ai Y :
  Y ∈ shapes ai ↔ ∃ s, s ∈ knowledge ai ∧ Y = Sentence.cells s.
Proof.
  rw /shapes elem_of_list_to_set list_elem_of_fmap. naive_solver.
Qed.

Lemma size_list_to_set_le (l : list (gset Cell)) :
  size (list_to_set l : gset (gset Cell)) ≤ length l.
Proof.
  induction l as [|Y l IH].
  - by rw list_to_set_nil size_empty.
  - rw list_to_set_cons size_union_alt size_singleton /=.
    assert (size (list_to_set l ∖ {[Y]} : gset (gset Cell))
            ≤ size (list_to_set l : gset (gset Cell)))
      by (apply subseteq_size; set_solver).
    lia.
Qed.

Lemma size_set_map_le (f : gset Cell → gset Cell) (D : gset (gset Cell)) :
  size (set_map f D : gset (gset Cell)) ≤ size D.
Proof.
  rw /set_map. etransitivity; [apply size_list_to_set_le|].
  by rw length_fmap.
Qed.

(** A family of subsets of [V] has at most [2 ^ |V|] members. *)
Lemma subsets_bound (V : gset Cell) :
  ∀ D : gset (gset Cell), (∀ Y, Y ∈ D → Y ⊆ V) → size D ≤ 2 ^ size V.
Proof.
  induction V as [|x V Hx IH] using set_ind_L; intros D HD.
  - rw size_empty /=. transitivity (size ({[ ∅ ]} : gset (gset Cell))).
    + apply subseteq_size. intros Y HY. apply elem_of_singleton.
      apply HD in HY. set_solver.
    + by rw size_singleton.
  - rw size_union; [set_solver|]. rw size_singleton /=.
    set (D' := set_map (λ Y : gset Cell, Y ∖ {[x]}) D : gset (gset Cell)).
    set (D'' := set_map (λ Y : gset Cell, {[x]} ∪ Y) D' : gset (gset Cell)).
    assert (size D' ≤ 2 ^ size V) as H1.
    { apply IH. intros Z (Y & -> & HY)%elem_of_map. apply HD in HY. set_solver. }
    assert (size D'' ≤ size D') as H2 by apply size_set_map_le.
    assert (D ⊆ D' ∪ D'') as H3.
    { intros Y HY. apply elem_of_union.
      destruct (decide (x ∈ Y)) as [Hin|Hout].
      - right. apply elem_of_map. exists (Y ∖ {[x]}). split.
        + by apply union_difference_singleton_L.
        + apply elem_of_map. by exists Y.
      - left. apply elem_of_map. exists Y. split; [set_solver|done]. }
    apply subseteq_size in H3.
    pose proof (size_union_alt D' D'') as H4.
    assert (size (D'' ∖ D') ≤ size D'') by (apply subseteq_size; set_solver).
    lia.
Qed.

Lemma shapes_bound ai : size (shapes ai) ≤ 2 ^ size (live ai).
Proof.
  apply subsets_bound. intros Y (s & Hs & ->)%shapes_elem c Hc.
  apply live_elem. by exists s.
Qed.

Lemma live_broadcast_all m l ai :
  live (broadcast_all m l ai) = live ai ∖ list_to_set l.
Proof.
  apply set_eq. intros c. rw elem_of_difference !live_elem.
  rw broadcast_all_knowledge. setoid_rewrite list_elem_of_fmap. split.
  - intros (s' & (s & -> & Hs) & Hc). rw resolve_all_cells in Hc.
    split; [exists s|]; set_solver.
  - intros [(s & Hs & Hc) Hn]. exists (resolve_all m l s).
    split; [by exists s|]. rw resolve_all_cells. set_solver.
Qed.

(** Step (a) either changes nothing or removes a live cell. *)
Lemma sweep_progress ai ai' :
  sweep ai = Ok ai' → ai' = ai ∨ live ai' ⊂ live ai.
Proof.
  intros Hs.
  destruct (sweep_inv (λ _ a, a = ai ∨ live a ⊂ live ai) ai)
    as (ai2 & H & Hp & _); [by left| |].
  - intros k a s Hk _ Ha.
    destruct (fire_cases s a) as [(-> & _)|(m & -> & Hne & _)]; [done|].
    right. rw live_broadcast_all list_to_set_elements_L.
    assert (Sentence.cells s ⊆ live a) as Hsub.
    { intros c Hc. apply live_elem. exists s.
      split; [by eapply list_elem_of_lookup_2|done]. }
    assert (live a ⊆ live ai) as Hle by (destruct Ha as [->|[? _]]; done).
    apply set_choose_L in Hne as [c Hc].
    split; [set_solver|]. intros Hcontra.
    assert (c ∈ live a ∖ Sentence.cells s) as Hc'; [|set_solver].
    apply Hcontra, Hle, Hsub, Hc.
  - rw Hs in H. by injection H as <-.
Qed.

Lemma pass_unfold ai :
  ∃ ai1, sweep ai = Ok ai1
    ∧ pass ai
      = Ok (with_knowledge (knowledge ai1 ++ subset_resolution (knowledge ai1)) ai1,
            match subset_resolution (knowledge ai1) with
            | [] => false | _ => true end).
Proof.
  destruct (sweep_ok ai) as [ai1 Hs]. exists ai1. by rw /pass Hs.
Qed.

Lemma pass_ok ai : ∃ r, pass ai = Ok r.
Proof. destruct (pass_unfold ai) as (ai1 & _ & ->). eauto. Qed.

Lemma pass_kb_true b ai ai' made :
  pass ai = Ok (ai', made) → kb_true b ai → kb_true b ai'.
Proof.
  destruct (pass_unfold ai) as (ai1 & Hs & ->). intros [= <- _] Hkb.
  rw /kb_true /=. apply Forall_app.
  pose proof (sweep_kb_true b _ _ Hs Hkb) as H1.
  split; [done|by apply subset_resolution_true].
Qed.

(** When the knowledge is true, equal cell sets carry equal counts, so a
    sentence that is new by [__eq__] has a new cell set. *)
Lemma new_shape b kb n :
  Forall (sentence_true b) kb → sentence_true b n →
  contains n kb = false → ∀ s, s ∈ kb → Sentence.cells n ≠ Sentence.cells s.
Proof.
  intros Hkb Hn Hc s Hs Heq.
  assert (contains n kb = true) as Ht; [|congruence].
  apply contains_true. exists s. split; [done|].
  rw Forall_forall in Hkb. specialize (Hkb s Hs).
  rw /sentence_true in Hkb Hn. rw /Sentence.eqb.
  rw !bool_decide_true //. congruence.
Qed.

Lemma pass_decreases b ai ai' :
  kb_true b ai → pass ai = Ok (ai', true) → measure ai' < measure ai.
Proof.
  destruct (pass_unfold ai) as (ai1 & Hs & ->). intros Hkb [= <- Hmade].
  set (news := subset_resolution (knowledge ai1)) in *.
  set (ai2 := with_knowledge _ _).
  pose proof (sweep_kb_true b _ _ Hs Hkb) as Hkb1.
  destruct news as [|n news'] eqn:Hnews; [done|].
  assert (n ∈ subset_resolution (knowledge ai1)) as Hn by (fold news; rw Hnews; left).
  destruct (subset_resolution_new _ _ Hn)
    as (s1 & s2 & H1 & H2 & _ & Hsub & Hd & Hc).
  assert (sentence_true b n) as Htn.
  { pose proof (subset_resolution_true b _ Hkb1) as Hall.
    rw Forall_forall in Hall. by apply Hall. }
  assert (live ai2 = live ai1) as Hlive.
  { apply set_eq. intros c. rw !live_elem /ai2 /=. split.
    - intros (s & [Hin|Hin]%elem_of_app & Hcs); [by exists s|].
      fold news in Hnews. rw -Hnews in Hin.
      destruct (subset_resolution_new _ _ Hin) as (a & b' & _ & Hb & _ & _ & -> & _).
      exists b'. split; [done|]. rw /difference /= in Hcs. set_solver.
    - intros (s & Hin & Hcs). exists s. split; [|done].
      apply elem_of_app. by left. }
  assert (size (shapes ai1) < size (shapes ai2)) as Hgrow.
  { apply subset_size. split.
    - intros Y (s & Hin & ->)%shapes_elem. apply shapes_elem.
      exists s. split; [|done]. apply elem_of_app. by left.
    - intros Hcontra.
      assert (Sentence.cells n ∈ shapes ai1) as (s & Hin & Heq)%shapes_elem.
      { apply Hcontra, shapes_elem. exists n. split; [|done].
        rw /ai2 /=. apply elem_of_app. right. left. }
      by eapply (new_shape b (knowledge ai1) n). }
  pose proof (shapes_bound ai2) as Hb2. pose proof (shapes_bound ai) as Hb.
  rw /measure Hlive. rw Hlive in Hb2.
  destruct (sweep_progress _ _ Hs) as [->|Hlt].
  - lia.
  - apply subset_size in Hlt.
    assert (2 * 2 ^ size (live ai1) ≤ 2 ^ size (live ai)).
    { replace (size (live ai)) with (S (size (live ai) - 1)) by lia.
      rw Nat.pow_succ_r'. apply Nat.mul_le_mono_l, Nat.pow_le_mono_r; lia. }
    lia.
Qed.

Lemma closure_terminates b ai :
  kb_true b ai → ∃ fuel ai', closure fuel ai = Ok ai'.
Proof.
  remember (measure ai) as n eqn:Hn. revert ai Hn.
  induction (lt_wf n) as [n _ IH]. intros ai -> Hkb.
  destruct (pass_ok ai) as [[ai1 made] Hp]. destruct made.
  - destruct (IH (measure ai1)) with (ai := ai1) as (fuel & ai' & Hc);
      [by eapply pass_decreases|done|by eapply pass_kb_true|].
    exists (S fuel), ai'. by rw /= Hp.
  - exists 1, ai1. by rw /= Hp.
Qed.

(** ** The neighbour scan of [add_knowledge] *)

Lemma window_NoDup cell : NoDup (window cell).
Proof.
  rw /window /range. apply NoDup_bind; [| |apply NoDup_seqZ].
  - intros i1 i2 [i j] _ _ (j1 & ?%list_elem_of_singleton & _)%list_elem_of_bind
      (j2 & ?%list_elem_of_singleton & _)%list_elem_of_bind. congruence.
  - intros i _. apply NoDup_bind; [| |apply NoDup_seqZ].
    + intros j1 j2 y _ _ ?%list_elem_of_singleton ?%list_elem_of_singleton.
      congruence.
    + intros j _. apply NoDup_singleton.
Qed.

Lemma mines_in_insert (b : Cell → bool) (c : Cell) (cs : gset Cell) :
  c ∉ cs →
  mines_in b ({[c]} ∪ cs) = ((if b c then 1 else 0) + mines_in b cs)%Z.
Proof.
  intros Hc. rw (mines_in_remove b c); [set_solver|].
  by replace (({[c]} ∪ cs) ∖ {[c]}) with cs by set_solver.
Qed.

(** One step of the scan against one step of the board's own count: the
    adjusted count minus the mines among the collected neighbours, plus the
    board's running count, does not change. *)
Lemma scan_step (g : Minesweeper.t) (ai : t) (cell ij : Cell) (acc : gset Cell * Z)
    (k : Z) :
  Minesweeper.height g = height ai → Minesweeper.width g = width ai →
  (∀ c, c ∈ mines ai → Minesweeper.board g c = true) →
  (∀ c, c ∈ safes ai → Minesweeper.board g c = false) →
  ij ∉ acc.1 → acc.1 ## confirmed ai →
  (scan ai cell acc ij).1 ## confirmed ai
  ∧ (scan ai cell acc ij).1 ⊆ {[ij]} ∪ acc.1
  ∧ ((scan ai cell acc ij).2
     - mines_in (Minesweeper.board g) (scan ai cell acc ij).1
     + Minesweeper.tally g cell k ij
     = acc.2 - mines_in (Minesweeper.board g) acc.1 + k)%Z.
Proof.
  intros Hh Hw Hm Hs Hnew Hdisj. rw /scan /Minesweeper.tally Hh Hw.
  case_bool_decide as E1; [split; [done|split; [set_solver|done]]|].
  destruct (in_range ij.1 (height ai) && in_range ij.2 (width ai)); simpl;
    [|split; [done|split; [set_solver|done]]].
  destruct (decide (ij ∈ safes ai)) as [Hsafe|Hnsafe];
    destruct (decide (ij ∈ mines ai)) as [Hmine|Hnmine].
  - rw (bool_decide_false (ij ∉ safes ai)) /=; [tauto|].
    rw (bool_decide_true (ij ∈ mines ai)) // (Hm ij Hmine) /=.
    split; [done|]. split; [set_solver|lia].
  - rw (bool_decide_false (ij ∉ safes ai)) /=; [tauto|].
    rw (bool_decide_false (ij ∈ mines ai)) // (Hs ij Hsafe).
    split; [done|]. split; [set_solver|done].
  - rw (bool_decide_true (ij ∉ safes ai)) //.
    rw (bool_decide_false (ij ∉ mines ai)) /=; [tauto|].
    rw (bool_decide_true (ij ∈ mines ai)) // (Hm ij Hmine) /=.
    split; [done|]. split; [set_solver|lia].
  - rw (bool_decide_true (ij ∉ safes ai)) //.
    rw (bool_decide_true (ij ∉ mines ai)) //=.
    split; [rw /confirmed; rw /confirmed in Hdisj; set_solver|].
    split; [done|]. rw mines_in_insert //.
    destruct (Minesweeper.board g ij); lia.
Qed.

Lemma scan_invariant (g : Minesweeper.t) (ai : t) (cell : Cell) (l : list Cell) :
  Minesweeper.height g = height ai → Minesweeper.width g = width ai →
  (∀ c, c ∈ mines ai → Minesweeper.board g c = true) →
  (∀ c, c ∈ safes ai → Minesweeper.board g c = false) →
  NoDup l →
  ∀ (acc : gset Cell * Z) (k : Z),
  (∀ x, x ∈ l → x ∉ acc.1) →
  acc.1 ## confirmed ai →
  (foldl (scan ai cell) acc l).1 ## confirmed ai
  ∧ ((foldl (scan ai cell) acc l).2
     - mines_in (Minesweeper.board g) (foldl (scan ai cell) acc l).1
     + foldl (Minesweeper.tally g cell) k l
     = acc.2 - mines_in (Minesweeper.board g) acc.1 + k)%Z.
Proof.
  intros Hh Hw Hm Hs.
  induction 1 as [|ij l Hij Hnd IH]; intros acc k Hfresh Hdisj; [done|].
  destruct (scan_step g ai cell ij acc k) as (H1 & H2 & H3);
    [done..|apply Hfresh; left|done|].
  destruct (IH (scan ai cell acc ij) (Minesweeper.tally g cell k ij))
    as [H4 H5]; [|done|].
  - intros x Hx Hin. apply H2 in Hin.
    apply elem_of_union in Hin as [->%elem_of_singleton|Hin]; [done|].
    apply (Hfresh x); [by right|done].
  - split; [done|]. simpl. lia.
Qed.

(** The neighbours collected by the scan are not confirmed, whatever the
    observation. *)
Lemma scan_unconfirmed (ai : t) (cell : Cell) (l : list Cell) (acc : gset Cell * Z) :
  acc.1 ## confirmed ai → (foldl (scan ai cell) acc l).1 ## confirmed ai.
Proof.
  revert acc. induction l as [|ij l IH]; intros acc Hd; [done|].
  simpl. apply IH. rw /scan.
  repeat (case_bool_decide || case_match); simpl; try done.
  rw /confirmed. rw /confirmed in Hd. set_solver.
Qed.

(** ** [add_knowledge] before the loop *)

Lemma observe_unfold (cell : Cell) (count : Z) (ai : t) :
  let ai1 := broadcast false cell
               (mk (height ai) (width ai) ({[cell]} ∪ moves_made ai)
                   (mines ai) (safes ai) (knowledge ai)) in
  let scanned := foldl (scan ai1 cell) ((∅ : gset Cell), count) (window cell) in
  let ai2 := if bool_decide (scanned.2 = 0%Z)
             then broadcast_all false (elements scanned.1) ai1 else ai1 in
  let ai3 := if bool_decide (scanned.2 = Z.of_nat (size scanned.1))
                && bool_decide (0 < scanned.2)%Z
             then broadcast_all true (elements scanned.1) ai2 else ai2 in
  observe cell count ai
  = Ok (with_knowledge
          (knowledge ai3 ++ [Sentence.init scanned.1 scanned.2]) ai3).
Proof.
  rw /observe mark_safe_ok /=.
  destruct (bool_decide (_ = 0%Z)); rw ?mark_safes_ok /=;
    destruct (bool_decide (_ = Z.of_nat _) && _); rw ?mark_mines_ok //.
Qed.

Lemma observe_ok cell count ai : ∃ ai', observe cell count ai = Ok ai'.
Proof. eexists. apply observe_unfold. Qed.

Lemma observe_models g ai cell count :
  models g ai → truthful g (cell, count) →
  ∃ ai', observe cell count ai = Ok ai' ∧ models g ai'.
Proof.
  intros (Hh & Hw & Hsd) [Hsafe Hcount]. simpl in Hsafe, Hcount.
  eexists. split; [apply observe_unfold|].
  set (b := Minesweeper.board g) in *.
  set (ai0 := mk _ _ ({[cell]} ∪ moves_made ai) _ _ _).
  set (ai1 := broadcast false cell ai0).
  set (scanned := foldl _ _ _).
  assert (sound b ai1) as Hsd1.
  { apply (broadcast_all_sound b false [cell] ai0); [|done].
    by intros c ->%list_elem_of_singleton. }
  assert (height ai1 = height ai ∧ width ai1 = width ai) as [Hh1 Hw1] by done.
  destruct (scan_invariant g ai1 cell (window cell)) with (acc := ((∅ : gset Cell), count)) (k := 0%Z)
    as [Hdisj Hinv]; [congruence|congruence|apply Hsd1|apply Hsd1|
                      apply window_NoDup|set_solver|set_solver|].
  fold scanned in Hdisj, Hinv. fold b in Hinv.
  rw -/(Minesweeper.nearby_mines g cell) -Hcount /= in Hinv.
  assert (mines_in b ∅ = 0%Z) as Hz by (by rw /mines_in filter_empty_L size_empty).
  assert (scanned.2 = mines_in b scanned.1) as Htrue by lia.
  set (ai2 := if bool_decide (scanned.2 = 0%Z) then _ else _).
  assert (sound b ai2 ∧ height ai2 = height ai ∧ width ai2 = width ai)
    as (Hsd2 & Hh2 & Hw2).
  { rw /ai2. case_bool_decide as E; [|done].
    destruct (broadcast_all_frame false (elements scanned.1) ai1) as (-> & -> & _).
    split; [|done]. apply broadcast_all_sound; [|done].
    intros c Hc%elem_of_elements. apply (no_mines b scanned.1); [lia|done]. }
  set (ai3 := if _ && _ then _ else _).
  assert (sound b ai3 ∧ height ai3 = height ai ∧ width ai3 = width ai)
    as (Hsd3 & Hh3 & Hw3).
  { rw /ai3. destruct (bool_decide _ && _) eqn:E; [|done].
    apply andb_true_iff in E as [E%bool_decide_eq_true _].
    destruct (broadcast_all_frame true (elements scanned.1) ai2) as (-> & -> & _).
    split; [|done]. apply broadcast_all_sound; [|done].
    intros c Hc%elem_of_elements. apply (all_mines b scanned.1); [lia|done]. }
  split; [simpl; congruence|]. split; [simpl; congruence|].
  destruct Hsd3 as (Hkb & Hm & Hs). split; [|done].
  rw /kb_true /=. apply Forall_app. split; [done|].
  by apply Forall_singleton.
Qed.

(** ** The loop keeps the state true *)

Lemma pass_sound b ai ai' made :
  pass ai = Ok (ai', made) → sound b ai → sound b ai'.
Proof.
  destruct (pass_unfold ai) as (ai1 & Hs & ->). intros [= <- _] Hsd.
  pose proof (sweep_sound b _ _ Hs Hsd) as (Hkb & Hm & Hsf).
  split; [|done]. rw /kb_true /=. apply Forall_app.
  split; [done|by apply subset_resolution_true].
Qed.

Lemma pass_frame ai ai' made :
  pass ai = Ok (ai', made) →
  height ai' = height ai ∧ width ai' = width ai
  ∧ moves_made ai' = moves_made ai
  ∧ mines ai ⊆ mines ai' ∧ safes ai ⊆ safes ai'.
Proof.
  destruct (pass_unfold ai) as (ai1 & Hs & ->). intros [= <- _].
  destruct (sweep_frame _ _ Hs) as (? & ? & ? & _ & ? & ?). done.
Qed.

(** Loop rule: [P] holds when a pass starts, [Q] when it ends. *)
Lemma closure_post (P Q : t → Prop) fuel ai ai' :
  (∀ a a' made, pass a = Ok (a', made) → P a → Q a') →
  (∀ a, Q a → P a) →
  closure fuel ai = Ok ai' → P ai → Q ai'.
Proof.
  intros Hpass HQP. revert ai. induction fuel as [|fuel IH]; intros ai; [done|].
  simpl. destruct (pass ai) as [[ai1 made]| |] eqn:Hp; [|done..].
  intros Hc Hai. pose proof (Hpass _ _ _ Hp Hai) as H1.
  destruct made; [by eapply IH, HQP|]. by injection Hc as <-.
Qed.

Lemma closure_inv (P : t → Prop) fuel ai ai' :
  (∀ a a' made, pass a = Ok (a', made) → P a → P a') →
  closure fuel ai = Ok ai' → P ai → P ai'.
Proof. intros Hpass. by apply closure_post. Qed.

(** The loop ends with a pass that added no sentence. *)
Lemma closure_last fuel ai ai' :
  closure fuel ai = Ok ai' → ∃ a, pass a = Ok (ai', false).
Proof.
  revert ai. induction fuel as [|fuel IH]; intros ai; [done|].
  simpl. destruct (pass ai) as [[ai1 made]| |] eqn:Hp; [|done..].
  destruct made; [apply IH|]. intros [= <-]. by exists ai.
Qed.

Lemma closure_sound b fuel ai ai' :
  closure fuel ai = Ok ai' → sound b ai → sound b ai'.
Proof. apply closure_inv. intros ????. by eapply pass_sound. Qed.

Lemma closure_frame fuel ai ai' :
  closure fuel ai = Ok ai' →
  height ai' = height ai ∧ width ai' = width ai
  ∧ moves_made ai' = moves_made ai
  ∧ mines ai ⊆ mines ai' ∧ safes ai ⊆ safes ai'.
Proof.
  intros Hc.
  apply (closure_inv (λ a, height a = height ai ∧ width a = width ai
    ∧ moves_made a = moves_made ai
    ∧ mines ai ⊆ mines a ∧ safes ai ⊆ safes a) _ _ _) in Hc; [done| |done].
  intros a a' made Hp (? & ? & ? & ? & ?).
  destruct (pass_frame _ _ _ Hp) as (-> & -> & -> & ? & ?).
  repeat split; [done..|set_solver|set_solver].
Qed.

Lemma closure_models g fuel ai ai' :
  closure fuel ai = Ok ai' → models g ai → models g ai'.
Proof.
  intros Hc (Hh & Hw & Hsd).
  destruct (closure_frame _ _ _ Hc) as (Hh' & Hw' & _).
  split; [congruence|]. split; [congruence|]. by eapply closure_sound.
Qed.

Lemma add_knowledge_models g fuel ai cell count ai' :
  models g ai → truthful g (cell, count) →
  add_knowledge fuel cell count ai = Ok ai' → models g ai'.
Proof.
  intros Hm Ht. rw /add_knowledge.
  destruct (observe_models g ai cell count Hm Ht) as (ai1 & -> & Hm1).
  simpl. intros Hc. by eapply closure_models.
Qed.

Lemma add_knowledge_returns g ai cell count :
  models g ai → truthful g (cell, count) →
  ∃ fuel ai', add_knowledge fuel cell count ai = Ok ai'.
Proof.
  intros Hm Ht.
  destruct (observe_models g ai cell count Hm Ht) as (ai1 & Ho & Hm1).
  destruct (closure_terminates (Minesweeper.board g) ai1) as (fuel & ai' & Hc).
  { apply Hm1. }
  exists fuel, ai'. by rw /add_knowledge Ho.
Qed.

Lemma runs_models g obs ai ai' :
  runs ai obs ai' → models g ai → Forall (truthful g) obs → models g ai'.
Proof.
  induction 1 as [|ai [cell count] obs fuel ai1 ai2 Hadd Hruns IH]; [done|].
  intros Hm [Ht Hobs]%Forall_cons. apply IH; [|done].
  by eapply add_knowledge_models.
Qed.

Lemma runs_exist g obs ai :
  models g ai → Forall (truthful g) obs → ∃ ai', runs ai obs ai'.
Proof.
  revert ai. induction obs as [|[cell count] obs IH]; intros ai Hm Hobs.
  - exists ai. constructor.
  - apply Forall_cons in Hobs as [Ht Hobs].
    destruct (add_knowledge_returns g ai cell count Hm Ht) as (fuel & ai1 & Hadd).
    destruct (IH ai1) as [ai2 Hruns]; [by eapply add_knowledge_models|done|].
    exists ai2. by eapply (runs_cons ai (cell, count)).
Qed.

Lemma init_models g :
  models g (init (Minesweeper.height g) (Minesweeper.width g)).
Proof.
  split; [done|]. split; [done|]. split; [constructor|]. split; set_solver.
Qed.

Lemma sound_disjoint b ai : sound b ai → mines ai ## safes ai.
Proof.
  intros (_ & Hm & Hs) c Hc1 Hc2. specialize (Hm c Hc1). specialize (Hs c Hc2).
  congruence.
Qed.

(** ** Sentences never keep confirmed cells *)

Lemma broadcast_all_settled m l ai s :
  settled ai s → settled (broadcast_all m l ai) (resolve_all m l s).
Proof.
  rw /settled broadcast_all_confirmed resolve_all_cells. set_solver.
Qed.

Lemma pending_mono ai ai' s :
  mines ai ⊆ mines ai' → safes ai ⊆ safes ai' → pending ai s → pending ai' s.
Proof. rw /pending. intros Hm Hs [[? ?]|[? ?]]; [left|right]; set_solver. Qed.

Lemma all_settled_nearly ai : all_settled ai → nearly_settled ai.
Proof.
  intros Hall j s Hj. left.
  eapply Forall_lookup_1 in Hall; done.
Qed.

Lemma sweep_settles ai ai' :
  sweep ai = Ok ai' → nearly_settled ai → all_settled ai'.
Proof.
  intros Hs Hnear.
  destruct (sweep_inv (λ k a, ∀ j s, knowledge a !! j = Some s →
      settled a s ∨ (k ≤ j ∧ S j = length (knowledge a) ∧ pending a s)) ai)
    as (ai2 & H & Hp & Hlen).
  - intros j s Hj. destruct (Hnear j s Hj) as [?|[? ?]]; [by left|right].
    split; [lia|done].
  - intros k a s0 Hk Hl Hinv j s' Hj.
    destruct (fire_cases s0 a) as [(Hf & Hkm & Hks)|(m & Hf & Hne & Hc)];
      rw Hf in Hj; rw Hf.
    + destruct (Hinv j s' Hj) as [?|(Hle & Hlast & Hpend)]; [by left|].
      destruct (decide (j = k)) as [->|Hjk]; [|right; split; [lia|done]].
      left. assert (s' = s0) as -> by congruence.
      assert (Sentence.cells s0 = ∅) as He; [|rw /settled He; set_solver].
      destruct Hpend as [[_ Hz]|[_ Hz]].
      * by rw /Sentence.known_safes bool_decide_true in Hks.
      * destruct (decide (Sentence.cells s0 = ∅)) as [|Hne]; [done|].
        assert (Sentence.count s0 ≠ 0%Z) as Hnz.
        { rw Hz. intros Hz0. apply Hne. apply leibniz_equiv, size_empty_inv. lia. }
        assert (Sentence.known_mines s0 = Sentence.cells s0) as Hkeq.
        { by rw /Sentence.known_mines bool_decide_true // bool_decide_false. }
        congruence.
    + rw broadcast_all_knowledge list_lookup_fmap in Hj.
      destruct (knowledge a !! j) as [s|] eqn:Hsj; [|done].
      injection Hj as <-.
      destruct (Hinv j s Hsj) as [Hset|(Hle & Hlast & Hpend)].
      { left. by apply broadcast_all_settled. }
      destruct (decide (j = k)) as [->|Hjk].
      * left. assert (s = s0) as -> by congruence.
        rw /settled resolve_all_cells list_to_set_elements_L. set_solver.
      * assert (settled a s0) as Hset0.
        { destruct (Hinv k s0 Hk) as [?|(_ & Hlast' & _)]; [done|lia]. }
        assert (Sentence.cells s ⊆ confirmed a) as Hsub.
        { rw /confirmed. destruct Hpend as [[? _]|[? _]]; set_solver. }
        rw resolve_all_disjoint.
        { intros c Hin%elem_of_elements Hcs. rw /settled in Hset0. set_solver. }
        right. split; [lia|]. rw broadcast_all_knowledge length_fmap. split; [done|].
        eapply pending_mono; [| |done];
          rw ?broadcast_all_mines ?broadcast_all_safes; destruct m; set_solver.
  - rw Hs in H. injection H as <-. apply Forall_lookup_2. intros j s Hj.
    destruct (Hp j s Hj) as [?|(Hle & Hlast & _)]; [done|].
    apply lookup_lt_Some in Hj. lia.
Qed.

Lemma pass_settles ai ai' made :
  pass ai = Ok (ai', made) → nearly_settled ai → all_settled ai'.
Proof.
  destruct (pass_unfold ai) as (ai1 & Hs & ->). intros [= <- _] Hnear.
  pose proof (sweep_settles _ _ Hs Hnear) as Hall.
  rw /all_settled /=. apply Forall_app. split; [done|].
  apply Forall_forall. intros n Hn.
  destruct (subset_resolution_new _ _ Hn) as (a & b & _ & Hb & _ & _ & -> & _).
  rw /all_settled Forall_forall in Hall. specialize (Hall b Hb).
  rw /settled /difference /=. rw /settled in Hall.
  change (confirmed (with_knowledge _ ai1)) with (confirmed ai1). set_solver.
Qed.

Lemma closure_settles fuel ai ai' :
  closure fuel ai = Ok ai' → nearly_settled ai → all_settled ai'.
Proof.
  apply closure_post.
  - intros a a' made. apply pass_settles.
  - apply all_settled_nearly.
Qed.

Lemma observe_nearly cell count ai ai' :
  all_settled ai → observe cell count ai = Ok ai' → nearly_settled ai'.
Proof.
  intros Hall. rw observe_unfold.
  set (ai0 := mk _ _ ({[cell]} ∪ moves_made ai) _ _ _).
  set (ai1 := broadcast false cell ai0).
  set (scanned := foldl _ _ _).
  set (ai2 := if bool_decide (scanned.2 = 0%Z) then _ else _).
  set (ai3 := if _ && _ then _ else _).
  intros [= <-].
  assert (all_settled ai1) as Hall1.
  { rw /all_settled. change (knowledge ai1) with (resolve_all false [cell] <$> knowledge ai).
    apply Forall_fmap. eapply Forall_impl; [apply Hall|].
    intros s Hs. by apply (broadcast_all_settled false [cell] ai0). }
  assert (scanned.1 ## confirmed ai1) as Hdisj.
  { apply scan_unconfirmed. set_solver. }
  assert (all_settled ai2) as Hall2.
  { rw /ai2. case_bool_decide; [|done].
    rw /all_settled broadcast_all_knowledge. apply Forall_fmap.
    eapply Forall_impl; [apply Hall1|].
    intros s Hs. by apply broadcast_all_settled. }
  assert (all_settled ai3) as Hall3.
  { rw /ai3. destruct (_ && _); [|done].
    rw /all_settled broadcast_all_knowledge. apply Forall_fmap.
    eapply Forall_impl; [apply Hall2|].
    intros s Hs. by apply broadcast_all_settled. }
  intros j s. rw /= lookup_app. rw length_app /=.
  destruct (knowledge ai3 !! j) as [s'|] eqn:Hj.
  { intros [= <-]. left. eapply Forall_lookup_1 in Hall3; done. }
  destruct (j - length (knowledge ai3)) as [|n] eqn:Hn; [|done].
  intros [= <-]. apply lookup_ge_None in Hj.
  change (confirmed (with_knowledge _ ai3)) with (confirmed ai3).
  rw /settled /pending /=.
  change (mines (with_knowledge _ ai3)) with (mines ai3).
  change (safes (with_knowledge _ ai3)) with (safes ai3).
  assert (S j = length (knowledge ai3) + 1) as Hlast.
  { set (len := length (knowledge ai3)) in *. clearbody len. lia. }
  destruct (decide (scanned.2 = 0%Z)) as [E0|E0].
  - right. split; [exact Hlast|]. left. split; [|exact E0].
    assert (scanned.1 ⊆ safes ai2) as Hsub.
    { rw /ai2 bool_decide_true // broadcast_all_safes list_to_set_elements_L.
      set_solver. }
    rw /ai3. destruct (_ && _); [|exact Hsub]. by rw broadcast_all_safes.
  - assert (ai2 = ai1) as Heq by (by rw /ai2 bool_decide_false).
    destruct (bool_decide (scanned.2 = Z.of_nat _) && _) eqn:E1.
    + apply andb_true_iff in E1 as [E1%bool_decide_eq_true _].
      right. split; [exact Hlast|]. right. split; [|exact E1].
      rw /ai3 broadcast_all_mines list_to_set_elements_L. set_solver.
    + left. rw /ai3 Heq. exact Hdisj.
Qed.

Lemma add_knowledge_settles fuel cell count ai ai' :
  all_settled ai → add_knowledge fuel cell count ai = Ok ai' → all_settled ai'.
Proof.
  intros Hall. rw /add_knowledge.
  destruct (observe_ok cell count ai) as [ai1 Ho]. rw Ho /=.
  intros Hc. eapply closure_settles; [done|]. by eapply observe_nearly.
Qed.

Lemma runs_settled ai obs ai' :
  runs ai obs ai' → all_settled ai → all_settled ai'.
Proof.
  induction 1 as [|ai o obs fuel ai1 ai2 Hadd Hruns IH]; [done|].
  intros Hall. apply IH. by eapply add_knowledge_settles.
Qed.

(** ** A derived singleton mine is resolved by the next pass *)

Lemma mines_in_singleton (b : Cell → bool) (c : Cell) :
  mines_in b {[c]} = if b c then 1%Z else 0%Z.
Proof.
  rw /mines_in filter_singleton_L. case_decide as Hb.
  - by rw Hb size_singleton.
  - destruct (b c); [done|]. by rw size_empty.
Qed.

Lemma sweep_marks b ai ai' s (c : Cell) :
  kb_true b ai → s ∈ knowledge ai →
  Sentence.cells s = {[c]} → Sentence.count s = 1%Z →
  sweep ai = Ok ai' → c ∈ mines ai'.
Proof.
  intros Hkb [i Hi]%list_elem_of_lookup Hcs Hcount Hs.
  assert (b c = true) as Hbc.
  { eapply Forall_lookup_1 in Hkb; [|done].
    rw /sentence_true Hcs Hcount mines_in_singleton in Hkb.
    by destruct (b c). }
  destruct (sweep_inv (λ k a, kb_true b a
      ∧ (c ∈ mines a
         ∨ (k ≤ i ∧ ∃ s', knowledge a !! i = Some s'
                          ∧ Sentence.cells s' = {[c]}))) ai)
    as (ai2 & H & [_ Hp] & _).
  - split; [done|]. right. split; [lia|]. by exists s.
  - intros k a s0 Hk _ [Hkba Hinv].
    assert (s0 ∈ knowledge a) as Hin by by eapply list_elem_of_lookup_2.
    split; [by apply fire_kb_true|].
    destruct Hinv as [Hm|(Hle & s' & Hs' & Hcs')].
    { left. destruct (fire_frame s0 a) as (_ & _ & _ & _ & Hsub & _). set_solver. }
    assert (sentence_true b s0) as Ht0 by by eapply Forall_lookup_1 in Hkba.
    destruct (fire_cases s0 a) as [(Hf & Hkm & _)|(m & Hf & Hne & Hc)]; rw Hf.
    + destruct (decide (k = i)) as [->|Hki].
      * exfalso. assert (s0 = s') as -> by congruence.
        rw /sentence_true Hcs' mines_in_singleton Hbc in Ht0.
        rw /Sentence.known_mines Ht0 Hcs' size_singleton /= in Hkm.
        set_solver.
      * right. split; [lia|]. by exists s'.
    + destruct (decide (c ∈ Sentence.cells s0)) as [Hcin|Hcout].
      * left. assert (m = true) as ->.
        { rw -Hbc. symmetry. by eapply firing_status. }
        rw broadcast_all_mines list_to_set_elements_L. set_solver.
      * assert (k ≠ i) as Hki.
        { intros ->. assert (s0 = s') as -> by congruence. set_solver. }
        right. split; [lia|]. exists (resolve_all m (elements (Sentence.cells s0)) s').
        split; [by rw broadcast_all_knowledge list_lookup_fmap Hs'|].
        rw resolve_all_cells list_to_set_elements_L Hcs'. set_solver.
  - rw Hs in H. injection H as <-.
    destruct Hp as [?|(Hle & s' & Hs' & _)]; [done|].
    apply lookup_lt_Some in Hi.
    destruct (sweep_frame _ _ Hs) as (_ & _ & _ & Hlen & _).
    apply lookup_lt_Some in Hs'. lia.
Qed.

Lemma closure_resolves b fuel ai ai' s1 s2 (A B C : Cell) :
  kb_true b ai → quiescent ai →
  s1 ∈ knowledge ai → Sentence.cells s1 = {[A; B]} → Sentence.count s1 = 1%Z →
  s2 ∈ knowledge ai → Sentence.cells s2 = {[A; B; C]} → Sentence.count s2 = 2%Z →
  closure fuel ai = Ok ai' → C ∈ mines ai'.
Proof.
  intros Hkb Hq H1 Hc1 Hn1 H2 Hc2 Hn2.
  assert (sentence_true b s1 ∧ sentence_true b s2) as [Ht1 Ht2].
  { rw /kb_true Forall_forall in Hkb. split; by apply Hkb. }
  assert (C ∉ ({[A; B]} : gset Cell)) as HC.
  { intros HC. rw /sentence_true Hc1 Hn1 in Ht1.
    rw /sentence_true Hc2 Hn2 in Ht2.
    replace ({[A; B; C]} : gset Cell) with ({[A; B]} : gset Cell) in Ht2
      by set_solver. lia. }
  assert (Sentence.eqb s1 s2 = false) as Hne.
  { rw /Sentence.eqb Hn1 Hn2 (bool_decide_false (1%Z = 2%Z)) //.
    by rw andb_false_r. }
  pose (d := difference s1 s2).
  assert (Sentence.cells d = {[C]} ∧ Sentence.count d = 1%Z) as [Hcd Hnd].
  { rw /d /difference /= Hc1 Hc2 Hn1 Hn2. split; [set_solver|done]. }
  destruct fuel as [|fuel]; [done|]. simpl.
  destruct (pass_unfold ai) as (ai1 & Hs & ->).
  rw sweep_quiescent // in Hs. injection Hs as <-.
  assert (Forall (sentence_true b) (subset_resolution (knowledge ai))) as Htn
    by by apply subset_resolution_true.
  assert (contains d (knowledge ai ++ subset_resolution (knowledge ai)) = true)
    as Hcont.
  { apply (subset_resolution_complete _ s1 s2 H1 H2 Hne).
    rw Hc1 Hc2. set_solver. }
  destruct (subset_resolution (knowledge ai)) as [|n news].
  { exfalso. rw app_nil_r in Hcont.
    apply contains_true in Hcont as (s & Hs & Heq).
    apply andb_true_iff in Heq as [E1%bool_decide_eq_true E2%bool_decide_eq_true].
    rw /quiescent Forall_forall in Hq. destruct (Hq s Hs) as [Hkm _].
    rw /Sentence.known_mines -E1 -E2 Hcd Hnd size_singleton /= in Hkm.
    set_solver. }
  apply contains_true in Hcont as (s3 & Hs3 & Heq).
  apply andb_true_iff in Heq as [E1%bool_decide_eq_true E2%bool_decide_eq_true].
  set (ai2 := with_knowledge _ ai).
  assert (kb_true b ai2) as Hkb2.
  { rw /kb_true /=. by apply Forall_app. }
  destruct fuel as [|fuel]; [done|]. simpl.
  destruct (pass_unfold ai2) as (ai3 & Hs2 & ->).
  assert (C ∈ mines ai3) as HC3.
  { eapply (sweep_marks b ai2 ai3 s3); [done|exact Hs3| | |done].
    - by rw -E1.
    - by rw -E2. }
  set (ai4 := with_knowledge _ ai3).
  destruct (match subset_resolution (knowledge ai3) with [] => false | _ => true end).
  - intros (_ & _ & _ & Hm & _)%closure_frame. by apply Hm.
  - by intros [= <-].
Qed.

(** ** Contradictory knowledge makes the loop run forever *)

Lemma counts_bounded (kb : list Sentence.t) :
  ∃ bound : Z, ∀ s, s ∈ kb → (Z.abs (Sentence.count s) ≤ bound)%Z.
Proof.
  induction kb as [|s kb [bound IH]].
  - exists 0%Z. intros s Hs. by apply elem_of_nil in Hs.
  - exists (Z.abs (Sentence.count s) + Z.abs bound)%Z.
    intros s' [->|Hs']%elem_of_cons; [lia|]. specialize (IH s' Hs'). lia.
Qed.

(** Sentences without cells and with two different counts: every pass
    derives a sentence that is not yet held. *)
Lemma empty_sentences_grow kb :
  (∀ s, s ∈ kb → Sentence.cells s = ∅) →
  (∃ s1 s2, s1 ∈ kb ∧ s2 ∈ kb ∧ Sentence.count s1 ≠ Sentence.count s2) →
  subset_resolution kb ≠ [].
Proof.
  intros Hempty (s1 & s2 & H1 & H2 & Hne) Hnil.
  assert (∀ a b, a ∈ kb → b ∈ kb → Sentence.count a ≠ Sentence.count b →
    ∃ s, s ∈ kb ∧ Sentence.count s = (Sentence.count b - Sentence.count a)%Z)
    as Hclosed.
  { intros a b Ha Hb Hab.
    assert (contains (difference a b) (kb ++ subset_resolution kb) = true) as Hc.
    { apply subset_resolution_complete; [done..| |].
      - rw /Sentence.eqb (bool_decide_false (Sentence.count a = _)) //.
        by rw andb_false_r.
      - rw (Hempty a Ha). set_solver. }
    rw Hnil app_nil_r in Hc. apply contains_true in Hc as (s & Hs & Heq).
    apply andb_true_iff in Heq as [_ E%bool_decide_eq_true].
    exists s. split; [done|]. by rw -E. }
  assert (∃ d s t, (0 < d)%Z ∧ s ∈ kb ∧ t ∈ kb
          ∧ Sentence.count s = d ∧ Sentence.count t = (- d)%Z)
    as (d & sp & sn & Hd & Hsp & Hsn & Hcp & Hcn).
  { destruct (Hclosed s1 s2 H1 H2 Hne) as (p & Hp & Hpc).
    destruct (Hclosed s2 s1 H2 H1) as (q & Hq & Hqc); [done|].
    destruct (decide (0 < Sentence.count s2 - Sentence.count s1)%Z).
    - exists (Sentence.count s2 - Sentence.count s1)%Z, p, q.
      repeat split; [done..|lia].
    - exists (Sentence.count s1 - Sentence.count s2)%Z, q, p.
      repeat split; [lia|done..|lia]. }
  assert (∀ k : nat, ∃ s, s ∈ kb ∧ Sentence.count s = (Z.of_nat (S k) * d)%Z)
    as Hmult.
  { induction k as [|k (s & Hs & Hsc)].
    - exists sp. split; [done|lia].
    - destruct (Hclosed sn s Hsn Hs) as (s' & Hs' & Hsc'); [lia|].
      exists s'. split; [done|]. rw Hsc' Hsc Hcn. lia. }
  destruct (counts_bounded kb) as [bound Hbound].
  destruct (Hmult (Z.to_nat (Z.abs bound))) as (s & Hs & Hsc).
  specialize (Hbound s Hs). rw Hsc in Hbound. nia.
Qed.

Lemma closure_diverges fuel ai :
  (∀ s, s ∈ knowledge ai → Sentence.cells s = ∅) →
  (∃ s1 s2, s1 ∈ knowledge ai ∧ s2 ∈ knowledge ai
            ∧ Sentence.count s1 ≠ Sentence.count s2) →
  closure fuel ai = OutOfFuel.
Proof.
  revert ai. induction fuel as [|fuel IH]; intros ai Hempty Htwo; [done|].
  simpl. destruct (pass_unfold ai) as (ai1 & Hs & ->).
  assert (quiescent ai) as Hq.
  { apply Forall_forall. intros s Hs'. specialize (Hempty s Hs').
    rw /Sentence.known_mines /Sentence.known_safes Hempty.
    split; repeat case_match; done. }
  rw sweep_quiescent // in Hs. injection Hs as <-.
  pose proof (empty_sentences_grow _ Hempty Htwo) as Hgrow.
  destruct (subset_resolution (knowledge ai)) as [|n news] eqn:Hnews; [done|].
  apply IH.
  - intros s [Hs|Hs]%elem_of_app; [by apply Hempty|].
    rw -Hnews in Hs.
    destruct (subset_resolution_new _ _ Hs) as (a & b & _ & Hb & _ & _ & -> & _).
    rw /difference /= (Hempty b Hb). set_solver.
  - destruct Htwo as (s1 & s2 & H1 & H2 & Hne). exists s1, s2.
    rw /= !elem_of_app. auto.
Qed.

(** ** No operation raises *)

Lemma closure_no_raise fuel ai e : closure fuel ai ≠ Raise e.
Proof.
  revert ai. induction fuel as [|fuel IH]; intros ai; [done|].
  simpl. destruct (pass_ok ai) as [[ai1 made] ->].
  destruct made; [apply IH|done].
Qed.

Lemma add_knowledge_no_raise fuel cell count ai e :
  add_knowledge fuel cell count ai ≠ Raise e.
Proof.
  rw /add_knowledge. destruct (observe_ok cell count ai) as [ai1 ->].
  apply closure_no_raise.
Qed.

Lemma pass_length ai ai' made :
  pass ai = Ok (ai', made) → length (knowledge ai) ≤ length (knowledge ai').
Proof.
  destruct (pass_unfold ai) as (ai1 & Hs & ->). intros [= <- _].
  destruct (sweep_frame _ _ Hs) as (_ & _ & _ & Hlen & _).
  rw /= length_app. lia.
Qed.

Lemma closure_length fuel ai ai' :
  closure fuel ai = Ok ai' → length (knowledge ai) ≤ length (knowledge ai').
Proof.
  intros Hc.
  apply (closure_inv (λ a, length (knowledge ai) ≤ length (knowledge a)) _ _ _)
    in Hc; [done| |done].
  intros a a' made Hp Hle. apply pass_length in Hp. lia.
Qed.

Lemma observe_records cell count ai ai' :
  observe cell count ai = Ok ai' →
  height ai' = height ai ∧ width ai' = width ai
  ∧ moves_made ai' = {[cell]} ∪ moves_made ai
  ∧ cell ∈ safes ai'
  ∧ length (knowledge ai') = S (length (knowledge ai)).
Proof.
  rw observe_unfold.
  set (ai0 := mk _ _ ({[cell]} ∪ moves_made ai) _ _ _).
  set (ai1 := broadcast false cell ai0).
  set (scanned := foldl _ _ _).
  set (ai2 := if bool_decide (scanned.2 = 0%Z) then _ else _).
  set (ai3 := if _ && _ then _ else _).
  intros [= <-].
  assert (height ai2 = height ai ∧ width ai2 = width ai
          ∧ moves_made ai2 = {[cell]} ∪ moves_made ai ∧ cell ∈ safes ai2
          ∧ length (knowledge ai2) = length (knowledge ai))
    as (Hh & Hw & Hm & Hs & Hl).
  { rw /ai2. case_bool_decide.
    - destruct (broadcast_all_frame false (elements scanned.1) ai1)
        as (-> & -> & ->).
      rw broadcast_all_safes broadcast_all_knowledge !length_fmap /=.
      repeat split; set_solver.
    - rw /= length_fmap. repeat split; set_solver. }
  assert (height ai3 = height ai ∧ width ai3 = width ai
          ∧ moves_made ai3 = {[cell]} ∪ moves_made ai ∧ cell ∈ safes ai3
          ∧ length (knowledge ai3) = length (knowledge ai))
    as (Hh3 & Hw3 & Hm3 & Hs3 & Hl3).
  { rw /ai3. destruct (_ && _); [|done].
    destruct (broadcast_all_frame true (elements scanned.1) ai2)
      as (-> & -> & ->).
    by rw broadcast_all_safes broadcast_all_knowledge length_fmap. }
  rw /= length_app /=. repeat split; [done..|lia].
Qed.

Lemma add_knowledge_records fuel cell count ai ai' :
  add_knowledge fuel cell count ai = Ok ai' →
  cell ∈ moves_made ai' ∧ cell ∈ safes ai'
  ∧ length (knowledge ai) < length (knowledge ai').
Proof.
  rw /add_knowledge. destruct (observe_ok cell count ai) as [ai1 Ho].
  rw Ho /=. intros Hc.
  destruct (observe_records _ _ _ _ Ho) as (_ & _ & Hm & Hs & Hl).
  destruct (closure_frame _ _ _ Hc) as (_ & _ & Hm' & _ & Hs').
  apply closure_length in Hc. rw Hm' Hm. split; [set_solver|].
  split; [set_solver|lia].
Qed.

(** ** The two move queries *)

Lemma head_filter_None {A} (P : A → Prop) `{∀ x, Decision (P x)} (l : list A) :
  head (filter P l) = None ↔ ∀ x, x ∈ l → ¬ P x.
Proof.
  induction l as [|x l IH]; simpl.
  - split; [|done]. intros _ x Hx. by apply elem_of_nil in Hx.
  - rw filter_cons. case_decide as HP; simpl.
    + split; [done|]. intros Hall. destruct (Hall x); [left|done].
    + rw IH. split.
      * intros Hall y [->|Hy]%elem_of_cons; [done|by apply Hall].
      * intros Hall y Hy. apply Hall. by right.
Qed.

Lemma head_filter_Some {A} (P : A → Prop) `{∀ x, Decision (P x)} (l : list A) x :
  head (filter P l) = Some x → x ∈ l ∧ P x.
Proof.
  intros Hh. assert (x ∈ filter P l) as Hin.
  { destruct (filter P l); [done|]. injection Hh as ->. left. }
  by apply list_elem_of_filter in Hin as [? ?].
Qed.

Lemma make_safe_move_None ai :
  make_safe_move ai = None ↔ safes ai ⊆ moves_made ai.
Proof.
  rw /make_safe_move head_filter_None. split.
  - intros Hall c Hc. destruct (decide (c ∈ moves_made ai)); [done|].
    destruct (Hall c); [by apply elem_of_elements|done].
  - intros Hsub c Hc%elem_of_elements Hn. by apply Hn, Hsub.
Qed.

Lemma make_safe_move_Some ai c :
  make_safe_move ai = Some c → c ∈ safes ai ∧ c ∉ moves_made ai.
Proof.
  intros [Hin Hn]%head_filter_Some. by apply elem_of_elements in Hin.
Qed.

Lemma random_choice_ok rnd (l : list Cell) :
  l ≠ [] → ∃ c, random_choice rnd l = Ok c ∧ c ∈ l.
Proof.
  intros Hne. rw /random_choice.
  destruct (lookup_lt_is_Some_2 l (rnd `mod` length l)) as [c Hc].
  { apply Nat.mod_upper_bound. by destruct l. }
  exists c. rw Hc. split; [done|]. by eapply list_elem_of_lookup_2.
Qed.

Lemma make_random_move_spec rnd ai :
  (available_moves ai = ∅ → make_random_move rnd ai = Ok None)
  ∧ (available_moves ai ≠ ∅ →
     ∃ c, make_random_move rnd ai = Ok (Some c) ∧ c ∈ available_moves ai).
Proof.
  rw /make_random_move /truthy. split.
  - intros ->. by rw bool_decide_true.
  - intros Hne. rw bool_decide_false //=.
    destruct (random_choice_ok rnd (elements (available_moves ai)))
      as (c & -> & Hc).
    { intros He. by apply elements_empty_inv, leibniz_equiv in He. }
    exists c. split; [done|]. by apply elem_of_elements.
Qed.

(** ** Counts stay within bounds *)

Lemma true_sentence_bounds b s :
  sentence_true b s →
  (0 ≤ Sentence.count s ≤ Z.of_nat (size (Sentence.cells s)))%Z.
Proof. rw /sentence_true. intros ->. apply mines_in_bounds. Qed.

(** ** Sentences keep their place and only lose cells *)

Lemma shrunk_refl ai : shrunk ∅ ai ai.
Proof. intros i s Hi. exists s. split; [done|set_solver]. Qed.

Lemma shrunk_trans R1 R2 a1 a2 a3 :
  shrunk R1 a1 a2 → shrunk R2 a2 a3 → shrunk (R1 ∪ R2) a1 a3.
Proof.
  intros H12 H23 i s Hi.
  destruct (H12 i s Hi) as (s2 & Hi2 & Hc2).
  destruct (H23 i s2 Hi2) as (s3 & Hi3 & Hc3).
  exists s3. split; [done|]. rw Hc3 Hc2. set_solver.
Qed.

Lemma fire_shrunk s0 ai : ∃ R, shrunk R ai (fire s0 ai).
Proof.
  destruct (fire_cases s0 ai) as [(-> & _)|(m & -> & _)].
  - exists ∅. apply shrunk_refl.
  - exists (Sentence.cells s0). intros i s Hi.
    exists (resolve_all m (elements (Sentence.cells s0)) s).
    rw broadcast_all_knowledge list_lookup_fmap Hi.
    by rw resolve_all_cells list_to_set_elements_L.
Qed.

Lemma sweep_shrunk ai ai' : sweep ai = Ok ai' → ∃ R, shrunk R ai ai'.
Proof.
  intros Hs.
  destruct (sweep_inv (λ _ a, ∃ R, shrunk R ai a) ai) as (ai2 & H & Hp & _).
  - exists ∅. apply shrunk_refl.
  - intros k a s _ _ [R1 H1]. destruct (fire_shrunk s a) as [R2 H2].
    exists (R1 ∪ R2). by eapply shrunk_trans.
  - rw Hs in H. by injection H as <-.
Qed.

Lemma pass_shrunk ai ai' made :
  pass ai = Ok (ai', made) → ∃ R, shrunk R ai ai'.
Proof.
  destruct (pass_unfold ai) as (ai1 & Hs & ->). intros [= <- _].
  destruct (sweep_shrunk _ _ Hs) as [R HR]. exists R. intros i s Hi.
  destruct (HR i s Hi) as (s' & Hi' & Hc). exists s'. split; [|done].
  rw /=. by apply lookup_app_l_Some.
Qed.

Lemma closure_shrunk fuel ai ai' :
  closure fuel ai = Ok ai' → ∃ R, shrunk R ai ai'.
Proof.
  intros Hc.
  apply (closure_inv (λ a, ∃ R, shrunk R ai a) _ _ _) in Hc; [done| |].
  - intros a a' made Hp [R1 H1]. destruct (pass_shrunk _ _ _ Hp) as [R2 H2].
    exists (R1 ∪ R2). by eapply shrunk_trans.
  - exists ∅. apply shrunk_refl.
Qed.

(** ** The iteration order of a Python set does not matter *)

Lemma resolve_comm m c1 c2 s :
  resolve m c1 (resolve m c2 s) = resolve m c2 (resolve m c1 s).
Proof.
  destruct (decide (c1 = c2)) as [->|Hne]; [done|].
  destruct s as [cs n ms ss]. rw /resolve /=.
  repeat (case_bool_decide; simpl in * ); try done; try (exfalso; set_solver).
  destruct m; f_equal; set_solver.
Qed.

Lemma resolve_all_perm m l1 l2 s :
  l1 ≡ₚ l2 → resolve_all m l1 s = resolve_all m l2 s.
Proof.
  rw /resolve_all. intros Hp. revert s.
  induction Hp as [|c l1 l2 _ IH|c1 c2 l|l1 l2 l3 _ IH1 _ IH2]; intros s; simpl.
  - done.
  - apply IH.
  - by rw resolve_comm.
  - by rw IH1.
Qed.

Lemma broadcast_all_unfold m l ai :
  broadcast_all m l ai
  = mk (height ai) (width ai) (moves_made ai)
       (if m then list_to_set l ∪ mines ai else mines ai)
       (if m then safes ai else list_to_set l ∪ safes ai)
       (resolve_all m l <$> knowledge ai).
Proof.
  destruct (broadcast_all_frame m l ai) as (Hh & Hw & Hm).
  rw -Hh -Hw -Hm -broadcast_all_mines -broadcast_all_safes
     -broadcast_all_knowledge.
  by destruct (broadcast_all m l ai).
Qed.

(** Marking the cells of a set one by one, in any order, gives the state
    obtained with the order of [elements]. *)
Lemma mark_all_any_order (m : bool) (X : gset Cell) (l : list Cell) (ai : t) :
  l ≡ₚ elements X →
  for_each (if m then mark_mine else mark_safe) l ai
  = for_each (if m then mark_mine else mark_safe) (elements X) ai.
Proof.
  intros Hp.
  assert (∀ l', for_each (if m then mark_mine else mark_safe) l' ai
                = Ok (broadcast_all m l' ai)) as Hok.
  { intros l'. destruct m; [apply mark_mines_ok|apply mark_safes_ok]. }
  rw !Hok !broadcast_all_unfold. f_equal. f_equal.
  - destruct m; [|done]. f_equal. apply set_eq. intros c.
    by rw !elem_of_list_to_set Hp.
  - destruct m; [done|]. f_equal. apply set_eq. intros c.
    by rw !elem_of_list_to_set Hp.
  - apply list_fmap_ext. intros _ s _. by apply resolve_all_perm.
Qed.

(** ** Resolutions of different cells commute *)

Lemma resolve_comm_ne m1 m2 c1 c2 s :
  c1 ≠ c2 →
  resolve m1 c1 (resolve m2 c2 s) = resolve m2 c2 (resolve m1 c1 s).
Proof.
  intros Hne. destruct s as [cs n ms ss]. rw /resolve /=.
  repeat (case_bool_decide; simpl in * ); try done; try (exfalso; set_solver).
  destruct m1, m2; f_equal; set_solver.
Qed.

Lemma resolve_again m1 m2 c s : resolve m2 c (resolve m1 c s) = resolve m1 c s.
Proof. apply resolve_notin. rw resolve_cells. set_solver. Qed.

Lemma broadcast_comm_ne m1 m2 c1 c2 ai :
  c1 ≠ c2 →
  broadcast m1 c1 (broadcast m2 c2 ai) = broadcast m2 c2 (broadcast m1 c1 ai).
Proof.
  intros Hne. rw /broadcast /=. f_equal.
  - destruct m1, m2; set_solver.
  - destruct m1, m2; set_solver.
  - rw -!list_fmap_compose. apply list_fmap_ext. intros _ s _. simpl.
    by apply resolve_comm_ne.
Qed.

Lemma resolve_call_ok op s : resolve_call op s = Ok (resolve op.1 op.2 s).
Proof.
  rw /resolve_call.
  destruct op.1; [apply Sentence_mark_mine_ok|apply Sentence_mark_safe_ok].
Qed.

Lemma broadcast_call_ok op ai : broadcast_call op ai = Ok (broadcast op.1 op.2 ai).
Proof.
  rw /broadcast_call. destruct op.1; [apply mark_mine_ok|apply mark_safe_ok].
Qed.

Lemma foldl_permutation_ne {A St} (f : St → A → St) (key : A → Cell)
    (l1 l2 : list A) :
  (∀ x y a, key x ≠ key y → f (f a x) y = f (f a y) x) →
  l1 ≡ₚ l2 → NoDup (key <$> l1) → ∀ a, foldl f a l1 = foldl f a l2.
Proof.
  intros Hcomm Hp.
  induction Hp as [|x l1 l2 Hp IH|x y l|l1 l2 l3 Hp1 IH1 Hp2 IH2]; intros Hnd a.
  - done.
  - simpl. apply IH. by apply NoDup_cons in Hnd as [_ ?].
  - simpl. rw Hcomm //. rw !fmap_cons in Hnd.
    apply NoDup_cons in Hnd as [Hin _]. intros Heq. apply Hin. rw Heq. left.
  - rw IH1 //. apply IH2. by rw -Hp1.
Qed.

(** ** The window of a cell *)

Lemma window_elem (cell c : Cell) :
  c ∈ window cell ↔
  (cell.1 - 1 ≤ c.1 ≤ cell.1 + 1 ∧ cell.2 - 1 ≤ c.2 ≤ cell.2 + 1)%Z.
Proof.
  destruct c as [i j]. rw /window /range list_elem_of_bind.
  setoid_rewrite list_elem_of_bind. setoid_rewrite list_elem_of_singleton.
  setoid_rewrite elem_of_seqZ. simpl. split.
  - intros (i' & (j' & [= -> ->] & Hj) & Hi). lia.
  - intros [Hi Hj]. exists i. split; [|lia]. exists j. split; [done|lia].
Qed.

Lemma window_length cell : length (window cell) = 9.
Proof.
  rw /window /range.
  replace (cell.1 + 2 - (cell.1 - 1))%Z with 3%Z by lia.
  replace (cell.2 + 2 - (cell.2 - 1))%Z with 3%Z by lia.
  reflexivity.
Qed.

Lemma in_grid_spec h w (c : Cell) :
  in_grid h w c ↔ (0 ≤ c.1 < h ∧ 0 ≤ c.2 < w)%Z.
Proof.
  rw /in_grid /in_range !andb_true_iff !Z.leb_le !Z.ltb_lt. tauto.
Qed.

Lemma neighbours_elem h w (cell c : Cell) :
  c ∈ neighbours h w cell ↔
  c ≠ cell ∧ in_grid h w c
  ∧ (cell.1 - 1 ≤ c.1 ≤ cell.1 + 1 ∧ cell.2 - 1 ≤ c.2 ≤ cell.2 + 1)%Z.
Proof.
  rw /neighbours elem_of_list_to_set list_elem_of_filter window_elem. tauto.
Qed.

Lemma neighbours_size h w cell : size (neighbours h w cell) ≤ 8.
Proof.
  assert (size (list_to_set (window cell) : gset Cell) = 9) as H9.
  { rw size_list_to_set; [apply window_NoDup|apply window_length]. }
  assert (cell ∈ (list_to_set (window cell) : gset Cell)) as Hin.
  { apply elem_of_list_to_set, window_elem. lia. }
  assert (neighbours h w cell ⊆ list_to_set (window cell) ∖ {[cell]}) as Hsub.
  { intros c (Hne & _ & Hw)%neighbours_elem.
    apply elem_of_difference. split; [|set_solver].
    by apply elem_of_list_to_set, window_elem. }
  apply subseteq_size in Hsub.
  rw size_difference in Hsub; [set_solver|]. rw size_singleton in Hsub. lia.
Qed.

(** ** What the neighbour scan computes *)

Lemma scan_one (ai : t) (cell ij : Cell) (acc : gset Cell * Z) :
  scan ai cell acc ij
  = (if bool_decide ((ij ≠ cell ∧ in_grid (height ai) (width ai) ij)
                     ∧ (ij ∉ safes ai) ∧ (ij ∉ mines ai))
     then {[ij]} ∪ acc.1 else acc.1,
     if bool_decide ((ij ≠ cell ∧ in_grid (height ai) (width ai) ij)
                     ∧ ij ∈ mines ai)
     then (acc.2 - 1)%Z else acc.2).
Proof.
  rw /scan. destruct acc as [N n]. simpl.
  destruct (decide (ij = cell)) as [->|Hne].
  { rw (bool_decide_true (cell = cell)) //. rw !bool_decide_false //; tauto. }
  rw (bool_decide_false (ij = cell)) //.
  destruct (decide (in_grid (height ai) (width ai) ij)) as [Hg|Hg].
  2: { rw (not_true_is_false _ Hg). rw !bool_decide_false //; tauto. }
  rw Hg.
  destruct (decide (ij ∈ mines ai)) as [Hm|Hm];
    destruct (decide (ij ∈ safes ai)) as [Hs|Hs].
  - rw (bool_decide_false (ij ∉ safes ai)); [tauto|].
    rw (bool_decide_true (ij ∈ mines ai)) //=.
    rw bool_decide_false; [tauto|]. by rw bool_decide_true.
  - rw (bool_decide_true (ij ∉ safes ai)) //.
    rw (bool_decide_false (ij ∉ mines ai)); [tauto|].
    rw (bool_decide_true (ij ∈ mines ai)) //=.
    rw bool_decide_false; [tauto|]. by rw bool_decide_true.
  - rw (bool_decide_false (ij ∉ safes ai)); [tauto|].
    rw (bool_decide_false (ij ∈ mines ai)) //=.
    rw bool_decide_false; [tauto|]. rw bool_decide_false //. tauto.
  - rw (bool_decide_true (ij ∉ safes ai)) //.
    rw (bool_decide_true (ij ∉ mines ai)) //=.
    rw bool_decide_true //. rw bool_decide_false //. tauto.
Qed.

Lemma scan_fold_spec (ai : t) (cell : Cell) (l : list Cell)
    (acc : gset Cell * Z) :
  foldl (scan ai cell) acc l
  = (acc.1 ∪ list_to_set (filter (λ ij, (ij ≠ cell
                                   ∧ in_grid (height ai) (width ai) ij)
                                  ∧ (ij ∉ safes ai) ∧ (ij ∉ mines ai)) l),
     (acc.2 - Z.of_nat (length (filter (λ ij, (ij ≠ cell
                                   ∧ in_grid (height ai) (width ai) ij)
                                  ∧ ij ∈ mines ai) l)))%Z).
Proof.
  revert acc. induction l as [|ij l IH]; intros acc.
  - destruct acc as [N n]. rw !filter_nil /=. f_equal; [set_solver|lia].
  - change (foldl (scan ai cell) acc (ij :: l))
      with (foldl (scan ai cell) (scan ai cell acc ij) l).
    rw IH scan_one !filter_cons.
    do 2 (case_bool_decide; [rw decide_True //|rw decide_False //]);
      simpl; f_equal; rw ?list_to_set_cons; try set_solver; lia.
Qed.

Lemma scan_window (ai : t) (cell : Cell) (count : Z) :
  foldl (scan ai cell) ((∅ : gset Cell), count) (window cell)
  = (neighbours (height ai) (width ai) cell ∖ safes ai ∖ mines ai,
     (count - Z.of_nat (size (neighbours (height ai) (width ai) cell
                               ∩ mines ai)))%Z).
Proof.
  rw scan_fold_spec /=. f_equal.
  - apply set_eq. intros c.
    rw elem_of_union elem_of_list_to_set list_elem_of_filter
       !elem_of_difference neighbours_elem window_elem.
    set_solver.
  - do 2 f_equal.
    match goal with |- length ?l = _ =>
      assert (length l = size (list_to_set l : gset Cell)) as ->
        by (symmetry; apply size_list_to_set, NoDup_filter, window_NoDup)
    end.
    f_equal. apply set_eq. intros c.
    rw elem_of_list_to_set list_elem_of_filter elem_of_intersection
       neighbours_elem window_elem. tauto.
Qed.

(** ** Sentences lose only confirmed cells *)

Lemma purged_refl ai : purged ai ai.
Proof. exists ∅. split; [apply shrunk_refl|]. split; set_solver. Qed.

Lemma purged_trans a1 a2 a3 : purged a1 a2 → purged a2 a3 → purged a1 a3.
Proof.
  intros (R1 & H1 & Hc1 & Hm1) (R2 & H2 & Hc2 & Hm2).
  exists (R1 ∪ R2). split; [by eapply shrunk_trans|]. split; set_solver.
Qed.

Lemma purged_same_sets ai ai' :
  knowledge ai' = knowledge ai → mines ai' = mines ai → safes ai' = safes ai →
  purged ai ai'.
Proof.
  intros Hk Hm Hs. exists ∅. rw /shrunk /confirmed Hk Hm Hs.
  split; [|set_solver]. intros i s Hi. exists s. split; [done|set_solver].
Qed.

Lemma purged_append ai news :
  purged ai (with_knowledge (knowledge ai ++ news) ai).
Proof.
  exists ∅. split; [|rw /confirmed /=; set_solver].
  intros i s Hi. exists s. rw /=. split; [by apply lookup_app_l_Some|set_solver].
Qed.

Lemma broadcast_all_purged m l ai : purged ai (broadcast_all m l ai).
Proof.
  exists (list_to_set l). rw broadcast_all_confirmed. split; [|set_solver].
  intros i s Hi. exists (resolve_all m l s).
  rw broadcast_all_knowledge list_lookup_fmap Hi. split; [done|].
  apply resolve_all_cells.
Qed.

Lemma fire_purged s ai : purged ai (fire s ai).
Proof.
  destruct (fire_cases s ai) as [(-> & _)|(m & -> & _)];
    [apply purged_refl|apply broadcast_all_purged].
Qed.

Lemma sweep_purged ai ai' : sweep ai = Ok ai' → purged ai ai'.
Proof.
  intros Hs.
  destruct (sweep_inv (λ _ a, purged ai a) ai) as (ai2 & H & Hp & _).
  - apply purged_refl.
  - intros k a s _ _ Ha. eapply purged_trans; [done|apply fire_purged].
  - rw Hs in H. by injection H as <-.
Qed.

Lemma pass_purged ai ai' made : pass ai = Ok (ai', made) → purged ai ai'.
Proof.
  destruct (pass_unfold ai) as (ai1 & Hs & ->). intros [= <- _].
  eapply purged_trans; [by apply sweep_purged|apply purged_append].
Qed.

Lemma closure_purged fuel ai ai' : closure fuel ai = Ok ai' → purged ai ai'.
Proof.
  intros Hc.
  apply (closure_inv (λ a, purged ai a) _ _ _) in Hc; [done| |apply purged_refl].
  intros a a' made Hp Ha. eapply purged_trans; [done|by eapply pass_purged].
Qed.

Lemma observe_purged cell count ai ai' :
  observe cell count ai = Ok ai' → purged ai ai'.
Proof.
  rw observe_unfold.
  set (ai0 := mk _ _ ({[cell]} ∪ moves_made ai) _ _ _).
  set (ai1 := broadcast false cell ai0).
  set (scanned := foldl _ _ _).
  set (ai2 := if bool_decide (scanned.2 = 0%Z) then _ else _).
  set (ai3 := if _ && _ then _ else _).
  intros [= <-].
  assert (purged ai ai1) as H1.
  { eapply purged_trans; [apply (purged_same_sets ai ai0); done|].
    apply (broadcast_all_purged false [cell] ai0). }
  assert (purged ai1 ai2) as H2.
  { rw /ai2. case_bool_decide; [apply broadcast_all_purged|apply purged_refl]. }
  assert (purged ai2 ai3) as H3.
  { rw /ai3. destruct (_ && _); [apply broadcast_all_purged|apply purged_refl]. }
  eapply purged_trans; [|apply purged_append].
  eapply purged_trans; [|exact H3]. by eapply purged_trans.
Qed.

(** ** Everything stays in the grid *)

Lemma broadcast_all_within_grid m l ai :
  (∀ c, c ∈ l → in_grid (height ai) (width ai) c) →
  within_grid ai → within_grid (broadcast_all m l ai).
Proof.
  intros Hl (Hk & Hm & Hs). rw /within_grid.
  destruct (broadcast_all_frame m l ai) as (-> & -> & ->).
  rw broadcast_all_knowledge broadcast_all_mines broadcast_all_safes.
  split_and!.
  - intros s' c (s & -> & Hin)%list_elem_of_fmap Hc.
    rw resolve_all_cells in Hc. apply (Hk s); [done|set_solver].
  - intros c Hc. destruct m; [|by apply Hm].
    apply elem_of_union in Hc as [Hc%elem_of_list_to_set|Hc]; auto.
  - intros c Hc. destruct m; [by apply Hs|].
    apply elem_of_union in Hc as [Hc%elem_of_list_to_set|Hc]; auto.
Qed.

Lemma fire_within_grid s ai :
  s ∈ knowledge ai → within_grid ai → within_grid (fire s ai).
Proof.
  intros Hin Hg.
  destruct (fire_cases s ai) as [(-> & _)|(m & -> & _)]; [done|].
  apply broadcast_all_within_grid; [|done].
  intros c Hc%elem_of_elements. destruct Hg as (Hk & _). by apply (Hk s).
Qed.

Lemma sweep_within_grid ai ai' :
  sweep ai = Ok ai' → within_grid ai → within_grid ai'.
Proof.
  intros Hs Hg.
  destruct (sweep_inv (λ _ a, within_grid a) ai) as (ai2 & H & Hp & _); [done| |].
  - intros k a s Hk _ Ha. apply fire_within_grid; [|done].
    by eapply list_elem_of_lookup_2.
  - rw Hs in H. by injection H as <-.
Qed.

Lemma pass_within_grid ai ai' made :
  pass ai = Ok (ai', made) → within_grid ai → within_grid ai'.
Proof.
  destruct (pass_unfold ai) as (ai1 & Hs & ->). intros [= <- _] Hg.
  destruct (sweep_within_grid _ _ Hs Hg) as (Hk & Hm & Hsf).
  split; [|done]. intros s c [Hin|Hin]%elem_of_app Hc; [by apply (Hk s)|].
  destruct (subset_resolution_new _ _ Hin) as (a & b & _ & Hb & _ & _ & -> & _).
  apply (Hk b); [done|]. rw /difference /= in Hc. set_solver.
Qed.

Lemma closure_within_grid fuel ai ai' :
  closure fuel ai = Ok ai' → within_grid ai → within_grid ai'.
Proof. apply closure_inv. intros a a' made. apply pass_within_grid. Qed.

Lemma observe_within_grid cell count ai ai' :
  observe cell count ai = Ok ai' → within_grid ai → within_grid ai'.
Proof.
  rw observe_unfold.
  set (ai0 := mk _ _ ({[cell]} ∪ moves_made ai) _ _ _).
  set (ai1 := broadcast false cell ai0).
  rw scan_window.
  set (N := neighbours _ _ _ ∖ _ ∖ _). set (n := (count - _)%Z).
  cbn [fst snd].
  set (ai2 := if bool_decide (n = 0%Z) then _ else _).
  set (ai3 := if _ && _ then _ else _).
  intros [= <-] (Hk & Hm & Hs).
  assert (within_grid ai1) as H1.
  { split_and!.
    - intros s' c (s & -> & Hin)%list_elem_of_fmap Hc.
      rw resolve_cells in Hc. apply (Hk s); [done|set_solver].
    - done.
    - intros c [->%elem_of_singleton|Hc]%elem_of_union; [right|]; simpl.
      + set_solver.
      + destruct (Hs c Hc); [by left|right; set_solver]. }
  assert (∀ c, c ∈ elements N → in_grid (height ai1) (width ai1) c) as HN.
  { intros c Hc%elem_of_elements.
    assert (c ∈ neighbours (height ai1) (width ai1) cell) as Hn by set_solver.
    by apply neighbours_elem in Hn as (_ & ? & _). }
  assert (within_grid ai2 ∧ height ai2 = height ai1 ∧ width ai2 = width ai1)
    as (H2 & Hh2 & Hw2).
  { rw /ai2. case_bool_decide; [|done].
    destruct (broadcast_all_frame false (elements N) ai1) as (-> & -> & _).
    split; [|done]. by apply broadcast_all_within_grid. }
  assert (within_grid ai3 ∧ height ai3 = height ai1 ∧ width ai3 = width ai1)
    as ((Hk3 & Hm3 & Hs3) & Hh3 & Hw3).
  { rw /ai3. destruct (_ && _); [|done].
    destruct (broadcast_all_frame true (elements N) ai2) as (-> & -> & _).
    split; [|done]. apply broadcast_all_within_grid; [|done].
    by rw Hh2 Hw2. }
  split; [|done]. intros s c [Hin|Hin]%elem_of_app Hc.
  - by apply (Hk3 s).
  - apply list_elem_of_singleton in Hin as ->.
    simpl. rw Hh3 Hw3. apply HN. by apply elem_of_elements.
Qed.

(** ** The immediate broadcasts of [add_knowledge] *)

Lemma neighbours_not_self h w cell : cell ∉ neighbours h w cell.
Proof. intros (Hne & _)%neighbours_elem. done. Qed.

Lemma observe_marks cell count ai ai1 :
  observe cell count ai = Ok ai1 →
  let N := neighbours (height ai) (width ai) cell ∖ safes ai ∖ mines ai in
  let n := (count - Z.of_nat (size (neighbours (height ai) (width ai) cell
                                     ∩ mines ai)))%Z in
  last (knowledge ai1) = Some (Sentence.init N n)
  ∧ (n = 0%Z → N ⊆ safes ai1)
  ∧ (n = Z.of_nat (size N) → (0 < n)%Z → N ⊆ mines ai1).
Proof.
  rw observe_unfold.
  set (ai0 := mk _ _ ({[cell]} ∪ moves_made ai) _ _ _).
  set (ai1' := broadcast false cell ai0).
  rw scan_window.
  change (height ai1') with (height ai). change (width ai1') with (width ai).
  change (mines ai1') with (mines ai).
  change (safes ai1') with ({[cell]} ∪ safes ai).
  assert (neighbours (height ai) (width ai) cell ∖ ({[cell]} ∪ safes ai)
          = neighbours (height ai) (width ai) cell ∖ safes ai) as ->.
  { pose proof (neighbours_not_self (height ai) (width ai) cell). set_solver. }
  cbn [fst snd]. intros Ho.
  set (N := neighbours _ _ _ ∖ _ ∖ _) in *. set (n := (count - _)%Z) in *.
  set (ai2 := if bool_decide (n = 0%Z) then _ else _) in Ho.
  set (ai3 := if _ && _ then _ else _) in Ho.
  injection Ho as <-. split; [by rw /= last_snoc|].
  assert (safes ai2 ⊆ safes ai3 ∧ mines ai2 ⊆ mines ai3) as [Hs23 Hm23].
  { rw /ai3. destruct (_ && _); [|done].
    rw broadcast_all_safes broadcast_all_mines. set_solver. }
  split.
  - intros Hz. change (safes (with_knowledge _ ai3)) with (safes ai3).
    assert (N ⊆ safes ai2); [|set_solver].
    rw /ai2 bool_decide_true // broadcast_all_safes list_to_set_elements_L.
    set_solver.
  - intros Hn Hpos. change (mines (with_knowledge _ ai3)) with (mines ai3).
    rw /ai3 !bool_decide_true // /= broadcast_all_mines list_to_set_elements_L.
    set_solver.
Qed.

(** ** The board's own count *)

Lemma tally_fold_spec (g : Minesweeper.t) (cell : Cell) (l : list Cell) (k : Z) :
  foldl (Minesweeper.tally g cell) k l
  = (k + Z.of_nat (length (filter
        (λ ij, (ij ≠ cell
                ∧ in_grid (Minesweeper.height g) (Minesweeper.width g) ij)
               ∧ Minesweeper.board g ij = true) l)))%Z.
Proof.
  revert k. induction l as [|ij l IH]; intros k.
  - rw filter_nil /=. lia.
  - change (foldl (Minesweeper.tally g cell) k (ij :: l))
      with (foldl (Minesweeper.tally g cell) (Minesweeper.tally g cell k ij) l).
    rw IH filter_cons /Minesweeper.tally.
    destruct (decide (ij = cell)) as [->|Hne].
    { rw bool_decide_true // decide_False; [tauto|]. done. }
    rw bool_decide_false //.
    destruct (decide (in_grid (Minesweeper.height g) (Minesweeper.width g) ij))
      as [Hg|Hg].
    2: { rw (not_true_is_false _ Hg) decide_False; [tauto|]. done. }
    rw Hg. destruct (Minesweeper.board g ij) eqn:Hb.
    + rw decide_True //=. lia.
    + rw decide_False; [intros [_ ?]; congruence|]. done.
Qed.

(** ** The sentences queued by the subset rule differ from each other *)

Lemma eqb_sym a b : Sentence.eqb a b = Sentence.eqb b a.
Proof. rw /Sentence.eqb. f_equal; apply bool_decide_ext; naive_solver. Qed.

Lemma contains_false s l :
  contains s l = false ↔ ∀ x, x ∈ l → Sentence.eqb s x = false.
Proof.
  split.
  - intros Hc x Hx. destruct (Sentence.eqb s x) eqn:He; [|done].
    assert (contains s l = true) as Ht by (apply contains_true; eauto).
    congruence.
  - intros Hall. destruct (contains s l) eqn:Hc; [|done].
    apply contains_true in Hc as (x & Hx & He). rw Hall // in He.
Qed.

Lemma pairwise_unequal_snoc l x :
  pairwise_unequal l → contains x l = false → pairwise_unequal (l ++ [x]).
Proof.
  intros Hl Hx i j a b Hij Hi Hj.
  pose proof (proj1 (contains_false x l) Hx) as Hfresh.
  apply lookup_snoc_Some in Hi as [[Hi1 Hi2]|[-> <-]];
    apply lookup_snoc_Some in Hj as [[Hj1 Hj2]|[-> <-]].
  - by apply (Hl i j).
  - rw eqb_sym. apply Hfresh. by eapply list_elem_of_lookup_2.
  - apply Hfresh. by eapply list_elem_of_lookup_2.
  - done.
Qed.

Lemma infer_fold_unequal kb pairs acc :
  pairwise_unequal acc → pairwise_unequal (foldl (infer kb) acc pairs).
Proof.
  revert acc. induction pairs as [|p pairs IH]; intros acc Hacc; [done|].
  simpl. apply IH. rw /infer.
  destruct (negb _ && bool_decide _); [|done].
  destruct (contains _ kb); [done|]. simpl.
  destruct (contains _ acc) eqn:Hc; [done|]. simpl.
  by apply pairwise_unequal_snoc.
Qed.

Lemma observe_mono cell count ai ai1 :
  observe cell count ai = Ok ai1 →
  mines ai ⊆ mines ai1 ∧ safes ai ⊆ safes ai1.
Proof.
  rw observe_unfold.
  set (ai0 := mk _ _ ({[cell]} ∪ moves_made ai) _ _ _).
  set (ai1' := broadcast false cell ai0).
  set (scanned := foldl _ _ _).
  set (ai2 := if bool_decide (scanned.2 = 0%Z) then _ else _).
  set (ai3 := if _ && _ then _ else _).
  intros [= <-].
  assert (mines ai ⊆ mines ai2 ∧ safes ai ⊆ safes ai2) as [Hm2 Hs2].
  { rw /ai2. case_bool_decide;
      rw ?broadcast_all_mines ?broadcast_all_safes /=; set_solver. }
  rw /= /ai3. destruct (_ && _);
    rw ?broadcast_all_mines ?broadcast_all_safes; set_solver.
Qed.

Lemma add_knowledge_frame fuel cell count ai ai' :
  add_knowledge fuel cell count ai = Ok ai' →
  height ai' = height ai ∧ width ai' = width ai
  ∧ moves_made ai' = {[cell]} ∪ moves_made ai
  ∧ mines ai ⊆ mines ai' ∧ safes ai ⊆ safes ai'.
Proof.
  rw /add_knowledge. destruct (observe_ok cell count ai) as [ai1 Ho].
  rw Ho /=. intros Hc.
  destruct (observe_records _ _ _ _ Ho) as (Hh & Hw & Hm & _ & _).
  destruct (observe_mono _ _ _ _ Ho) as [Hmi Hsa].
  destruct (closure_frame _ _ _ Hc) as (Hh' & Hw' & Hm' & Hmi' & Hsa').
  split_and!; [congruence..|set_solver|set_solver].
Qed.

Lemma add_knowledge_within_grid fuel cell count ai ai' :
  add_knowledge fuel cell count ai = Ok ai' → within_grid ai → within_grid ai'.
Proof.
  rw /add_knowledge. destruct (observe_ok cell count ai) as [ai1 Ho].
  rw Ho /=. intros Hc Hg. eapply closure_within_grid; [done|].
  by eapply observe_within_grid.
Qed.

Lemma runs_within_grid ai obs ai' :
  runs ai obs ai' → within_grid ai →
  within_grid ai' ∧ height ai' = height ai ∧ width ai' = width ai.
Proof.
  induction 1 as [|ai o obs fuel ai1 ai2 Hadd Hruns IH]; [done|].
  intros Hg. destruct (add_knowledge_frame _ _ _ _ _ Hadd) as (Hh & Hw & _).
  destruct IH as (? & ? & ?); [by eapply add_knowledge_within_grid|].
  split; [done|]. split; congruence.
Qed.

Lemma all_cells_elem ai (c : Cell) :
  c ∈ all_cells ai ↔ in_grid (height ai) (width ai) c.
Proof.
  destruct c as [i j]. rw /all_cells elem_of_list_to_set list_elem_of_bind.
  setoid_rewrite list_elem_of_bind. setoid_rewrite list_elem_of_singleton.
  rw /range in_grid_spec. setoid_rewrite elem_of_seqZ. simpl. split.
  - intros (i' & (j' & [= -> ->] & Hj) & Hi). lia.
  - intros [Hi Hj]. exists i. split; [|lia]. exists j. split; [done|lia].
Qed.

Lemma closure_at_rest ai :
  quiescent ai → subset_resolution (knowledge ai) = [] →
  pass ai = Ok (ai, false).
Proof.
  intros Hq Hn. rw /pass sweep_quiescent //= Hn app_nil_r. by destruct ai.
Qed.

Lemma init_within_grid (h w : Z) : within_grid (init h w).
Proof.
  split_and!.
  - intros s c Hs. by apply elem_of_nil in Hs.
  - intros c Hc. by apply elem_of_empty in Hc.
  - intros c Hc. by apply elem_of_empty in Hc.
Qed.

Lemma runs_moves_made ai obs ai' :
  runs ai obs ai' → moves_made ai' = list_to_set obs.*1 ∪ moves_made ai.
Proof.
  induction 1 as [|ai o obs fuel ai1 ai2 Hadd Hruns IH].
  - simpl. by rw left_id_L.
  - destruct (add_knowledge_frame _ _ _ _ _ Hadd) as (_ & _ & Hm & _).
    rw IH Hm fmap_cons list_to_set_cons. apply set_eq. intros x.
    rw !elem_of_union. tauto.
Qed.

(** After a run from a fresh engine, a cell of [safes] that was not observed
    lies in the grid. *)
Lemma runs_safes_in_grid (h w : Z) obs ai' (c : Cell) :
  runs (init h w) obs ai' → c ∈ safes ai' → c ∉ moves_made ai' →
  in_grid h w c.
Proof.
  intros Hruns Hs Hn.
  destruct (runs_within_grid _ _ _ Hruns (init_within_grid h w))
    as ((_ & _ & Hsg) & Hh & Hw).
  simpl in Hh, Hw. rw Hh Hw in Hsg. by destruct (Hsg c Hs).
Qed.

Lemma nearby_mines_filter (g : Minesweeper.t) (cell : Cell) :
  Minesweeper.nearby_mines g cell
  = Z.of_nat (size (filter (λ c, Minesweeper.board g c = true)
                     (neighbours (Minesweeper.height g) (Minesweeper.width g)
                                 cell))).
Proof.
  rw /Minesweeper.nearby_mines tally_fold_spec Z.add_0_l. f_equal.
  match goal with |- length ?l = _ =>
    assert (length l = size (list_to_set l : gset Cell)) as ->
      by (symmetry; apply size_list_to_set, NoDup_filter, window_NoDup)
  end.
  f_equal. apply set_eq. intros c.
  rw elem_of_list_to_set list_elem_of_filter elem_of_filter
     neighbours_elem window_elem. tauto.
Qed.

(** ** The game *)

Lemma position_spec (n : nat) (i : Z) :
  Game.position n i
  = if in_range (wrap i (Z.of_nat n)) (Z.of_nat n)
    then Some (Z.to_nat (wrap i (Z.of_nat n))) else None.
Proof. done. Qed.

Lemma position_in_range (n : nat) (i : Z) :
  (0 ≤ i < Z.of_nat n)%Z → Game.position n i = Some (Z.to_nat i).
Proof.
  intros Hi. rw position_spec /wrap /in_range.
  destruct (Z.ltb_spec i 0); [lia|].
  destruct (Z.leb_spec 0 i); [|lia]. destruct (Z.ltb_spec i (Z.of_nat n)); [done|lia].
Qed.

Lemma getitem_lookup {A} (l : list A) (i : Z) (x : A) :
  (0 ≤ i)%Z → l !! Z.to_nat i = Some x → Game.getitem l i = Game.Returns x.
Proof.
  intros Hi Hx. pose proof (lookup_lt_Some _ _ _ Hx).
  rw /Game.getitem position_in_range; [lia|]. by rw /= Hx.
Qed.

Lemma setitem_insert {A} (l : list A) (i : Z) (x : A) :
  (0 ≤ i < Z.of_nat (length l))%Z →
  Game.setitem l i x = Game.Returns (<[Z.to_nat i := x]> l).
Proof. intros Hi. by rw /Game.setitem position_in_range. Qed.

Lemma grid_elem h w (c : Cell) : c ∈ grid h w ↔ in_grid h w c.
Proof.
  rw /grid /range in_grid_spec list_elem_of_bind. split.
  - intros (i & (j & ->%list_elem_of_singleton & Hj%elem_of_seqZ)%list_elem_of_bind
              & Hi%elem_of_seqZ). simpl. lia.
  - intros Hc. exists c.1. split; [|apply elem_of_seqZ; lia].
    apply list_elem_of_bind. exists c.2. split; [|apply elem_of_seqZ; lia].
    destruct c. apply list_elem_of_singleton. done.
Qed.

Lemma grid_length h w : length (grid h w) = Z.to_nat h * Z.to_nat w.
Proof.
  rw /grid /range !Z.sub_0_r.
  assert (∀ l : list Z,
    length (i ← l; j ← seqZ 0 w; [(i, j)]) = length l * Z.to_nat w) as Hl.
  { induction l as [|i l IH]; [done|].
    change (length ((j ← seqZ 0 w; [(i, j)]) ++ (i ← l; j ← seqZ 0 w; [(i, j)]))
            = S (length l) * Z.to_nat w).
    rw length_app IH. f_equal.
    assert (∀ k : list Z, length (j ← k; [(i, j)]) = length k) as ->.
    { induction k as [|j k IHk]; [done|]. simpl. by rw IHk. }
    by rw length_seqZ. }
  by rw Hl length_seqZ.
Qed.

Lemma grid_NoDup h w : NoDup (grid h w).
Proof.
  rw /grid /range. apply NoDup_bind.
  - intros i1 i2 c _ _ (j1 & ->%list_elem_of_singleton & _)%list_elem_of_bind
      (j2 & Heq%list_elem_of_singleton & _)%list_elem_of_bind. congruence.
  - intros i _. apply NoDup_bind.
    + intros j1 j2 c _ _ ->%list_elem_of_singleton Heq%list_elem_of_singleton.
      congruence.
    + intros j _. apply NoDup_singleton.
    + apply NoDup_seqZ.
  - apply NoDup_seqZ.
Qed.

Lemma grid_bound (h w : Z) (X : gset Cell) :
  (∀ c, c ∈ X → in_grid h w c) → size X ≤ Z.to_nat h * Z.to_nat w.
Proof.
  intros HX. rw -grid_length. rw /size /set_size /=.
  change (length (elements X) ≤ length (grid h w)).
  apply submseteq_length, NoDup_submseteq; [apply NoDup_elements|].
  intros c Hc%elem_of_elements. by apply grid_elem, HX.
Qed.

Lemma insert_as_alter {A} (f : A → A) (l : list A) (i : nat) (x : A) :
  l !! i = Some x → <[i := f x]> l = alter f i l.
Proof.
  intros Hx. apply list_eq. intros k. destruct (decide (i = k)) as [<-|Hne].
  - rw list_lookup_insert_eq; [by eapply lookup_lt_Some|].
    by rw list_lookup_alter_eq Hx.
  - by rw list_lookup_insert_ne // list_lookup_alter_ne.
Qed.

Lemma well_formed_fresh (h w : Z) :
  well_formed (Game.mk h w ∅ (replicate (Z.to_nat h)
                                        (replicate (Z.to_nat w) false)) ∅).
Proof.
  split_and!; simpl.
  - by rw length_replicate.
  - intros i row [-> _]%lookup_replicate. split; [by rw length_replicate|].
    intros j b [-> _]%lookup_replicate. by rw bool_decide_false.
  - intros c Hc. by apply elem_of_empty in Hc.
Qed.

Lemma lay_well_formed (c : Cell) (g : Game.t) :
  well_formed g → in_grid (Game.height g) (Game.width g) c →
  well_formed (lay c g).
Proof.
  intros (Hlen & Hrows & Hmines) Hc. split_and!; simpl.
  - by rw length_alter.
  - intros i row. destruct (decide (Z.to_nat c.1 = i)) as [<-|Hne].
    + rw list_lookup_alter_eq. intros Hr.
      destruct (Game.board g !! Z.to_nat c.1) as [row0|] eqn:Hrow0; [|done].
      injection Hr as <-. destruct (Hrows _ _ Hrow0) as [Hl Hb].
      split; [by rw length_insert|]. intros j b.
      apply in_grid_spec in Hc.
      destruct (decide (Z.to_nat c.2 = j)) as [<-|Hnj].
      * rw list_lookup_insert_eq; [lia|]. intros [= <-].
        rw bool_decide_true //. apply elem_of_union_l, elem_of_singleton.
        destruct c as [c1 c2]. simpl in *. f_equal; lia.
      * rw list_lookup_insert_ne //. intros Hj. rw (Hb _ _ Hj).
        apply bool_decide_ext. rw elem_of_union elem_of_singleton.
        split; [by right|]. intros [Heq|?]; [|done]. exfalso. apply Hnj.
        rw -Heq /=. lia.
    + rw list_lookup_alter_ne //. intros Hr. destruct (Hrows _ _ Hr) as [Hl Hb].
      split; [done|]. intros j b Hj. rw (Hb _ _ Hj).
      apply bool_decide_ext. rw elem_of_union elem_of_singleton.
      split; [by right|]. intros [Heq|?]; [|done]. exfalso. apply Hne.
      rw -Heq /=. lia.
  - intros x [->%elem_of_singleton|Hx]%elem_of_union; [done|by apply Hmines].
Qed.

Lemma drawn_in_grid (g : Game.t) (d : nat * nat) :
  (0 < Game.height g)%Z → (0 < Game.width g)%Z →
  in_grid (Game.height g) (Game.width g) (drawn g d).
Proof.
  intros Hh Hw. apply in_grid_spec. rw /drawn /=.
  pose proof (Z.mod_pos_bound (Z.of_nat d.1) (Game.height g) Hh).
  pose proof (Z.mod_pos_bound (Z.of_nat d.2) (Game.width g) Hw). lia.
Qed.

(** The board entry of a grid cell. *)
Lemma well_formed_entry (g : Game.t) (c : Cell) :
  well_formed g → in_grid (Game.height g) (Game.width g) c →
  ∃ row, Game.board g !! Z.to_nat c.1 = Some row
    ∧ length row = Z.to_nat (Game.width g)
    ∧ row !! Z.to_nat c.2 = Some (bool_decide (c ∈ Game.mines g)).
Proof.
  intros (Hlen & Hrows & _) Hc%in_grid_spec.
  destruct (lookup_lt_is_Some_2 (Game.board g) (Z.to_nat c.1)) as [row Hrow];
    [lia|].
  destruct (Hrows _ _ Hrow) as [Hl Hb]. exists row. split_and!; [done..|].
  destruct (lookup_lt_is_Some_2 row (Z.to_nat c.2)) as [b Hbj]; [lia|].
  rw Hbj (Hb _ _ Hbj). do 2 f_equal. destruct c as [c1 c2]. simpl in *.
  apply bool_decide_ext. by rw !Z2Nat.id; [lia..|].
Qed.

(** One iteration of the placement loop. *)
Lemma place_unfold wanted (d : nat * nat) draws (g : Game.t) :
  well_formed g → Z.of_nat (size (Game.mines g)) ≠ wanted →
  Game.place wanted (d :: draws) g
  = if bool_decide (0 < Game.height g ∧ 0 < Game.width g)%Z
    then Game.place wanted draws
           (if bool_decide (drawn g d ∈ Game.mines g) then g
            else lay (drawn g d) g)
    else Game.Raises Game.ValueError.
Proof.
  intros Hwf Hsize. rw {1}/Game.place bool_decide_false //. fold Game.place.
  rw /Game.randrange. destruct (Z.leb_spec (Game.height g) 0) as [Hh|Hh].
  { rw bool_decide_false //. lia. }
  rw {1}/mbind {1}/Game.outcome_bind.
  destruct (Z.leb_spec (Game.width g) 0) as [Hw|Hw].
  { rw bool_decide_false //. lia. }
  rw bool_decide_true //.
  rw {1}/mbind {1}/Game.outcome_bind.
  pose proof (drawn_in_grid g d Hh Hw) as Hin.
  destruct (well_formed_entry g _ Hwf Hin) as (row & Hrow & Hl & Hb).
  pose proof Hin as Hin'%in_grid_spec. rw /drawn /= in Hin' Hrow Hb.
  rw (getitem_lookup _ _ _ _ Hrow); [lia|].
  rw {1}/mbind {1}/Game.outcome_bind.
  rw (getitem_lookup _ _ _ _ Hb); [lia|].
  rw {1}/mbind {1}/Game.outcome_bind.
  fold (drawn g d). destruct (bool_decide (drawn g d ∈ Game.mines g)); [done|].
  rw setitem_insert; [lia|]. rw {1}/mbind {1}/Game.outcome_bind.
  rw setitem_insert. { destruct Hwf as [-> _]. lia. }
  rw {1}/mbind {1}/Game.outcome_bind.
  by rw (insert_as_alter (<[_ := true]>) _ _ _ Hrow).
Qed.

Lemma place_done wanted draws (g : Game.t) :
  Z.of_nat (size (Game.mines g)) = wanted →
  Game.place wanted draws g = Game.Returns g.
Proof. intros Hs. destruct draws; by rw /= bool_decide_true. Qed.

Lemma place_next_well_formed (g : Game.t) (d : nat * nat) :
  well_formed g → (0 < Game.height g)%Z → (0 < Game.width g)%Z →
  well_formed (if bool_decide (drawn g d ∈ Game.mines g) then g
               else lay (drawn g d) g).
Proof.
  intros Hwf Hh Hw. destruct (bool_decide _); [done|].
  apply lay_well_formed; [done|by apply drawn_in_grid].
Qed.

(** What holds when the placement loop returns. *)
Lemma place_returns wanted draws (g g' : Game.t) :
  Game.place wanted draws g = Game.Returns g' → well_formed g →
  well_formed g' ∧ Game.height g' = Game.height g
  ∧ Game.width g' = Game.width g
  ∧ Game.mines_found g' = Game.mines_found g
  ∧ Z.of_nat (size (Game.mines g')) = wanted.
Proof.
  revert g. induction draws as [|d draws IH]; intros g Hp Hwf.
  - revert Hp. rw /=. case_bool_decide; [|done]. by intros [= <-].
  - destruct (decide (Z.of_nat (size (Game.mines g)) = wanted)) as [Hs|Hs].
    { rw place_done // in Hp. by injection Hp as <-. }
    rw place_unfold // in Hp. revert Hp. case_bool_decide as Hdim; [|done].
    intros Hp. destruct Hdim as [Hh Hw].
    destruct (IH _ Hp (place_next_well_formed g d Hwf Hh Hw))
      as (Hwf' & -> & -> & -> & Hsz).
    split_and!; [done| | | |done]; by destruct (bool_decide _).
Qed.

(** The loop cannot end when the wanted number is negative or exceeds the
    number of cells. *)
Lemma place_starves wanted draws (g : Game.t) :
  well_formed g → (0 < Game.height g)%Z → (0 < Game.width g)%Z →
  (wanted < Z.of_nat (size (Game.mines g))
   ∨ Game.height g * Game.width g < wanted)%Z →
  Game.place wanted draws g = Game.OutOfDraws.
Proof.
  revert g. induction draws as [|d draws IH]; intros g Hwf Hh Hw Hout.
  all: assert (Z.of_nat (size (Game.mines g)) ≠ wanted) as Hs.
  1,3: destruct Hwf as (_ & _ & Hin);
       pose proof (grid_bound _ _ _ Hin) as Hb; nia.
  - by rw /= bool_decide_false.
  - rw place_unfold // bool_decide_true //.
    apply IH; [by apply place_next_well_formed|by destruct (bool_decide _)..|].
    destruct (bool_decide _) eqn:Hd; [done|]. simpl. destruct Hout as [Hlt|?]; [|by right].
    left. pose proof (subseteq_size (Game.mines g)
                        ({[drawn g d]} ∪ Game.mines g)) as Hsub.
    assert (Game.mines g ⊆ {[drawn g d]} ∪ Game.mines g) as Hincl
      by apply union_subseteq_r.
    specialize (Hsub Hincl). lia.
Qed.

(** Draws that pick the cells of [l], which are free, one after the
    other. *)
Lemma place_reaches (l : list Cell) (g : Game.t) :
  well_formed g → NoDup l →
  (∀ c, c ∈ l → in_grid (Game.height g) (Game.width g) c
                ∧ c ∉ Game.mines g) →
  ∃ g', Game.place (Z.of_nat (size (Game.mines g) + length l))
                   (draws_for l) g = Game.Returns g'
    ∧ Game.mines g' = list_to_set l ∪ Game.mines g.
Proof.
  revert g. induction l as [|c l IH]; intros g Hwf Hnd Hl.
  - exists g. split; [apply place_done; simpl; lia|].
    simpl. by rw left_id_L.
  - apply NoDup_cons in Hnd as [Hc Hnd].
    destruct (Hl c) as [Hin Hfree]; [by left|].
    pose proof Hin as Hin'%in_grid_spec.
    assert (drawn g (Z.to_nat c.1, Z.to_nat c.2) = c) as Hd.
    { rw /drawn /= !Z2Nat.id; [lia..|]. rw !Z.mod_small; [lia..|].
      by destruct c. }
    change (draws_for (c :: l))
      with ((Z.to_nat c.1, Z.to_nat c.2) :: draws_for l).
    rw place_unfold //. { simpl. lia. }
    rw bool_decide_true; [lia|]. rw Hd bool_decide_false //.
    destruct (IH (lay c g)) as (g' & Hp & Hm).
    + by apply lay_well_formed.
    + done.
    + intros x Hx. destruct (Hl x) as [? ?]; [by right|]. split; [done|].
      simpl. intros [->%elem_of_singleton|?]%elem_of_union; done.
    + exists g'. split.
      * rw -Hp. f_equal. simpl. rw size_union; [set_solver|].
        rw size_singleton. lia.
      * rw Hm /=. rw assoc_L. f_equal. apply (comm_L (∪)).
Qed.

Lemma wrap_length (i n : Z) :
  in_range (wrap i (Z.of_nat (Z.to_nat n))) (Z.of_nat (Z.to_nat n))
  = in_range (wrap i n) n
  ∧ (in_range (wrap i n) n = true → wrap i (Z.of_nat (Z.to_nat n)) = wrap i n).
Proof.
  rw /in_range /wrap. destruct (Z.ltb_spec i 0).
  all: repeat match goal with
       | |- context [(?a <=? ?b)%Z] => destruct (Z.leb_spec a b)
       | |- context [(?a <? ?b)%Z] => destruct (Z.ltb_spec a b)
       end; simpl; split; try done; try lia.
Qed.

Lemma getitem_spec {A} (l : list A) (n i : Z) :
  length l = Z.to_nat n →
  Game.getitem l i
  = if in_range (wrap i n) n
    then match l !! Z.to_nat (wrap i n) with
         | Some x => Game.Returns x
         | None => Game.Raises Game.IndexError
         end
    else Game.Raises Game.IndexError.
Proof.
  intros Hl. rw /Game.getitem Hl position_spec.
  destruct (wrap_length i n) as [-> Hw].
  destruct (in_range (wrap i n) n); [|done]. by rw /= Hw.
Qed.

Lemma is_mine_spec (g : Game.t) (i j : Z) :
  well_formed g →
  Game.is_mine g (i, j)
  = if in_range (wrap i (Game.height g)) (Game.height g)
       && in_range (wrap j (Game.width g)) (Game.width g)
    then Game.Returns
           (bool_decide ((wrap i (Game.height g), wrap j (Game.width g))
                         ∈ Game.mines g))
    else Game.Raises Game.IndexError.
Proof.
  intros Hwf. rw /Game.is_mine /=.
  rw (getitem_spec _ (Game.height g)); [by destruct Hwf|].
  destruct (in_range (wrap i _) _) eqn:Hi; [|done].
  destruct (in_range (wrap j (Game.width g)) (Game.width g)) eqn:Hj.
  - destruct (well_formed_entry g (wrap i (Game.height g),
                                   wrap j (Game.width g)) Hwf)
      as (row & Hrow & Hl & Hb). { by rw /in_grid /= Hi Hj. }
    simpl in Hrow, Hb. rw Hrow /=.
    by rw (getitem_spec _ (Game.width g)) // Hj Hb.
  - destruct Hwf as (Hlen & Hrows & _).
    destruct (lookup_lt_is_Some_2 (Game.board g)
                (Z.to_nat (wrap i (Game.height g)))) as [row Hrow].
    { rw /in_range in Hi. lia. }
    rw Hrow /=. destruct (Hrows _ _ Hrow) as [Hl _].
    by rw (getitem_spec _ (Game.width g)) // Hj.
Qed.

Lemma in_range_wrap (i n : Z) : in_range i n = true → wrap i n = i.
Proof. rw /in_range /wrap. destruct (Z.ltb_spec i 0); [lia|done]. Qed.

Lemma tally_refines (g : Game.t) (cell ij : Cell) (count : Z) :
  well_formed g →
  Game.tally g cell ij count
  = Game.Returns (Minesweeper.tally (abstraction g) cell count ij).
Proof.
  intros Hwf. rw /Game.tally /Minesweeper.tally /=.
  case_bool_decide; [done|].
  destruct (in_range ij.1 _ && in_range ij.2 _) eqn:Hin; [|done].
  destruct (well_formed_entry g ij Hwf Hin) as (row & Hrow & Hl & Hb).
  apply andb_true_iff in Hin as [Hi Hj]. rw /in_range in Hi Hj.
  rw (getitem_lookup _ _ _ _ Hrow); [lia|].
  rw {1}/mbind {1}/Game.outcome_bind.
  rw (getitem_lookup _ _ _ _ Hb); [lia|]. done.
Qed.

Lemma nearby_mines_refines (g : Game.t) (cell : Cell) :
  well_formed g →
  Game.nearby_mines g cell
  = Game.Returns (Minesweeper.nearby_mines (abstraction g) cell).
Proof.
  intros Hwf. rw /Game.nearby_mines /Minesweeper.nearby_mines.
  generalize 0%Z. induction (window cell) as [|ij l IH]; intros k; [done|].
  rw /= tally_refines //. apply IH.
Qed.

Lemma init_returns h w m draws (g : Game.t) :
  Game.init h w m draws = Game.Returns g →
  well_formed g ∧ Game.height g = h ∧ Game.width g = w
  ∧ Game.mines_found g = ∅ ∧ Z.of_nat (size (Game.mines g)) = m.
Proof.
  intros Hi. by apply place_returns in Hi; [|apply well_formed_fresh].
Qed.

Lemma observation_truthful (g : Game.t) (o : Cell * Z) :
  well_formed g →
  Game.is_mine g o.1 = Game.Returns false →
  Game.nearby_mines g o.1 = Game.Returns o.2 →
  truthful (abstraction g) o.
Proof.
  intros Hwf Hm Hn. rw nearby_mines_refines // in Hn. injection Hn as Hn.
  split; [|done]. rw /Minesweeper.is_mine /=. apply bool_decide_eq_false.
  intros Hin. destruct Hwf as (Hlen & Hrows & Hg).
  pose proof (Hg _ Hin) as [Hi Hj]%andb_true_iff.
  destruct o as [[i j] n]. simpl in *.
  rw is_mine_spec // in Hm.
  rw (in_range_wrap _ _ Hi) (in_range_wrap _ _ Hj) Hi Hj /= in Hm.
  rw bool_decide_true // in Hm.
Qed.

(** * The claims *)

(** Decidable closed facts are settled by evaluation. *)
Ltac by_evaluation := refine (bool_decide_unpack _ _); vm_compute; exact I.

(** ** Sentence *)

(** C8: [known_mines] returns the full cell set exactly when the count
    equals the number of cells and is not zero, and the empty set otherwise;
    [known_safes] returns the full cell set exactly when the count is zero,
    and the empty set otherwise.  A non-empty answer of [known_mines] forces
    [count = |cells| > 0], a non-empty answer of [known_safes] forces
    [count = 0], and the sentence without cells and with count 0 has no
    known mine. *)
Theorem known_cells_characterised (s : Sentence.t) :
  Sentence.known_mines s
  = (if bool_decide (Sentence.count s = Z.of_nat (size (Sentence.cells s))
                     ∧ Sentence.count s ≠ 0%Z)
     then Sentence.cells s else ∅)
  ∧ Sentence.known_safes s
    = (if bool_decide (Sentence.count s = 0%Z) then Sentence.cells s else ∅)
  ∧ (Sentence.known_mines s ≠ ∅ →
     Sentence.count s = Z.of_nat (size (Sentence.cells s))
     ∧ (0 < Sentence.count s)%Z)
  ∧ (Sentence.known_safes s ≠ ∅ → Sentence.count s = 0%Z)
  ∧ (Sentence.cells s = ∅ → Sentence.count s = 0%Z →
     Sentence.known_mines s = ∅).
Proof.
  split_and!.
  - rw /Sentence.known_mines. repeat case_bool_decide; simpl; try done; tauto.
  - done.
  - intros Hne. destruct (known_mines_cases s) as [[? _]|(_ & _ & Hc & Hn)];
      [done|]. split; [done|].
    assert (size (Sentence.cells s) ≠ 0)
      by (intros Hz; by apply Hc, leibniz_equiv, size_empty_inv). lia.
  - intros Hne. by destruct (known_safes_cases s) as [[? _]|(_ & _ & _ & ?)].
  - intros He Hz. rw /Sentence.known_mines He. by repeat case_match.
Qed.

Lemma known_cells_characterised_witness :
  Sentence.known_mines (Sentence.init {[(0, 0); (0, 1)]}%Z 2) ≠ ∅
  ∧ Sentence.count (Sentence.init {[(0, 0); (0, 1)]}%Z 2) = 2%Z
  ∧ Sentence.known_safes (Sentence.init {[(0, 0)]}%Z 0) ≠ ∅
  ∧ Sentence.known_mines (Sentence.init ∅ 0) = ∅.
Proof.
  assert (Sentence.known_mines (Sentence.init {[(0, 0); (0, 1)]}%Z 2) ≠ ∅)
    as H1 by by_evaluation.
  assert (Sentence.known_safes (Sentence.init {[(0, 0)]}%Z 0) ≠ ∅)
    as H2 by by_evaluation.
  split; [exact H1|]. split; [reflexivity|]. split; [exact H2|].
  exact (proj2 (proj2 (proj2 (proj2
    (known_cells_characterised (Sentence.init ∅ 0))))) eq_refl eq_refl).
Defined.

(** C7: starting from sentences that are true in a board, any sequence of
    [mark_mine]/[mark_safe] calls, each on a cell that has that status in
    the board, returns without an exception and leaves every sentence with
    [0 ≤ count ≤ |cells|]; this holds for the calls on one sentence and for
    the engine's broadcasts to the whole knowledge base. *)
Theorem resolution_keeps_count_in_bounds (b : Cell → bool)
    (ops : list (bool * Cell)) :
  Forall (proven b) ops →
  (∀ s, sentence_true b s →
     ∃ s', for_each resolve_call ops s = Ok s'
       ∧ (0 ≤ Sentence.count s' ≤ Z.of_nat (size (Sentence.cells s')))%Z)
  ∧ (∀ ai, kb_true b ai →
     ∃ ai', for_each broadcast_call ops ai = Ok ai'
       ∧ ∀ s, s ∈ knowledge ai' →
           (0 ≤ Sentence.count s ≤ Z.of_nat (size (Sentence.cells s)))%Z).
Proof.
  intros Hops. split.
  - intros s Hs.
    destruct (for_each_inv (λ _ s', sentence_true b s') resolve_call ops s)
      as (s' & Hr & Ht); [done| |].
    + intros k [m c] s1 Hk H1.
      eapply Forall_lookup_1 in Hops; [|done]. rw /proven /= in Hops.
      exists (resolve m c s1). split; [|by apply (resolve_true b)].
      rw /resolve_call /=.
      destruct m; [apply Sentence_mark_mine_ok|apply Sentence_mark_safe_ok].
    + exists s'. split; [done|]. by apply (true_sentence_bounds b).
  - intros ai Hkb.
    destruct (for_each_inv (λ _ a, kb_true b a) broadcast_call ops ai)
      as (ai' & Hr & Ht); [done| |].
    + intros k [m c] a Hk Ha.
      eapply Forall_lookup_1 in Hops; [|done]. rw /proven /= in Hops.
      exists (broadcast_all m [c] a). split.
      * rw /broadcast_call /=. destruct m; [apply mark_mine_ok|apply mark_safe_ok].
      * apply broadcast_all_kb_true; [|done].
        by intros c' ->%list_elem_of_singleton.
    + exists ai'. split; [done|]. intros s Hs.
      apply (true_sentence_bounds b). rw /kb_true Forall_forall in Ht.
      by apply Ht.
Qed.

Lemma resolution_keeps_count_in_bounds_witness :
  Forall (proven (Minesweeper.board corner_game))
         [(true, (0, 0)); (false, (0, 1))]%Z
  ∧ kb_true (Minesweeper.board corner_game) scenario3
  ∧ ∃ ai', for_each broadcast_call [(true, (0, 0)); (false, (0, 1))]%Z scenario3
           = Ok ai'
      ∧ ∀ s, s ∈ knowledge ai' →
          (0 ≤ Sentence.count s ≤ Z.of_nat (size (Sentence.cells s)))%Z.
Proof.
  assert (Forall (proven (Minesweeper.board corner_game))
                 [(true, (0, 0)); (false, (0, 1))]%Z) as Hops.
  { repeat constructor. }
  assert (kb_true (Minesweeper.board corner_game) scenario3) as Hkb.
  { repeat constructor. }
  split; [exact Hops|]. split; [exact Hkb|].
  exact (proj2 (resolution_keeps_count_in_bounds _ _ Hops) scenario3 Hkb).
Defined.

(** ** The closure loop *)

(** C1, on the failing input: on the 1 x 5 board with its mine at (0, 2),
    after the truthful observations (0,1) -> 1, (0,3) -> 1, (0,4) -> 0 have
    all returned, the knowledge base holds a sentence whose [known_safes]
    is {(0,0)} while (0,0) is not in [safes]; one more pass of the loop
    adds no sentence and still marks (0,0) safe.  The state in which
    [add_knowledge] returned is not a fixed point of the closure: the
    broadcasts of step (a) do not set [made_inference]. *)
Theorem closure_returns_before_fixed_point :
  Forall (truthful line_game) line_observations
  ∧ ∃ ai3 ai4 s,
      runs (init 1 5) line_observations ai3
      ∧ knowledge ai3 !! 0%nat = Some s
      ∧ Sentence.known_safes s = {[(0, 0)%Z]}
      ∧ ((0, 0)%Z ∉ safes ai3)
      ∧ pass ai3 = Ok (ai4, false)
      ∧ (0, 0)%Z ∈ safes ai4
      ∧ closure 1 ai3 = Ok ai4.
Proof.
  split; [repeat constructor|].
  eexists _, _, _. split.
  { eapply (runs_cons _ _ _ 1%nat); [vm_compute; reflexivity|].
    eapply (runs_cons _ _ _ 1%nat); [vm_compute; reflexivity|].
    eapply (runs_cons _ _ _ 1%nat); [vm_compute; reflexivity|].
    apply runs_nil. }
  split; [vm_compute; reflexivity|]. split; [by_evaluation|].
  split; [by_evaluation|].
  split; [vm_compute; reflexivity|]. split; [by_evaluation|].
  vm_compute; reflexivity.
Qed.

(** C2, counterexample: on a 1 x 1 board the observation ((0,0), 1) returns,
    and the following observation ((0,0), 0) never does: every pass of the
    loop derives a new sentence. *)
Lemma contradictory_observation_loops :
  ∃ ai1, add_knowledge 1 (0, 0)%Z 1 (init 1 1) = Ok ai1
    ∧ ¬ (∃ fuel ai', add_knowledge fuel (0, 0)%Z 0 ai1 = Ok ai').
Proof.
  eexists. split; [vm_compute; reflexivity|].
  intros (fuel & ai' & Hadd). revert Hadd. rw /add_knowledge.
  match goal with |- context [observe ?c ?n ?a] =>
    assert (∃ ai2, observe c n a = Ok ai2
              ∧ knowledge ai2 = [Sentence.init ∅ 1; Sentence.init ∅ 0])
      as (ai2 & -> & Hkb) by (eexists; split; vm_compute; reflexivity)
  end.
  rw /= closure_diverges //.
  - rw Hkb. intros s Hs. repeat (apply elem_of_cons in Hs as [->|Hs]; [done|]).
    by apply elem_of_nil in Hs.
  - rw Hkb. exists (Sentence.init ∅ 1), (Sentence.init ∅ 0).
    split; [left|]. split; [right; left|done].
Qed.

(** C2, amended: when the engine state is true in a board and the
    observation is read from that board (the cell is not a mine and the
    count is the board's count of neighbouring mines), the loop of
    [add_knowledge] ends after finitely many passes, and the new state is
    again true in the board. *)
Theorem truthful_observation_terminates g ai (cell : Cell) (count : Z) :
  models g ai → truthful g (cell, count) →
  ∃ fuel ai', add_knowledge fuel cell count ai = Ok ai' ∧ models g ai'.
Proof.
  intros Hm Ht.
  destruct (add_knowledge_returns g ai cell count Hm Ht) as (fuel & ai' & Hadd).
  exists fuel, ai'. split; [done|]. by eapply add_knowledge_models.
Qed.

Lemma truthful_observation_terminates_witness :
  models line_game (init 1 5) ∧ truthful line_game ((0, 1), 1)%Z
  ∧ ∃ fuel ai', add_knowledge fuel (0, 1)%Z 1 (init 1 5) = Ok ai'
                ∧ models line_game ai'.
Proof.
  assert (models line_game (init 1 5)) as Hm by apply (init_models line_game).
  assert (truthful line_game ((0, 1), 1)%Z) as Ht by (split; reflexivity).
  split; [exact Hm|]. split; [exact Ht|].
  exact (truthful_observation_terminates line_game (init 1 5) (0, 1)%Z 1 Hm Ht).
Defined.

(** C3, counterexample: on the 3 x 3 board with mines at (0,0) and (2,2),
    after the truthful observations (1,1) -> 2 and (0,1) -> 1 have returned,
    the observation (2,1) -> 1 starts the loop with the sentences
    [a] = {(2,0),(2,2)} = 1 and
    [b] = {(0,0),(0,2),(1,0),(1,2),(2,0),(2,2)} = 2 held, [a.cells ⊆ b.cells].
    The loop ends after two passes.  Then no held sentence is equal to
    [(b.cells − a.cells, b.count − a.count)] = {(0,0),(0,2),(1,0),(1,2)} = 1,
    and its cells (0,0) and (0,2) are neither in [mines] nor in [safes]:
    the sentence that was equal to it has been shrunk in place to
    {(0,0),(0,2)} = 1 when (1,0) and (1,2) were resolved.  The state
    returned is a fixed point of the loop, so nothing was left undone. *)
Lemma start_pair_difference_not_kept :
  Forall (truthful cross_game) (cross_observations ++ [((2, 1), 1)]%Z)
  ∧ ∃ ai2 ai3 ai' a b,
      runs (init 3 3) cross_observations ai2
      ∧ observe (2, 1)%Z 1 ai2 = Ok ai3
      ∧ knowledge ai3 !! 2%nat = Some a
      ∧ Sentence.cells a = {[(2, 0); (2, 2)]}%Z ∧ Sentence.count a = 1%Z
      ∧ knowledge ai3 !! 0%nat = Some b
      ∧ Sentence.cells b
        = {[(0, 0); (0, 2); (1, 0); (1, 2); (2, 0); (2, 2)]}%Z
      ∧ Sentence.count b = 2%Z
      ∧ Sentence.cells a ⊆ Sentence.cells b
      ∧ closure 2 ai3 = Ok ai'
      ∧ add_knowledge 2 (2, 1)%Z 1 ai2 = Ok ai'
      ∧ Sentence.cells (difference a b)
        = {[(0, 0); (0, 2); (1, 0); (1, 2)]}%Z
      ∧ contains (difference a b) (knowledge ai') = false
      ∧ ((0, 0)%Z ∉ confirmed ai') ∧ ((0, 2)%Z ∉ confirmed ai')
      ∧ ¬ (Sentence.cells (difference a b) ⊆ confirmed ai')
      ∧ knowledge ai' !! 1%nat = Some (Sentence.mk {[(0, 0); (0, 2)]}%Z 1 ∅
                                          {[(1, 0); (1, 2)]}%Z)
      ∧ quiescent ai'
      ∧ pass ai' = Ok (ai', false).
Proof.
  split; [repeat constructor|].
  eexists _, _, _, _, _. split.
  { eapply (runs_cons _ _ _ 1%nat); [vm_compute; reflexivity|].
    eapply (runs_cons _ _ _ 2%nat); [vm_compute; reflexivity|].
    apply runs_nil. }
  split; [vm_compute; reflexivity|].
  split; [vm_compute; reflexivity|].
  split; [by_evaluation|]. split; [vm_compute; reflexivity|].
  split; [vm_compute; reflexivity|].
  split; [by_evaluation|]. split; [vm_compute; reflexivity|].
  split; [by_evaluation|].
  split; [vm_compute; reflexivity|]. split; [vm_compute; reflexivity|].
  split; [by_evaluation|]. split; [vm_compute; reflexivity|].
  split; [by_evaluation|]. split; [by_evaluation|].
  split; [by_evaluation|].
  split; [vm_compute; reflexivity|].
  split; [repeat constructor; by_evaluation|].
  vm_compute; reflexivity.
Qed.

(** C3, amended: when the closure loop has ended, the knowledge base is
    closed under the subset rule for the sentences as they are then: for
    every two held sentences [a] and [b] with [a.cells ⊆ b.cells], a
    sentence equal (by [__eq__]) to [(b.cells − a.cells, b.count − a.count)]
    is held, unless [a] and [b] are equal, and then the difference has no
    cell.  For a pair held when the loop started this holds up to the cells
    [R] resolved by the loop, all of which are confirmed at the end: the two
    sentences are still held at their positions with the cells of [R]
    removed, and either a sentence is held whose cells are
    [(b.cells − a.cells) − R] and whose count is the difference of the
    counts the two sentences have then, or every cell of
    [b.cells − a.cells] is in [R]. *)
Theorem subset_rule_saturated fuel ai ai' :
  closure fuel ai = Ok ai' →
  (∀ a b, a ∈ knowledge ai' → b ∈ knowledge ai' →
     Sentence.cells a ⊆ Sentence.cells b →
     (∃ s, s ∈ knowledge ai' ∧ Sentence.eqb (difference a b) s = true)
     ∨ (Sentence.eqb a b = true ∧ Sentence.cells (difference a b) = ∅))
  ∧ ∃ R, R ⊆ confirmed ai'
      ∧ ∀ i j a b,
          knowledge ai !! i = Some a → knowledge ai !! j = Some b →
          Sentence.cells a ⊆ Sentence.cells b →
          ∃ a' b', knowledge ai' !! i = Some a' ∧ knowledge ai' !! j = Some b'
            ∧ Sentence.cells a' = Sentence.cells a ∖ R
            ∧ Sentence.cells b' = Sentence.cells b ∖ R
            ∧ ((∃ s, s ∈ knowledge ai'
                  ∧ Sentence.cells s = Sentence.cells (difference a b) ∖ R
                  ∧ Sentence.count s
                    = (Sentence.count b' - Sentence.count a')%Z)
               ∨ Sentence.cells (difference a b) ⊆ R).
Proof.
  intros Hc.
  assert (∀ a b, a ∈ knowledge ai' → b ∈ knowledge ai' →
     Sentence.cells a ⊆ Sentence.cells b →
     (∃ s, s ∈ knowledge ai' ∧ Sentence.eqb (difference a b) s = true)
     ∨ (Sentence.eqb a b = true ∧ Sentence.cells (difference a b) = ∅))
    as Hclosed.
  { apply closure_last in Hc as (a0 & Hp).
    destruct (pass_unfold a0) as (a1 & Hs & Hp'). rw Hp' in Hp.
    destruct (subset_resolution (knowledge a1)) as [|n news] eqn:Hnews; [|done].
    injection Hp as <-. intros a b. rw /= app_nil_r. intros Ha Hb Hsub.
    destruct (Sentence.eqb a b) eqn:Heq.
    - right. split; [done|].
      apply andb_true_iff in Heq as [Hcs%bool_decide_eq_true _].
      rw /difference /= Hcs. apply set_eq. intros x.
      rw elem_of_difference elem_of_empty. tauto.
    - left. pose proof (subset_resolution_complete _ a b Ha Hb Heq Hsub) as Hin.
      rw Hnews app_nil_r in Hin. by apply contains_true in Hin. }
  split; [done|].
  destruct (closure_purged _ _ _ Hc) as (R & HR & HRc & _).
  exists R. split; [done|]. intros i j a b Hi Hj Hsub.
  destruct (HR i a Hi) as (a' & Hi' & Ha').
  destruct (HR j b Hj) as (b' & Hj' & Hb').
  exists a', b'. split; [done|]. split; [done|]. split; [done|].
  split; [done|].
  assert (Sentence.cells a' ⊆ Sentence.cells b') as Hsub'.
  { rw Ha' Hb'. intros x [Hx Hn]%elem_of_difference.
    apply elem_of_difference. split; [by apply Hsub|done]. }
  destruct (Hclosed a' b') as [(s & Hs & Heq)|[Heq _]];
    [by eapply list_elem_of_lookup_2..|done| |].
  - left. exists s. split; [done|].
    apply andb_true_iff in Heq
      as [Hcs%bool_decide_eq_true Hn%bool_decide_eq_true].
    simpl in Hcs, Hn. rw -Hcs -Hn Ha' Hb' /=. split; [|done].
    apply set_eq. intros x. rw !elem_of_difference. tauto.
  - right. apply andb_true_iff in Heq as [Hcs%bool_decide_eq_true _].
    rw Ha' Hb' in Hcs. intros x [Hxb Hxa]%elem_of_difference.
    destruct (decide (x ∈ R)) as [?|HnR]; [done|]. exfalso. apply Hxa.
    assert (x ∈ Sentence.cells a ∖ R) as Hx
      by (rw Hcs; by apply elem_of_difference).
    by apply elem_of_difference in Hx as [? _].
Qed.

Lemma subset_rule_saturated_witness :
  ∃ ai', closure 2 scenario3 = Ok ai'
    ∧ ∀ a b, a ∈ knowledge ai' → b ∈ knowledge ai' →
        Sentence.cells a ⊆ Sentence.cells b →
        (∃ s, s ∈ knowledge ai' ∧ Sentence.eqb (difference a b) s = true)
        ∨ (Sentence.eqb a b = true ∧ Sentence.cells (difference a b) = ∅).
Proof.
  eexists. split; [vm_compute; reflexivity|].
  apply (subset_rule_saturated 2 scenario3). vm_compute; reflexivity.
Defined.

(** The two sentences of scenario 3 in a knowledge base that is at rest:
    when the held sentences are true in some board, none of them yields a
    known mine or safe cell, and a sentence {A,B} = 1 and a sentence
    {A,B,C} = 2 are held, the closure loop ends and C is in [mines]
    afterwards. *)
Lemma quiescent_pair_resolves_mine (b : Cell → bool) ai s1 s2 (A B C : Cell) :
  kb_true b ai → quiescent ai →
  s1 ∈ knowledge ai → Sentence.cells s1 = {[A; B]} → Sentence.count s1 = 1%Z →
  s2 ∈ knowledge ai → Sentence.cells s2 = {[A; B; C]} → Sentence.count s2 = 2%Z →
  ∃ fuel ai', closure fuel ai = Ok ai' ∧ C ∈ mines ai'.
Proof.
  intros Hkb Hq H1 Hc1 Hn1 H2 Hc2 Hn2.
  destruct (closure_terminates b ai Hkb) as (fuel & ai' & Hc).
  exists fuel, ai'. split; [done|]. by eapply (closure_resolves b fuel ai ai' s1 s2).
Qed.

Lemma quiescent_pair_resolves_mine_example :
  kb_true (Minesweeper.board corner_game) scenario3 ∧ quiescent scenario3
  ∧ ∃ fuel ai', closure fuel scenario3 = Ok ai' ∧ (1, 0)%Z ∈ mines ai'.
Proof.
  assert (kb_true (Minesweeper.board corner_game) scenario3) as Hkb
    by repeat constructor.
  assert (quiescent scenario3) as Hq by (repeat constructor; by_evaluation).
  split; [exact Hkb|]. split; [exact Hq|].
  exact (quiescent_pair_resolves_mine (Minesweeper.board corner_game) scenario3
           (Sentence.init {[(0, 0); (0, 1)]}%Z 1)
           (Sentence.init {[(0, 0); (0, 1); (1, 0)]}%Z 2)
           (0, 0)%Z (0, 1)%Z (1, 0)%Z Hkb Hq
           (list_elem_of_here _ _) eq_refl eq_refl
           (list_elem_of_further _ _ _ (list_elem_of_here _ _)) eq_refl eq_refl).
Defined.

(** C4, on the failing input: on the 2 x 3 board with mines at (0,0) and
    (0,2), after the truthful observations (1,2) -> 1 and (1,1) -> 2 have
    returned, the observation (1,0) -> 1 starts the loop with the sentences
    {(0,0),(0,1)} = 1 and {(0,0),(0,1),(0,2)} = 2 held.  The loop ends after
    one pass and [add_knowledge] returns with (0,2) not in [mines], while
    the first held sentence is {(0,2)} = 1: it became a known mine after
    step (a) had visited it, no new sentence was derived, and the loop
    stopped. *)
Theorem subset_pair_left_unresolved :
  Forall (truthful gap_game) (gap_observations ++ [((1, 0), 1)]%Z)
  ∧ ∃ ai2 ai3 ai' s1 s2 s,
      runs (init 2 3) gap_observations ai2
      ∧ observe (1, 0)%Z 1 ai2 = Ok ai3
      ∧ knowledge ai3 !! 3%nat = Some s1
      ∧ Sentence.cells s1 = {[(0, 0); (0, 1)]}%Z ∧ Sentence.count s1 = 1%Z
      ∧ knowledge ai3 !! 1%nat = Some s2
      ∧ Sentence.cells s2 = {[(0, 0); (0, 1); (0, 2)]}%Z
      ∧ Sentence.count s2 = 2%Z
      ∧ closure 1 ai3 = Ok ai'
      ∧ add_knowledge 1 (1, 0)%Z 1 ai2 = Ok ai'
      ∧ ((0, 2)%Z ∉ mines ai')
      ∧ knowledge ai' !! 0%nat = Some s
      ∧ Sentence.known_mines s = {[(0, 2)%Z]}.
Proof.
  split; [repeat constructor|].
  eexists _, _, _, _, _, _. split.
  { eapply (runs_cons _ _ _ 2%nat); [vm_compute; reflexivity|].
    eapply (runs_cons _ _ _ 2%nat); [vm_compute; reflexivity|].
    apply runs_nil. }
  split; [vm_compute; reflexivity|].
  split; [vm_compute; reflexivity|]. split; [by_evaluation|].
  split; [vm_compute; reflexivity|]. split; [vm_compute; reflexivity|].
  split; [by_evaluation|]. split; [vm_compute; reflexivity|].
  split; [vm_compute; reflexivity|]. split; [vm_compute; reflexivity|].
  split; [by_evaluation|]. split; [vm_compute; reflexivity|]. by_evaluation.
Qed.

(** ** Invariants of the engine state *)

(** C5: after any sequence of [add_knowledge] calls that have returned,
    starting from a fresh engine, no cell listed in a held sentence is in
    [mines] or in [safes]. *)
Theorem sentences_list_no_confirmed_cell (h w : Z) obs ai' :
  runs (init h w) obs ai' →
  ∀ s c, s ∈ knowledge ai' → c ∈ Sentence.cells s →
         (c ∉ mines ai') ∧ (c ∉ safes ai').
Proof.
  intros Hruns s c Hs Hc.
  assert (all_settled ai') as Hall.
  { eapply runs_settled; [done|]. constructor. }
  rw /all_settled Forall_forall in Hall. specialize (Hall s Hs).
  rw /settled /confirmed in Hall. set_solver.
Qed.

Lemma sentences_list_no_confirmed_cell_witness :
  ∃ ai', runs (init 1 5) line_observations ai'
    ∧ ∀ s c, s ∈ knowledge ai' → c ∈ Sentence.cells s →
             (c ∉ mines ai') ∧ (c ∉ safes ai').
Proof.
  assert (∃ ai', runs (init 1 5) line_observations ai') as [ai' Hruns].
  { eexists.
    eapply (runs_cons _ _ _ 1%nat); [vm_compute; reflexivity|].
    eapply (runs_cons _ _ _ 1%nat); [vm_compute; reflexivity|].
    eapply (runs_cons _ _ _ 1%nat); [vm_compute; reflexivity|].
    apply runs_nil. }
  exists ai'. split; [exact Hruns|].
  exact (sentences_list_no_confirmed_cell 1 5 line_observations ai' Hruns).
Defined.

(** C6, counterexample: on a 1 x 2 board the observations ((0,0), 1) and
    then ((0,1), 0) both return, and (0,1) is in [mines] and in [safes]. *)
Lemma contradictory_observations_overlap :
  ∃ ai', runs (init 1 2) [((0, 0), 1); ((0, 1), 0)]%Z ai'
    ∧ (0, 1)%Z ∈ mines ai' ∧ (0, 1)%Z ∈ safes ai'.
Proof.
  eexists. split.
  { eapply (runs_cons _ _ _ 1%nat); [vm_compute; reflexivity|].
    eapply (runs_cons _ _ _ 1%nat); [vm_compute; reflexivity|].
    apply runs_nil. }
  split; by_evaluation.
Qed.

(** C6, amended: for every board and every sequence of observations read
    from it, all [add_knowledge] calls return, and after them [mines] and
    [safes] are disjoint. *)
Theorem truthful_runs_keep_sets_disjoint g obs :
  Forall (truthful g) obs →
  (∃ ai', runs (init (Minesweeper.height g) (Minesweeper.width g)) obs ai')
  ∧ ∀ ai', runs (init (Minesweeper.height g) (Minesweeper.width g)) obs ai' →
           mines ai' ## safes ai'.
Proof.
  intros Hobs. split.
  - apply (runs_exist g); [apply init_models|done].
  - intros ai' Hruns. apply (sound_disjoint (Minesweeper.board g)).
    by apply (runs_models g obs _ ai' Hruns (init_models g)).
Qed.

Lemma truthful_runs_keep_sets_disjoint_witness :
  Forall (truthful line_game) line_observations
  ∧ (∃ ai', runs (init 1 5) line_observations ai')
  ∧ ∀ ai', runs (init 1 5) line_observations ai' → mines ai' ## safes ai'.
Proof.
  assert (Forall (truthful line_game) line_observations) as Hobs
    by repeat constructor.
  split; [exact Hobs|].
  exact (truthful_runs_keep_sets_disjoint line_game line_observations Hobs).
Defined.

(** ** Inputs outside the grid, and exceptions *)

(** C9, counterexample: on a 1 x 1 board the observation of the cell (5,5),
    which is outside the grid, is not rejected: the call returns, (5,5) is
    in [moves_made] and in [safes], and a sentence has been appended. *)
Lemma off_grid_observation_not_rejected :
  in_range 5 1 && in_range 5 1 = false
  ∧ ∃ ai', add_knowledge 1 (5, 5)%Z 0 (init 1 1) = Ok ai'
      ∧ moves_made ai' = {[(5, 5)%Z]} ∧ safes ai' = {[(5, 5)%Z]}
      ∧ length (knowledge ai') = 1%nat
      ∧ ai' ≠ init 1 1.
Proof.
  split; [reflexivity|]. eexists. split; [vm_compute; reflexivity|].
  split; [by_evaluation|]. split; [by_evaluation|]. split; [reflexivity|].
  intros Heq. by apply (f_equal (λ a, length (knowledge a))) in Heq.
Qed.

(** C9, amended: a cell outside the grid is processed like any other cell.
    [add_knowledge] raises no exception for it.  The part before the loop
    returns, having added the cell to [moves_made] and to [safes] and
    appended one sentence at the end of the knowledge list: its cells are
    the in-grid neighbours of the cell (the grid cells at distance at most
    one in both coordinates) that were in neither [safes] nor [mines], and
    its count is the reported count minus the number of in-grid neighbours
    that were in [mines].  When the call returns, [moves_made] has gained
    exactly the cell, the cell is in [safes], and the appended sentence is
    still held at its position, with a subset of its cells.  (The two
    queries take no cell.) *)
Theorem off_grid_observation_processed fuel (cell : Cell) (count : Z) ai :
  in_range cell.1 (height ai) && in_range cell.2 (width ai) = false →
  (∀ e, add_knowledge fuel cell count ai ≠ Raise e)
  ∧ (∀ c, c ∈ neighbours (height ai) (width ai) cell ↔
        c ≠ cell ∧ (0 ≤ c.1 < height ai ∧ 0 ≤ c.2 < width ai)%Z
        ∧ (cell.1 - 1 ≤ c.1 ≤ cell.1 + 1 ∧ cell.2 - 1 ≤ c.2 ≤ cell.2 + 1)%Z)
  ∧ (∃ ai1, observe cell count ai = Ok ai1
       ∧ moves_made ai1 = {[cell]} ∪ moves_made ai
       ∧ cell ∈ safes ai1
       ∧ length (knowledge ai1) = S (length (knowledge ai))
       ∧ knowledge ai1 !! length (knowledge ai)
         = Some (Sentence.init
                   (neighbours (height ai) (width ai) cell
                      ∖ safes ai ∖ mines ai)
                   (count - Z.of_nat (size (neighbours (height ai) (width ai)
                                              cell ∩ mines ai)))))
  ∧ (∀ ai', add_knowledge fuel cell count ai = Ok ai' →
       moves_made ai' = {[cell]} ∪ moves_made ai
       ∧ cell ∈ safes ai'
       ∧ length (knowledge ai) < length (knowledge ai')
       ∧ ∃ s, knowledge ai' !! length (knowledge ai) = Some s
           ∧ Sentence.cells s
             ⊆ neighbours (height ai) (width ai) cell ∖ safes ai ∖ mines ai).
Proof.
  intros _.
  destruct (observe_ok cell count ai) as [ai1 Ho].
  destruct (observe_records _ _ _ _ Ho) as (_ & _ & Hmv & Hsafe & Hlen).
  destruct (observe_marks _ _ _ _ Ho) as [Hlast _].
  assert (knowledge ai1 !! length (knowledge ai)
          = Some (Sentence.init
                    (neighbours (height ai) (width ai) cell
                       ∖ safes ai ∖ mines ai)
                    (count - Z.of_nat (size (neighbours (height ai) (width ai)
                                               cell ∩ mines ai))))) as Hnew.
  { rw -Hlast last_lookup Hlen. done. }
  split; [intros e; apply add_knowledge_no_raise|]. split.
  { intros c. by rw neighbours_elem in_grid_spec. }
  split.
  { exists ai1. by split_and!. }
  intros ai' Hadd.
  destruct (add_knowledge_frame _ _ _ _ _ Hadd) as (_ & _ & Hmv' & _).
  destruct (add_knowledge_records _ _ _ _ _ Hadd) as (_ & Hs' & Hl').
  split; [done|]. split; [done|]. split; [done|].
  revert Hadd. rw /add_knowledge Ho /=. intros Hc.
  destruct (closure_purged _ _ _ Hc) as (R & HR & _).
  destruct (HR _ _ Hnew) as (s & Hs & Hcells).
  exists s. split; [done|]. rw Hcells /=.
  intros x [Hx _]%elem_of_difference. done.
Qed.

Lemma off_grid_observation_processed_witness :
  in_range (0, 2)%Z.1 (height (init 2 2))
    && in_range (0, 2)%Z.2 (width (init 2 2)) = false
  ∧ neighbours 2 2 (0, 2)%Z ∖ safes (init 2 2) ∖ mines (init 2 2)
    = {[(0, 1); (1, 1)]}%Z
  ∧ ∃ ai', add_knowledge 1 (0, 2)%Z 1 (init 2 2) = Ok ai'
      ∧ moves_made ai' = {[(0, 2)%Z]} ∪ moves_made (init 2 2)
      ∧ (0, 2)%Z ∈ safes ai'
      ∧ length (knowledge (init 2 2)) < length (knowledge ai')
      ∧ ∃ s, knowledge ai' !! length (knowledge (init 2 2)) = Some s
          ∧ Sentence.cells s
            ⊆ neighbours (height (init 2 2)) (width (init 2 2)) (0, 2)%Z
                ∖ safes (init 2 2) ∖ mines (init 2 2).
Proof.
  split; [reflexivity|]. split; [by_evaluation|].
  eexists. split; [vm_compute; reflexivity|].
  apply (proj2 (proj2 (proj2
    (off_grid_observation_processed 1 (0, 2)%Z 1 (init 2 2) eq_refl)))).
  vm_compute; reflexivity.
Defined.

(** C10, counterexample: on a 1 x 1 board the observation ((0,0), 3)
    returns, and the following observation ((0,0), -1) does not return
    normally: no number of passes ends the loop. *)
Lemma add_knowledge_may_not_return :
  ∃ ai1, add_knowledge 1 (0, 0)%Z 3 (init 1 1) = Ok ai1
    ∧ ∀ fuel, add_knowledge fuel (0, 0)%Z (-1) ai1 = OutOfFuel.
Proof.
  eexists. split; [vm_compute; reflexivity|].
  intros fuel. rw /add_knowledge.
  match goal with |- context [observe ?c ?n ?a] =>
    assert (∃ ai2, observe c n a = Ok ai2
              ∧ knowledge ai2 = [Sentence.init ∅ 3; Sentence.init ∅ (-1)])
      as (ai2 & -> & Hkb) by (eexists; split; vm_compute; reflexivity)
  end.
  rw /=. apply closure_diverges.
  - rw Hkb. intros s Hs. repeat (apply elem_of_cons in Hs as [->|Hs]; [done|]).
    by apply elem_of_nil in Hs.
  - rw Hkb. exists (Sentence.init ∅ 3), (Sentence.init ∅ (-1)).
    split; [left|]. split; [right; left|done].
Qed.

(** C10, amended: no public operation of the engine raises an exception,
    for any cell (inside the grid or not) and any integer count.
    [mark_mine] and [mark_safe] always return; [add_knowledge] never raises
    and returns whenever the state is true in a board and the observation
    is read from it; [make_safe_move] returns [None] exactly when every
    confirmed safe cell has been played, and otherwise a confirmed safe
    cell that has not been played; [make_random_move] returns [None] when
    the candidate set (all grid cells minus [moves_made] minus [mines]) is
    empty and otherwise selects a member of it. *)
Theorem operations_never_raise :
  (∀ cell ai, ∃ ai', mark_mine cell ai = Ok ai')
  ∧ (∀ cell ai, ∃ ai', mark_safe cell ai = Ok ai')
  ∧ (∀ fuel cell count ai e, add_knowledge fuel cell count ai ≠ Raise e)
  ∧ (∀ g ai cell count, models g ai → truthful g (cell, count) →
       ∃ fuel ai', add_knowledge fuel cell count ai = Ok ai')
  ∧ (∀ ai, (make_safe_move ai = None ↔ safes ai ⊆ moves_made ai)
           ∧ ∀ c, make_safe_move ai = Some c →
                  c ∈ safes ai ∧ (c ∉ moves_made ai))
  ∧ (∀ rnd ai,
       (available_moves ai = ∅ → make_random_move rnd ai = Ok None)
       ∧ (available_moves ai ≠ ∅ →
          ∃ c, make_random_move rnd ai = Ok (Some c)
               ∧ c ∈ available_moves ai)).
Proof.
  split_and!.
  - intros cell ai. eexists. apply mark_mine_ok.
  - intros cell ai. eexists. apply mark_safe_ok.
  - intros. apply add_knowledge_no_raise.
  - apply add_knowledge_returns.
  - intros ai. split; [apply make_safe_move_None|apply make_safe_move_Some].
  - apply make_random_move_spec.
Qed.

Lemma operations_never_raise_witness :
  models line_game (init 1 5) ∧ truthful line_game ((0, 1), 1)%Z
  ∧ (∃ fuel ai', add_knowledge fuel (0, 1)%Z 1 (init 1 5) = Ok ai')
  ∧ make_safe_move (init 1 5) = None
  ∧ make_random_move 0 (init 0 0) = Ok None.
Proof.
  assert (models line_game (init 1 5)) as Hm by apply (init_models line_game).
  assert (truthful line_game ((0, 1), 1)%Z) as Ht by (split; reflexivity).
  destruct operations_never_raise as (_ & _ & _ & Hret & Hsafe & Hrnd).
  split; [exact Hm|]. split; [exact Ht|].
  split; [exact (Hret line_game (init 1 5) (0, 1)%Z 1%Z Hm Ht)|].
  split.
  - apply (proj1 (Hsafe (init 1 5))). by_evaluation.
  - apply (proj1 (Hrnd 0%nat (init 0 0))). by_evaluation.
Defined.

(** * Further properties of the code *)

(** ** Sentence *)

(** X1: [__eq__] is an equivalence relation that looks at [cells] and
    [count] only: two sentences with the same cells and count are equal
    whatever cells they have resolved before, equal sentences have the same
    known mines and known safes, and list membership ([in]) does not
    distinguish them. *)
Theorem sentence_eq_equivalence :
  (∀ a, Sentence.eqb a a = true)
  ∧ (∀ a b, Sentence.eqb a b = Sentence.eqb b a)
  ∧ (∀ a b c, Sentence.eqb a b = true → Sentence.eqb b c = true →
              Sentence.eqb a c = true)
  ∧ (∀ cs n m1 s1 m2 s2,
       Sentence.eqb (Sentence.mk cs n m1 s1) (Sentence.mk cs n m2 s2) = true)
  ∧ (∀ a b, Sentence.eqb a b = true →
            Sentence.known_mines a = Sentence.known_mines b
            ∧ Sentence.known_safes a = Sentence.known_safes b)
  ∧ (∀ a b l, Sentence.eqb a b = true → contains a l = contains b l).
Proof.
  assert (∀ a b, Sentence.eqb a b = true ↔
            Sentence.cells a = Sentence.cells b
            ∧ Sentence.count a = Sentence.count b) as Heq.
  { intros a b. rw /Sentence.eqb andb_true_iff !bool_decide_eq_true. done. }
  assert (∀ a b, Sentence.eqb a b = Sentence.eqb b a) as Hsym.
  { intros a b. rw /Sentence.eqb. f_equal; apply bool_decide_ext; naive_solver. }
  assert (∀ a b l, Sentence.eqb a b = true → contains a l = contains b l) as Hin.
  { intros a b l [Hc Hn]%Heq. rw /contains. induction l as [|x l IH]; [done|].
    rw /= IH. f_equal. by rw /Sentence.eqb Hc Hn. }
  split_and!; [| done | | | | done].
  - intros a. by apply Heq.
  - intros a b c [? ?]%Heq [? ?]%Heq. apply Heq. split; congruence.
  - intros. by apply Heq.
  - intros a b [Hc Hn]%Heq.
    by rw /Sentence.known_mines /Sentence.known_safes Hc Hn.
Qed.

Lemma sentence_eq_equivalence_witness :
  Sentence.eqb (Sentence.mk {[(0, 1)%Z]} 1 {[(0, 0)%Z]} ∅)
               (Sentence.init {[(0, 1)%Z]} 1) = true
  ∧ Sentence.known_mines (Sentence.mk {[(0, 1)%Z]} 1 {[(0, 0)%Z]} ∅)
    = Sentence.known_mines (Sentence.init {[(0, 1)%Z]} 1).
Proof.
  destruct sentence_eq_equivalence as (_ & _ & _ & Hsame & Hknown & _).
  pose proof (Hsame {[(0, 1)%Z]} 1%Z {[(0, 0)%Z]} ∅ ∅ ∅) as Heq.
  split; [exact Heq|]. exact (proj1 (Hknown _ _ Heq)).
Defined.

(** X2: for a sentence that is true in a board (exactly [count] of its
    cells are mines), every cell returned by [known_mines] is a mine and
    every cell returned by [known_safes] is not; moreover [known_mines]
    returns all the cells exactly when the sentence has cells and all of
    them are mines, and [known_safes] returns all the cells of a sentence
    with cells exactly when none of them is a mine. *)
Theorem known_cells_sound (b : Cell → bool) (s : Sentence.t) :
  sentence_true b s →
  (∀ c, c ∈ Sentence.known_mines s → b c = true)
  ∧ (∀ c, c ∈ Sentence.known_safes s → b c = false)
  ∧ (Sentence.cells s ≠ ∅ →
     (Sentence.known_mines s = Sentence.cells s
      ↔ ∀ c, c ∈ Sentence.cells s → b c = true))
  ∧ (Sentence.cells s ≠ ∅ →
     (Sentence.known_safes s = Sentence.cells s
      ↔ ∀ c, c ∈ Sentence.cells s → b c = false)).
Proof.
  intros Ht. split_and!.
  - intros c Hc.
    destruct (known_mines_cases s) as [[He _]|(He & _ & _ & Hn)];
      rw He in Hc; [set_solver|].
    by apply (firing_status b s true).
  - intros c Hc.
    destruct (known_safes_cases s) as [[He _]|(He & _ & _ & Hn)];
      rw He in Hc; [set_solver|].
    by apply (firing_status b s false).
  - intros Hne. split.
    + intros He c Hc.
      destruct (known_mines_cases s) as [[He' _]|(_ & _ & _ & Hn)];
        [congruence|]. by apply (firing_status b s true).
    + intros Hall.
      assert (filter (λ c, b c = true) (Sentence.cells s) = Sentence.cells s)
        as Hf by (apply set_eq; intros c; rw elem_of_filter; naive_solver).
      rw /sentence_true /mines_in Hf in Ht.
      rw /Sentence.known_mines bool_decide_true // bool_decide_false //.
      rw Ht. intros Hz. apply Hne, leibniz_equiv, size_empty_inv. lia.
  - intros Hne. split.
    + intros He c Hc.
      destruct (known_safes_cases s) as [[He' _]|(_ & _ & _ & Hn)];
        [congruence|]. by apply (firing_status b s false).
    + intros Hall.
      assert (filter (λ c, b c = true) (Sentence.cells s) = ∅) as Hf.
      { apply set_eq. intros c. rw elem_of_filter. split; [|set_solver].
        intros [Hb Hc]. specialize (Hall c Hc). congruence. }
      rw /sentence_true /mines_in Hf size_empty in Ht.
      by rw /Sentence.known_safes bool_decide_true.
Qed.

Lemma known_cells_sound_witness :
  sentence_true (Minesweeper.board corner_game)
                (Sentence.init {[(0, 0); (1, 0)]}%Z 2)
  ∧ ∀ c, c ∈ Sentence.known_mines (Sentence.init {[(0, 0); (1, 0)]}%Z 2) →
         Minesweeper.board corner_game c = true.
Proof.
  assert (sentence_true (Minesweeper.board corner_game)
            (Sentence.init {[(0, 0); (1, 0)]}%Z 2)) as Ht by reflexivity.
  split; [exact Ht|].
  exact (proj1 (known_cells_sound _ _ Ht)).
Defined.

(** X3: whatever calls of [mark_mine] and [mark_safe] are made on a sentence
    built by [__init__], no exception is raised and no cell is lost: the
    cells still listed are the original ones minus the cells of the calls,
    every original cell is in exactly one of [cells], [mines] and [safe],
    and [count] is the original count minus the number of cells moved to
    [mines]. *)
Theorem resolution_conserves_cells (cs : gset Cell) (n : Z)
    (ops : list (bool * Cell)) :
  ∃ s', for_each resolve_call ops (Sentence.init cs n) = Ok s'
    ∧ Sentence.cells s' = cs ∖ list_to_set ops.*2
    ∧ Sentence.cells s' ∪ Sentence.mines s' ∪ Sentence.safe s' = cs
    ∧ Sentence.cells s' ## Sentence.mines s'
    ∧ Sentence.cells s' ## Sentence.safe s'
    ∧ Sentence.mines s' ## Sentence.safe s'
    ∧ Sentence.count s' = (n - Z.of_nat (size (Sentence.mines s')))%Z.
Proof.
  destruct (for_each_inv (λ k s,
      Sentence.cells s = cs ∖ list_to_set (take k ops).*2
      ∧ Sentence.cells s ∪ Sentence.mines s ∪ Sentence.safe s = cs
      ∧ Sentence.cells s ## Sentence.mines s
      ∧ Sentence.cells s ## Sentence.safe s
      ∧ Sentence.mines s ## Sentence.safe s
      ∧ Sentence.count s = (n - Z.of_nat (size (Sentence.mines s)))%Z)
    resolve_call ops (Sentence.init cs n)) as (s' & Hr & Hinv).
  - rw /Sentence.init.
    cbn [Sentence.mines Sentence.cells Sentence.safe Sentence.count].
    split_and!; [set_solver..|]. rw size_empty. lia.
  - intros k [m c] s Hk (Hc & Hu & H1 & H2 & H3 & Hn).
    exists (resolve m c s). split; [apply (resolve_call_ok (m, c))|].
    rw (take_S_r _ _ _ Hk) fmap_app list_to_set_app_L /=.
    rw /resolve. case_bool_decide as Hin;
      cbn [Sentence.mines Sentence.cells Sentence.safe Sentence.count fst snd];
      [|split; [set_solver|done]].
    split; [rw Hc; set_solver|].
    assert (c ∉ Sentence.mines s) as Hcm by set_solver.
    assert (c ∉ Sentence.safe s) as Hcs by set_solver.
    destruct m.
    + split.
      { rw -Hu. apply set_eq. intros x.
        destruct (decide (x = c)) as [->|]; set_solver. }
      split; [set_solver|]. split; [set_solver|]. split; [set_solver|].
      rw size_union; [set_solver|]. rw size_singleton. lia.
    + split.
      { rw -Hu. apply set_eq. intros x.
        destruct (decide (x = c)) as [->|]; set_solver. }
      split; [set_solver|]. split; [set_solver|]. split; [set_solver|done].
  - exists s'. split; [done|]. by rw firstn_all in Hinv.
Qed.

(** X4: for one cell the first call decides: a later [mark_mine] or
    [mark_safe] for the same cell changes nothing, and so does a call for a
    cell the sentence does not list; calls for different cells commute. *)
Theorem resolution_first_call_decides :
  (∀ m1 m2 c s,
     for_each resolve_call [(m1, c); (m2, c)] s = resolve_call (m1, c) s)
  ∧ (∀ m c s, c ∉ Sentence.cells s → resolve_call (m, c) s = Ok s)
  ∧ (∀ m1 m2 (c1 c2 : Cell) s, c1 ≠ c2 →
       for_each resolve_call [(m1, c1); (m2, c2)] s
       = for_each resolve_call [(m2, c2); (m1, c1)] s).
Proof.
  split_and!.
  - intros m1 m2 c s. rw /= !resolve_call_ok /= !resolve_call_ok /=.
    by rw resolve_again.
  - intros m c s Hc. by rw resolve_call_ok /= resolve_notin.
  - intros m1 m2 c1 c2 s Hne. rw /= !resolve_call_ok /= !resolve_call_ok /=.
    by rw resolve_comm_ne.
Qed.

Lemma resolution_first_call_decides_witness :
  for_each resolve_call [(true, (0, 0)%Z); (false, (0, 1)%Z)]
           (Sentence.init {[(0, 0); (0, 1)]}%Z 1)
  = for_each resolve_call [(false, (0, 1)%Z); (true, (0, 0)%Z)]
             (Sentence.init {[(0, 0); (0, 1)]}%Z 1).
Proof.
  apply (proj2 (proj2 resolution_first_call_decides)). intros [= ?].
Defined.

(** ** MinesweeperAI: broadcasts *)

(** X5: the engine's [mark_mine] ([m = true]) and [mark_safe] ([m = false])
    never raise; they add the cell to [mines] (to [safes]) and change
    nothing else in the confirmed sets, the moves or the dimensions; the
    knowledge list keeps its length, every sentence loses exactly that cell,
    the count of a sentence drops by one exactly when [mark_mine] removes
    the cell from it, and a sentence that does not list the cell is left as
    it is. *)
Theorem broadcast_postcondition (m : bool) (c : Cell) (ai : t) :
  ∃ ai', broadcast_call (m, c) ai = Ok ai'
    ∧ mines ai' = (if m then {[c]} ∪ mines ai else mines ai)
    ∧ safes ai' = (if m then safes ai else {[c]} ∪ safes ai)
    ∧ moves_made ai' = moves_made ai
    ∧ height ai' = height ai ∧ width ai' = width ai
    ∧ length (knowledge ai') = length (knowledge ai)
    ∧ ∀ i s, knowledge ai !! i = Some s →
        ∃ s', knowledge ai' !! i = Some s'
          ∧ Sentence.cells s' = Sentence.cells s ∖ {[c]}
          ∧ Sentence.count s'
            = (Sentence.count s
               - if m && bool_decide (c ∈ Sentence.cells s) then 1 else 0)%Z
          ∧ (c ∉ Sentence.cells s → s' = s).
Proof.
  exists (broadcast m c ai). split; [apply (broadcast_call_ok (m, c))|].
  rw /broadcast /= length_fmap. split_and!; [done..|].
  intros i s Hi. exists (resolve m c s).
  rw list_lookup_fmap Hi. split; [done|]. split; [apply resolve_cells|].
  split; [|apply resolve_notin].
  rw /resolve. case_bool_decide; destruct m; simpl; lia.
Qed.

(** X6: broadcasts of different cells commute: two sequences of [mark_mine]
    and [mark_safe] calls that are permutations of each other, with no cell
    occurring twice, lead to the same engine state.  (Hence the order in
    which a Python set of cells is walked does not matter.) *)
Theorem broadcasts_commute (ops1 ops2 : list (bool * Cell)) (ai : t) :
  NoDup ops1.*2 → ops1 ≡ₚ ops2 →
  for_each broadcast_call ops1 ai = for_each broadcast_call ops2 ai.
Proof.
  intros Hnd Hp.
  rw !(for_each_ok broadcast_call (λ a op, broadcast op.1 op.2 a)) //;
    try (intros; apply broadcast_call_ok).
  f_equal. apply (foldl_permutation_ne _ snd); [|done..].
  intros [m1 c1] [m2 c2] a Hne. by apply broadcast_comm_ne.
Qed.

Lemma broadcasts_commute_witness :
  for_each broadcast_call [(true, (0, 0)%Z); (false, (0, 1)%Z)] scenario3
  = for_each broadcast_call [(false, (0, 1)%Z); (true, (0, 0)%Z)] scenario3.
Proof.
  apply broadcasts_commute.
  - repeat constructor; by_evaluation.
  - apply Permutation_swap.
Defined.

(** ** MinesweeperAI: [add_knowledge] *)

(** X7: a call of [add_knowledge] that returns only adds: the dimensions are
    unchanged, [moves_made] gains exactly the observed cell, [mines] and
    [safes] only grow and the observed cell is in [safes], the knowledge
    list gets longer, and every sentence held before is still held at its
    position, having lost only cells that are now in [mines] or [safes]. *)
Theorem add_knowledge_only_adds fuel (cell : Cell) (count : Z) ai ai' :
  add_knowledge fuel cell count ai = Ok ai' →
  height ai' = height ai ∧ width ai' = width ai
  ∧ moves_made ai' = {[cell]} ∪ moves_made ai
  ∧ mines ai ⊆ mines ai' ∧ safes ai ⊆ safes ai' ∧ cell ∈ safes ai'
  ∧ length (knowledge ai) < length (knowledge ai')
  ∧ ∀ i s, knowledge ai !! i = Some s →
      ∃ s', knowledge ai' !! i = Some s'
        ∧ Sentence.cells s' ⊆ Sentence.cells s
        ∧ Sentence.cells s ∖ Sentence.cells s' ⊆ mines ai' ∪ safes ai'.
Proof.
  intros Hadd.
  destruct (add_knowledge_frame _ _ _ _ _ Hadd) as (Hh & Hw & Hm & Hmi & Hsa).
  destruct (add_knowledge_records _ _ _ _ _ Hadd) as (_ & Hcs & Hlen).
  split_and!; [done..|].
  revert Hadd. rw /add_knowledge.
  destruct (observe_ok cell count ai) as [ai1 Ho]. rw Ho /=. intros Hc.
  pose proof (purged_trans _ _ _ (observe_purged _ _ _ _ Ho)
                (closure_purged _ _ _ Hc)) as (R & HR & HRc & _).
  intros i s Hi. destruct (HR i s Hi) as (s' & Hi' & Hcells).
  exists s'. split; [done|]. rw Hcells. rw /confirmed in HRc.
  clear -HRc. split.
  - apply subseteq_difference_l. done.
  - intros c [Hc Hn]%elem_of_difference. apply HRc.
    destruct (decide (c ∈ R)) as [?|HnR]; [done|].
    exfalso. apply Hn. by apply elem_of_difference.
Qed.

Lemma add_knowledge_only_adds_witness :
  ∃ ai', add_knowledge 1 (0, 1)%Z 1 (init 1 5) = Ok ai'
    ∧ moves_made ai' = {[(0, 1)%Z]} ∪ moves_made (init 1 5).
Proof.
  eexists. split; [vm_compute; reflexivity|].
  apply (add_knowledge_only_adds 1 (0, 1)%Z 1 (init 1 5)).
  vm_compute; reflexivity.
Defined.

(** X8: before the loop starts, [add_knowledge] has appended exactly one
    sentence: its cells are the in-grid neighbours of the observed cell
    (the cells at distance at most one in both coordinates, other than the
    cell, inside the grid) that were neither in [safes] nor in [mines], and
    its count is the reported count minus the number of in-grid neighbours
    that were in [mines]. *)
Theorem observation_sentence (cell : Cell) (count : Z) (ai : t) :
  (∀ c, c ∈ neighbours (height ai) (width ai) cell ↔
        c ≠ cell ∧ (0 ≤ c.1 < height ai ∧ 0 ≤ c.2 < width ai)%Z
        ∧ (cell.1 - 1 ≤ c.1 ≤ cell.1 + 1 ∧ cell.2 - 1 ≤ c.2 ≤ cell.2 + 1)%Z)
  ∧ ∃ ai1, observe cell count ai = Ok ai1
      ∧ length (knowledge ai1) = S (length (knowledge ai))
      ∧ last (knowledge ai1)
        = Some (Sentence.init
                  (neighbours (height ai) (width ai) cell
                     ∖ safes ai ∖ mines ai)
                  (count - Z.of_nat (size (neighbours (height ai) (width ai) cell
                                            ∩ mines ai)))).
Proof.
  split.
  - intros c. by rw neighbours_elem in_grid_spec.
  - destruct (observe_ok cell count ai) as [ai1 Ho]. exists ai1.
    split; [done|].
    destruct (observe_records _ _ _ _ Ho) as (_ & _ & _ & _ & Hl).
    split; [done|]. by destruct (observe_marks _ _ _ _ Ho) as [? _].
Qed.

(** X9: when the reported count equals the number of in-grid neighbours
    already in [mines] (the adjusted count is 0) and the call returns,
    every in-grid neighbour of the observed cell that was not in [mines] is
    in [safes]. *)
Theorem zero_count_clears_neighbours fuel (cell : Cell) (count : Z) ai ai' :
  add_knowledge fuel cell count ai = Ok ai' →
  count = Z.of_nat (size (neighbours (height ai) (width ai) cell ∩ mines ai)) →
  neighbours (height ai) (width ai) cell ∖ mines ai ⊆ safes ai'.
Proof.
  rw /add_knowledge. destruct (observe_ok cell count ai) as [ai1 Ho].
  rw Ho /=. intros Hc Hcount.
  destruct (observe_marks _ _ _ _ Ho) as (_ & Hz & _).
  destruct (observe_mono _ _ _ _ Ho) as [_ Hs1].
  destruct (closure_frame _ _ _ Hc) as (_ & _ & _ & _ & Hs').
  intros c Hcn. destruct (decide (c ∈ safes ai)) as [?|Hn]; [set_solver|].
  apply Hs', Hz; [lia|set_solver].
Qed.

Lemma zero_count_clears_neighbours_witness :
  ∃ ai', add_knowledge 1 (0, 0)%Z 0 (init 2 2) = Ok ai'
    ∧ neighbours 2 2 (0, 0)%Z ∖ ∅ ⊆ safes ai'.
Proof.
  eexists. split; [vm_compute; reflexivity|].
  apply (zero_count_clears_neighbours 1 (0, 0)%Z 0 (init 2 2)).
  - vm_compute; reflexivity.
  - vm_compute; reflexivity.
Defined.

(** X10: when the adjusted count (the reported count minus the number of
    in-grid neighbours already in [mines]) equals the number of undetermined
    in-grid neighbours, there is at least one of them, and the call returns,
    every undetermined in-grid neighbour is in [mines]. *)
Theorem full_count_flags_neighbours fuel (cell : Cell) (count : Z) ai ai' :
  add_knowledge fuel cell count ai = Ok ai' →
  neighbours (height ai) (width ai) cell ∖ safes ai ∖ mines ai ≠ ∅ →
  (count - Z.of_nat (size (neighbours (height ai) (width ai) cell ∩ mines ai))
   = Z.of_nat (size (neighbours (height ai) (width ai) cell
                       ∖ safes ai ∖ mines ai)))%Z →
  neighbours (height ai) (width ai) cell ∖ safes ai ∖ mines ai ⊆ mines ai'.
Proof.
  rw /add_knowledge. destruct (observe_ok cell count ai) as [ai1 Ho].
  rw Ho /=. intros Hc Hne Hcount.
  destruct (observe_marks _ _ _ _ Ho) as (_ & _ & Hfull).
  destruct (closure_frame _ _ _ Hc) as (_ & _ & _ & Hm' & _).
  intros c Hcn. apply Hm', Hfull; [done| |done].
  rw Hcount.
  assert (size (neighbours (height ai) (width ai) cell ∖ safes ai ∖ mines ai)
          ≠ 0) as Hsz.
  { intros H0. apply Hne, leibniz_equiv. by apply size_empty_inv. }
  lia.
Qed.

Lemma full_count_flags_neighbours_witness :
  ∃ ai', add_knowledge 1 (0, 0)%Z 3 (init 2 2) = Ok ai'
    ∧ neighbours 2 2 (0, 0)%Z ∖ ∅ ∖ ∅ ⊆ mines ai'.
Proof.
  eexists. split; [vm_compute; reflexivity|].
  apply (full_count_flags_neighbours 1 (0, 0)%Z 3 (init 2 2)).
  - vm_compute; reflexivity.
  - by_evaluation.
  - vm_compute; reflexivity.
Defined.

(** X11: after any sequence of [add_knowledge] calls that have returned,
    from a fresh engine and for arbitrary cells and counts, every cell
    listed in a sentence and every cell of [mines] lies in the grid, and a
    cell of [safes] outside the grid is one of the observed cells. *)
Theorem engine_stays_in_grid (h w : Z) obs ai' :
  runs (init h w) obs ai' →
  height ai' = h ∧ width ai' = w
  ∧ (∀ s c, s ∈ knowledge ai' → c ∈ Sentence.cells s →
            (0 ≤ c.1 < h ∧ 0 ≤ c.2 < w)%Z)
  ∧ (∀ c, c ∈ mines ai' → (0 ≤ c.1 < h ∧ 0 ≤ c.2 < w)%Z)
  ∧ (∀ c, c ∈ safes ai' →
          (0 ≤ c.1 < h ∧ 0 ≤ c.2 < w)%Z ∨ c ∈ obs.*1).
Proof.
  intros Hruns.
  destruct (runs_within_grid _ _ _ Hruns (init_within_grid h w))
    as ((Hk & Hm & Hs) & Hh & Hw).
  simpl in Hh, Hw. rw Hh Hw in Hk Hm Hs.
  pose proof (runs_moves_made _ _ _ Hruns) as Hmoves.
  rw /= right_id_L in Hmoves.
  split_and!; [done..| | |].
  - intros s c Hin Hc. by apply in_grid_spec, (Hk s).
  - intros c Hc. by apply in_grid_spec, Hm.
  - intros c Hc. destruct (Hs c Hc) as [?|Hmv]; [left; by apply in_grid_spec|].
    right. rw Hmoves in Hmv. by apply elem_of_list_to_set in Hmv.
Qed.

Lemma engine_stays_in_grid_witness :
  ∃ ai', runs (init 1 5) line_observations ai'
    ∧ ∀ c, c ∈ mines ai' → (0 ≤ c.1 < 1 ∧ 0 ≤ c.2 < 5)%Z.
Proof.
  assert (∃ ai', runs (init 1 5) line_observations ai') as [ai' Hruns].
  { eexists.
    eapply (runs_cons _ _ _ 1%nat); [vm_compute; reflexivity|].
    eapply (runs_cons _ _ _ 1%nat); [vm_compute; reflexivity|].
    eapply (runs_cons _ _ _ 1%nat); [vm_compute; reflexivity|].
    apply runs_nil. }
  exists ai'. split; [exact Hruns|].
  exact (proj1 (proj2 (proj2 (proj2
    (engine_stays_in_grid 1 5 line_observations ai' Hruns))))).
Defined.

(** X12: the engine is sound: after any sequence of observations read from
    a board (each observed cell is not a mine and each count is the board's
    count), every cell of [mines] is a mine of the board, no cell of [safes]
    is, and every held sentence states the exact number of mines among its
    cells. *)
Theorem truthful_runs_are_sound g obs ai' :
  Forall (truthful g) obs →
  runs (init (Minesweeper.height g) (Minesweeper.width g)) obs ai' →
  (∀ c, c ∈ mines ai' → Minesweeper.is_mine g c = true)
  ∧ (∀ c, c ∈ safes ai' → Minesweeper.is_mine g c = false)
  ∧ (∀ s, s ∈ knowledge ai' →
       Sentence.count s
       = Z.of_nat (size (filter (λ c, Minesweeper.is_mine g c = true)
                                (Sentence.cells s)))).
Proof.
  intros Hobs Hruns.
  destruct (runs_models g obs _ ai' Hruns (init_models g) Hobs)
    as (_ & _ & Hkb & Hm & Hs).
  split; [done|]. split; [done|]. intros s Hin.
  rw /kb_true Forall_forall in Hkb. by apply Hkb.
Qed.

Lemma truthful_runs_are_sound_witness :
  Forall (truthful gap_game) gap_observations
  ∧ ∃ ai', runs (init 2 3) gap_observations ai'
      ∧ ∀ c, c ∈ safes ai' → Minesweeper.is_mine gap_game c = false.
Proof.
  assert (Forall (truthful gap_game) gap_observations) as Hobs
    by repeat constructor.
  assert (∃ ai', runs (init 2 3) gap_observations ai') as [ai' Hruns].
  { eexists.
    eapply (runs_cons _ _ _ 2%nat); [vm_compute; reflexivity|].
    eapply (runs_cons _ _ _ 2%nat); [vm_compute; reflexivity|].
    apply runs_nil. }
  split; [exact Hobs|]. exists ai'. split; [exact Hruns|].
  exact (proj1 (proj2 (truthful_runs_are_sound gap_game _ ai' Hobs Hruns))).
Defined.

(** ** MinesweeperAI: the move queries *)

(** X13: after observations read from a board, the cell returned by
    [make_safe_move] is not a mine of the board, has not been played and
    lies in the grid. *)
Theorem safe_move_is_safe g obs ai' (c : Cell) :
  Forall (truthful g) obs →
  runs (init (Minesweeper.height g) (Minesweeper.width g)) obs ai' →
  make_safe_move ai' = Some c →
  Minesweeper.is_mine g c = false
  ∧ (c ∉ obs.*1)
  ∧ (0 ≤ c.1 < Minesweeper.height g ∧ 0 ≤ c.2 < Minesweeper.width g)%Z.
Proof.
  intros Hobs Hruns [Hsafe Hnew]%make_safe_move_Some.
  destruct (runs_models g obs _ ai' Hruns (init_models g) Hobs)
    as (_ & _ & _ & _ & Hs).
  pose proof (runs_moves_made _ _ _ Hruns) as Hmoves.
  rw /= right_id_L in Hmoves.
  split; [by apply Hs|]. split.
  - intros Hin. apply Hnew. rw Hmoves. by apply elem_of_list_to_set.
  - by apply in_grid_spec, (runs_safes_in_grid _ _ obs ai').
Qed.

Lemma safe_move_is_safe_witness :
  Forall (truthful line_game) [((0, 4), 0)%Z]
  ∧ ∃ ai' c, runs (init 1 5) [((0, 4), 0)%Z] ai'
      ∧ make_safe_move ai' = Some c
      ∧ Minesweeper.is_mine line_game c = false.
Proof.
  assert (Forall (truthful line_game) [((0, 4), 0)%Z]) as Hobs
    by repeat constructor.
  assert (∃ ai', runs (init 1 5) [((0, 4), 0)%Z] ai'
                 ∧ make_safe_move ai' = Some (0, 3)%Z) as (ai' & Hruns & Hmv).
  { eexists. split.
    - eapply (runs_cons _ _ _ 1%nat); [vm_compute; reflexivity|]. apply runs_nil.
    - vm_compute; reflexivity. }
  split; [exact Hobs|]. exists ai', (0, 3)%Z. split; [exact Hruns|].
  split; [exact Hmv|].
  exact (proj1 (safe_move_is_safe line_game _ ai' (0, 3)%Z Hobs Hruns Hmv)).
Defined.

(** X14: [make_random_move] returns a cell of the grid that has not been
    played and is not a known mine, whatever the random source; it returns
    [None] exactly when every cell of the grid is played or a known mine
    (in particular when the height or the width is not positive); and every
    candidate can be drawn. *)
Theorem random_move_candidates (ai : t) :
  (∀ rnd c, make_random_move rnd ai = Ok (Some c) →
     (0 ≤ c.1 < height ai ∧ 0 ≤ c.2 < width ai)%Z
     ∧ (c ∉ moves_made ai) ∧ (c ∉ mines ai))
  ∧ (∀ rnd, make_random_move rnd ai = Ok None ↔
       ∀ c : Cell, (0 ≤ c.1 < height ai ∧ 0 ≤ c.2 < width ai)%Z →
                   c ∈ moves_made ai ∨ c ∈ mines ai)
  ∧ ((height ai ≤ 0 ∨ width ai ≤ 0)%Z →
     ∀ rnd, make_random_move rnd ai = Ok None)
  ∧ (∀ c : Cell, (0 ≤ c.1 < height ai ∧ 0 ≤ c.2 < width ai)%Z →
       (c ∉ moves_made ai) → (c ∉ mines ai) →
       ∃ rnd, make_random_move rnd ai = Ok (Some c)).
Proof.
  assert (∀ c, c ∈ available_moves ai ↔
    (0 ≤ c.1 < height ai ∧ 0 ≤ c.2 < width ai)%Z
    ∧ (c ∉ moves_made ai) ∧ (c ∉ mines ai)) as Hav.
  { intros c. rw /available_moves !elem_of_difference all_cells_elem
      in_grid_spec. tauto. }
  assert (∀ rnd, make_random_move rnd ai = Ok None ↔ available_moves ai = ∅)
    as Hnone.
  { intros rnd. destruct (make_random_move_spec rnd ai) as [He Hne]. split; [|done].
    intros Hr. destruct (decide (available_moves ai = ∅)) as [?|Hn]; [done|].
    destruct (Hne Hn) as (c & Hc & _). congruence. }
  split_and!.
  - intros rnd c Hr. apply Hav.
    destruct (make_random_move_spec rnd ai) as [He Hne].
    destruct (decide (available_moves ai = ∅)) as [Hem|Hn].
    + rw He // in Hr.
    + destruct (Hne Hn) as (c' & Hc' & Hin). congruence.
  - intros rnd. rw Hnone. split.
    + intros He c Hc. destruct (decide (c ∈ moves_made ai)); [by left|].
      destruct (decide (c ∈ mines ai)); [by right|].
      assert (c ∈ available_moves ai) as Hin by by apply Hav. set_solver.
    + intros Hall. apply set_eq. intros c. split; [|set_solver].
      intros (Hc & ? & ?)%Hav. destruct (Hall c Hc); done.
  - intros Hdim rnd. apply Hnone. apply set_eq. intros c.
    split; [|set_solver]. intros (Hc & _)%Hav. lia.
  - intros c Hc Hmv Hmi.
    assert (c ∈ elements (available_moves ai)) as Hin
      by by apply elem_of_elements, Hav.
    apply list_elem_of_lookup in Hin as [i Hi].
    exists i. rw /make_random_move /truthy bool_decide_false.
    { intros He. rw He elements_empty in Hi. done. }
    rw /= /random_choice Nat.mod_small; [by eapply lookup_lt_Some|].
    by rw Hi.
Qed.

Lemma random_move_candidates_witness :
  ∃ rnd, make_random_move rnd (init 1 1) = Ok (Some (0, 0)%Z).
Proof.
  apply (proj2 (proj2 (proj2 (random_move_candidates (init 1 1))))).
  - simpl. lia.
  - by_evaluation.
  - by_evaluation.
Defined.

(** ** MinesweeperAI: the closure loop *)

(** X15: the sentences queued by the subset rule in one pass: each is the
    difference of two held sentences that are not equal and in subset
    relation, built by [__init__]; none is equal to a held sentence, no two
    of them are equal, they list only cells of held sentences, and they are
    true in every board in which the held sentences are true. *)
Theorem subset_rule_output (kb : list Sentence.t) :
  (∀ n, n ∈ subset_resolution kb →
     ∃ a b, a ∈ kb ∧ b ∈ kb ∧ Sentence.eqb a b = false
       ∧ Sentence.cells a ⊆ Sentence.cells b
       ∧ n = Sentence.init (Sentence.cells b ∖ Sentence.cells a)
                           (Sentence.count b - Sentence.count a)
       ∧ contains n kb = false)
  ∧ pairwise_unequal (subset_resolution kb)
  ∧ (∀ b, Forall (sentence_true b) kb →
          Forall (sentence_true b) (subset_resolution kb)).
Proof.
  split_and!.
  - apply subset_resolution_new.
  - apply infer_fold_unequal. intros i j a b _ Hi. done.
  - intros b. apply subset_resolution_true.
Qed.

Lemma subset_rule_output_witness :
  Forall (sentence_true (Minesweeper.board corner_game)) (knowledge scenario3)
  ∧ Forall (sentence_true (Minesweeper.board corner_game))
           (subset_resolution (knowledge scenario3)).
Proof.
  assert (Forall (sentence_true (Minesweeper.board corner_game))
                 (knowledge scenario3)) as Hkb by repeat constructor.
  split; [exact Hkb|].
  exact (proj2 (proj2 (subset_rule_output (knowledge scenario3))) _ Hkb).
Defined.

(** X16: when [add_knowledge] returns a state in which no sentence yields a
    known mine or a known safe cell, that state is a fixed point of the
    closure loop: running the loop again returns the same state after one
    pass. *)
Theorem resting_result_is_fixed_point fuel ai ai' :
  closure fuel ai = Ok ai' → quiescent ai' →
  pass ai' = Ok (ai', false) ∧ ∀ fuel', closure (S fuel') ai' = Ok ai'.
Proof.
  intros (a0 & Hp)%closure_last Hq.
  destruct (pass_unfold a0) as (a1 & Hs & Hp'). rw Hp' in Hp.
  destruct (subset_resolution (knowledge a1)) as [|n news] eqn:Hnews; [|done].
  injection Hp as <-.
  assert (pass (with_knowledge (knowledge a1 ++ []) a1)
          = Ok (with_knowledge (knowledge a1 ++ []) a1, false)) as Hrest.
  { apply closure_at_rest; [done|]. by rw /= app_nil_r. }
  split; [done|]. intros fuel'. by rw /= Hrest.
Qed.

Lemma resting_result_is_fixed_point_witness :
  ∃ ai', closure 2 scenario3 = Ok ai' ∧ quiescent ai'
    ∧ pass ai' = Ok (ai', false).
Proof.
  eexists. split; [vm_compute; reflexivity|].
  assert (quiescent (MinesweeperAI.mk 2 2 ∅ {[(1, 0)%Z]} ∅
    [Sentence.init {[(0, 0); (0, 1)]}%Z 1;
     Sentence.mk {[(0, 0); (0, 1)]}%Z 1 {[(1, 0)%Z]} ∅;
     Sentence.mk ∅ 0 {[(1, 0)%Z]} ∅])) as Hq
    by (repeat constructor; by_evaluation).
  split; [exact Hq|].
  refine (proj1 (resting_result_is_fixed_point 2 scenario3 _ _ Hq)).
  vm_compute; reflexivity.
Defined.

(** ** Minesweeper: [nearby_mines] *)

(** X17: [nearby_mines] returns the number of mines among the in-grid
    neighbours of the cell: it does not count the cell itself nor anything
    outside the bounds, and lies between 0 and 8. *)
Theorem nearby_mines_counts_neighbours (g : Minesweeper.t) (cell : Cell) :
  Minesweeper.nearby_mines g cell
  = Z.of_nat (size (filter (λ c, Minesweeper.board g c = true)
                     (neighbours (Minesweeper.height g) (Minesweeper.width g)
                                 cell)))
  ∧ (0 ≤ Minesweeper.nearby_mines g cell ≤ 8)%Z.
Proof.
  pose proof (nearby_mines_filter g cell) as He.
  split; [done|]. rw He. split; [lia|].
  pose proof (neighbours_size (Minesweeper.height g) (Minesweeper.width g) cell).
  assert (size (filter (λ c, Minesweeper.board g c = true)
                  (neighbours (Minesweeper.height g) (Minesweeper.width g) cell))
          ≤ size (neighbours (Minesweeper.height g) (Minesweeper.width g) cell))
    by (apply subseteq_size; set_solver).
  lia.
Qed.

(** ** Minesweeper: the constructor and the board queries *)

(** X18: when [__init__] returns, the game has the requested dimensions and
    exactly the requested number of mines, all inside the grid; the board
    has [height] rows of [width] entries; [is_mine] of a grid cell tells
    whether the cell is in [mines]; no mine is found yet, so [won] is true
    exactly when no mine was requested. *)
Theorem init_postcondition (h w m : Z) draws (g : Game.t) :
  Game.init h w m draws = Game.Returns g →
  Game.height g = h ∧ Game.width g = w
  ∧ Z.of_nat (size (Game.mines g)) = m
  ∧ Game.mines_found g = ∅
  ∧ length (Game.board g) = Z.to_nat h
  ∧ Forall (λ row, length row = Z.to_nat w) (Game.board g)
  ∧ (∀ c, c ∈ Game.mines g → (0 ≤ c.1 < h ∧ 0 ≤ c.2 < w)%Z)
  ∧ (∀ c : Cell, (0 ≤ c.1 < h ∧ 0 ≤ c.2 < w)%Z →
       Game.is_mine g c = Game.Returns (bool_decide (c ∈ Game.mines g)))
  ∧ Game.won g = bool_decide (m = 0%Z).
Proof.
  intros (Hwf & Hh & Hw & Hf & Hm)%init_returns.
  pose proof Hwf as (Hlen & Hrows & Hin). rw Hh Hw in Hlen Hrows Hin.
  split_and!; [done..| | | |].
  - apply Forall_forall. intros row [i Hi]%list_elem_of_lookup.
    by destruct (Hrows _ _ Hi).
  - intros c Hc. by apply in_grid_spec, Hin.
  - intros [i j] Hc. simpl in Hc. rw is_mine_spec // Hh Hw.
    assert (in_range i h = true ∧ in_range j w = true) as [Hi Hj]
      by (rw /in_range; lia).
    by rw (in_range_wrap _ _ Hi) (in_range_wrap _ _ Hj) Hi Hj.
  - rw /Game.won Hf. apply bool_decide_ext. rw -Hm. split.
    + intros <-. by rw size_empty.
    + intros Hs. symmetry. apply leibniz_equiv, size_empty_inv. lia.
Qed.

Lemma init_postcondition_witness :
  ∃ g, Game.init 1 5 1 [(0, 7)] = Game.Returns g
    ∧ Z.of_nat (size (Game.mines g)) = 1%Z.
Proof.
  eexists. split; [vm_compute; reflexivity|].
  refine (proj1 (proj2 (proj2 (init_postcondition 1 5 1 [(0, 7)] _ _)))).
  vm_compute; reflexivity.
Defined.

(** X19: how [__init__] ends when it does not build a game with mines.
    With no mine requested it returns at once, whatever the dimensions; with
    a non-positive height or width and a non-zero number of mines the first
    draw raises [ValueError]; with positive dimensions and a negative number
    of mines, or more mines than cells, the placement loop never ends and
    never raises, however many draws it is given. *)
Theorem init_failure_modes (h w m : Z) :
  (m = 0%Z → ∀ draws, ∃ g, Game.init h w m draws = Game.Returns g
                           ∧ Game.mines g = ∅)
  ∧ (m ≠ 0%Z → (h ≤ 0 ∨ w ≤ 0)%Z →
     ∀ d draws, Game.init h w m (d :: draws) = Game.Raises Game.ValueError)
  ∧ ((0 < h)%Z → (0 < w)%Z → (m < 0 ∨ h * w < m)%Z →
     ∀ draws, Game.init h w m draws = Game.OutOfDraws).
Proof.
  split_and!.
  - intros -> draws. eexists. split; [by apply place_done|done].
  - intros Hm Hdim d draws. rw /Game.init place_unfold //.
    { apply well_formed_fresh. }
    rw bool_decide_false //. cbn [Game.height Game.width]. lia.
  - intros Hh Hw Hout draws.
    apply place_starves; [apply well_formed_fresh|done..|].
    cbn [Game.mines Game.height Game.width]. rw size_empty. lia.
Qed.

(** X20: [__init__] can return with every placement: for each set of grid
    cells there are draws for which it returns a game whose mines are these
    cells; so for each number of mines from 0 to [height * width] there are
    draws for which it returns. *)
Theorem init_reaches_every_placement (h w : Z) :
  (∀ M : gset Cell, (∀ c, c ∈ M → (0 ≤ c.1 < h ∧ 0 ≤ c.2 < w)%Z) →
     ∃ draws g, Game.init h w (Z.of_nat (size M)) draws = Game.Returns g
                ∧ Game.mines g = M)
  ∧ (∀ m, (0 ≤ h)%Z → (0 ≤ w)%Z → (0 ≤ m ≤ h * w)%Z →
     ∃ draws g, Game.init h w m draws = Game.Returns g).
Proof.
  assert (∀ M : gset Cell, (∀ c, c ∈ M → in_grid h w c) →
     ∃ draws g, Game.init h w (Z.of_nat (size M)) draws = Game.Returns g
                ∧ Game.mines g = M) as Hreach.
  { intros M HM.
    destruct (place_reaches (elements M)
                (Game.mk h w ∅ (replicate (Z.to_nat h)
                                  (replicate (Z.to_nat w) false)) ∅))
      as (g & Hp & Hm).
    - apply well_formed_fresh.
    - apply NoDup_elements.
    - intros c Hc%elem_of_elements. split; [by apply HM|].
      simpl. apply not_elem_of_empty.
    - exists (draws_for (elements M)), g. split.
      + rw -Hp /Game.init. cbn [Game.mines]. by rw size_empty.
      + rw Hm /= right_id_L. apply list_to_set_elements_L. }
  split.
  - intros M HM. apply Hreach. intros c Hc. by apply in_grid_spec, HM.
  - intros m Hh Hw Hm.
    set (l := take (Z.to_nat m) (grid h w)).
    assert (NoDup l) as Hnd
      by (eapply sublist_NoDup; [apply grid_NoDup|apply sublist_take]).
    assert (length l = Z.to_nat m) as Hlen.
    { rw /l length_take grid_length. nia. }
    destruct (Hreach (list_to_set l)) as (draws & g & Hi & _).
    { intros c Hc%elem_of_list_to_set. apply grid_elem.
      by eapply subseteq_take. }
    exists draws, g. rw -Hi. f_equal.
    rw size_list_to_set // Hlen. lia.
Qed.

Lemma init_reaches_every_placement_witness :
  ∃ draws g, Game.init 2 2 (Z.of_nat (size ({[(0, 1); (1, 0)]}%Z : gset Cell)))
                       draws = Game.Returns g
             ∧ Game.mines g = {[(0, 1); (1, 0)]}%Z.
Proof.
  apply (proj1 (init_reaches_every_placement 2 2)).
  refine (bool_decide_unpack _ _).
  vm_compute; exact I.
Defined.

(** X21: [is_mine] on a built game indexes the board as Python lists do: a
    row index from [-height] to [height - 1] and a column index from
    [-width] to [width - 1] are accepted, a negative one counting from the
    end, and the answer is whether the cell so designated is in [mines]; any
    other index raises [IndexError]. *)
Theorem is_mine_indexing (h w m : Z) draws (g : Game.t) (i j : Z) :
  Game.init h w m draws = Game.Returns g →
  ((- h ≤ i < h ∧ - w ≤ j < w)%Z →
   Game.is_mine g (i, j)
   = Game.Returns (bool_decide ((wrap i h, wrap j w) ∈ Game.mines g)))
  ∧ (¬ (- h ≤ i < h ∧ - w ≤ j < w)%Z →
     Game.is_mine g (i, j) = Game.Raises Game.IndexError).
Proof.
  intros (Hwf & Hh & Hw & _)%init_returns. rw is_mine_spec // Hh Hw.
  assert ((in_range (wrap i h) h && in_range (wrap j w) w = true)
          ↔ (- h ≤ i < h ∧ - w ≤ j < w)%Z) as Hiff.
  { rw andb_true_iff /in_range /wrap.
    destruct (Z.ltb_spec i 0); destruct (Z.ltb_spec j 0); lia. }
  split; intros Hc.
  - apply Hiff in Hc. by rw Hc.
  - destruct (in_range (wrap i h) h && in_range (wrap j w) w); [|done].
    exfalso. by apply Hc, Hiff.
Qed.

Lemma is_mine_indexing_witness :
  ∃ g, Game.init 1 5 1 [(0, 7)] = Game.Returns g
    ∧ Game.is_mine g (-1, -3)%Z
      = Game.Returns (bool_decide ((wrap (-1) 1, wrap (-3) 5) ∈ Game.mines g)).
Proof.
  eexists. split; [vm_compute; reflexivity|].
  refine (proj1 (is_mine_indexing 1 5 1 [(0, 7)] _ (-1) (-3) _) _).
  - vm_compute; reflexivity.
  - lia.
Defined.

(** X22: on a built game [nearby_mines] never raises, for any cell, on or
    off the board: it returns the number of mines among the in-grid
    neighbours of the cell, which is the count the engine's development
    reads from the board. *)
Theorem game_nearby_mines_counts (h w m : Z) draws (g : Game.t) (cell : Cell) :
  Game.init h w m draws = Game.Returns g →
  Game.nearby_mines g cell
  = Game.Returns (Z.of_nat (size (neighbours h w cell ∩ Game.mines g)))
  ∧ Game.nearby_mines g cell
    = Game.Returns (Minesweeper.nearby_mines (abstraction g) cell).
Proof.
  intros (Hwf & Hh & Hw & _)%init_returns.
  split; [|by apply nearby_mines_refines].
  rw nearby_mines_refines // nearby_mines_filter /= Hh Hw. do 3 f_equal.
  apply set_eq. intros c.
  rw elem_of_filter elem_of_intersection bool_decide_eq_true. tauto.
Qed.

Lemma game_nearby_mines_counts_witness :
  ∃ g, Game.init 1 5 1 [(0, 7)] = Game.Returns g
    ∧ Game.nearby_mines g (0, 1)%Z
      = Game.Returns (Z.of_nat (size (neighbours 1 5 (0, 1)%Z ∩ Game.mines g))).
Proof.
  eexists. split; [vm_compute; reflexivity|].
  refine (proj1 (game_nearby_mines_counts 1 5 1 [(0, 7)] _ (0, 1)%Z _)).
  vm_compute; reflexivity.
Defined.

(** ** The engine playing a game *)

(** X23: the engine playing a built game: when every observation passed to
    [add_knowledge] is a cell for which [is_mine] returned [False] together
    with the count [nearby_mines] returned for it, every cell of the
    engine's [mines] is a mine of the game, no cell of its [safes] is, and
    [is_mine] returns [False] for the cell [make_safe_move] proposes. *)
Theorem engine_sound_on_games (h w m : Z) draws (g : Game.t) obs ai' :
  Game.init h w m draws = Game.Returns g →
  Forall (λ o, Game.is_mine g o.1 = Game.Returns false
               ∧ Game.nearby_mines g o.1 = Game.Returns o.2) obs →
  runs (init h w) obs ai' →
  mines ai' ⊆ Game.mines g
  ∧ safes ai' ## Game.mines g
  ∧ ∀ c, make_safe_move ai' = Some c → Game.is_mine g c = Game.Returns false.
Proof.
  intros (Hwf & Hh & Hw & _)%init_returns Hobs Hruns.
  assert (Forall (truthful (abstraction g)) obs) as Htr.
  { eapply Forall_impl; [exact Hobs|]. intros o [Hm Hn].
    by apply observation_truthful. }
  pose proof (init_models (abstraction g)) as Hinit. simpl in Hinit.
  rw Hh Hw in Hinit.
  destruct (runs_models _ obs _ ai' Hruns Hinit Htr)
    as (_ & _ & _ & Hmi & Hsa).
  simpl in Hmi, Hsa. split_and!.
  - intros c Hc. apply Hmi in Hc. by apply bool_decide_eq_true in Hc.
  - intros c Hc Hin. apply Hsa in Hc. by apply bool_decide_eq_false in Hc.
  - intros [i j] [Hs Hn]%make_safe_move_Some.
    pose proof (runs_safes_in_grid _ _ _ _ _ Hruns Hs Hn)
      as [Hi Hj]%andb_true_iff.
    simpl in Hi, Hj. rw is_mine_spec // Hh Hw.
    rw (in_range_wrap _ _ Hi) (in_range_wrap _ _ Hj) Hi Hj /=. f_equal.
    apply Hsa in Hs. done.
Qed.

Lemma engine_sound_on_games_witness :
  ∃ g ai', Game.init 1 5 1 [(0, 7)] = Game.Returns g
    ∧ runs (init 1 5) line_observations ai'
    ∧ mines ai' ⊆ Game.mines g.
Proof.
  assert (∃ g, Game.init 1 5 1 [(0, 7)] = Game.Returns g
    ∧ Forall (λ o : Cell * Z, Game.is_mine g o.1 = Game.Returns false
                 ∧ Game.nearby_mines g o.1 = Game.Returns o.2)
             line_observations) as (g & Hg & Hobs).
  { eexists. split; [vm_compute; reflexivity|].
    repeat constructor; vm_compute; reflexivity. }
  assert (∃ ai', runs (init 1 5) line_observations ai') as [ai' Hruns].
  { eexists.
    eapply (runs_cons _ _ _ 1%nat); [vm_compute; reflexivity|].
    eapply (runs_cons _ _ _ 1%nat); [vm_compute; reflexivity|].
    eapply (runs_cons _ _ _ 1%nat); [vm_compute; reflexivity|].
    apply runs_nil. }
  exists g, ai'. split; [exact Hg|]. split; [exact Hruns|].
  exact (proj1 (engine_sound_on_games 1 5 1 [(0, 7)] g line_observations ai'
                  Hg Hobs Hruns)).
Defined.
